(** * pdf-to-agent: chunking engine and multi-document vector store

    A shallow embedding of [backend/utils/chunking.py] (class [TextChunker])
    and [backend/services/vector_service.py] (class [VectorStoreService]),
    with the properties of the design document stated over it, and of
    [backend/utils/pdf_parser.py] and
    [backend/services/document_service.py], which use them.

    Conventions.
    - A Python [str] is a list of characters ([list ascii]); a character
      stands for a code point below 256.  Identifiers ([doc_id],
      [chunk_id]) are [string]s so that they can key a [gmap].
    - A Python [int] is a [Z]; [len] returns a [Z].
    - A component of an embedding is the rational that the Python [float]
      stands for; the index and the score compute in [float32], with the
      rounding and the overflow of that format (module [Float32]).
    - A [while] loop that the source does not bound is run on fuel and
      returns [None] when the fuel runs out.
    - A raised exception is the [Raise] case of [result].
    - What the file system does to a write or to the removal of a file is
      an argument of the function that asks for it. *)

From Stdlib Require Import ZArith QArith Qround Qabs Qpower Lqa Ascii String List Lia Sorting.Sorted Sorting.Permutation.
From Stdlib Require Import Numbers.DecimalString Numbers.DecimalNat.
From Stdlib Require Floats.SpecFloat.
From stdpp Require Import gmap strings list.

Open Scope Z_scope.

(** ** Python values *)

Definition str := list ascii.

Definition chars (s : string) : str := list_ascii_of_string s.

(** The line feed, written ["\n"] in the source. *)
Definition nl : ascii := "010"%char.

Definition len {A : Type} (l : list A) : Z := Z.of_nat (length l).

(** Exceptions the modelled code raises. *)
Inductive exn : Type :=
| ValueError
| IndexError
| AssertionError
| FileNotFoundError
| EOFError
| OSError
| PicklingError.

Inductive result (A : Type) : Type :=
| Ok (a : A)
| Raise (e : exn).
Arguments Ok {A} a.
Arguments Raise {A} e.

Definition nonempty {A : Type} (l : list A) : bool :=
  match l with [] => false | _ :: _ => true end.

(** [str.isspace] on one character, for code points below 256: the
    controls 9-13 and 28-31, the space, NEL (133) and the no-break
    space (160). *)
Definition isspace (c : ascii) : bool :=
  let n := N_of_ascii c in
  ((9 <=? n)%N && (n <=? 13)%N) || ((28 <=? n)%N && (n <=? 32)%N)
  || (n =? 133)%N || (n =? 160)%N.

Fixpoint lstrip (s : str) : str :=
  match s with
  | [] => []
  | c :: s' => if isspace c then lstrip s' else s
  end.

Definition rstrip (s : str) : str := rev (lstrip (rev s)).

(** [s.strip()] *)
Definition strip (s : str) : str := lstrip (rstrip s).

(** [s.startswith(p)] *)
Fixpoint startswith (p s : str) : bool :=
  match p, s with
  | [], _ => true
  | _ :: _, [] => false
  | a :: p', b :: s' => if Ascii.eqb a b then startswith p' s' else false
  end.

(** [s.split(sep)] for a non-empty [sep]: the pieces between the
    non-overlapping occurrences of [sep], found from the left.  [skip]
    counts the characters of a matched separator still to pass, [acc]
    holds the current piece in reverse. *)
Fixpoint split_go (sep : str) (skip : nat) (acc : str) (s : str) : list str :=
  match s with
  | [] => [rev acc]
  | c :: s' =>
      match skip with
      | S k => split_go sep k acc s'
      | O =>
          if startswith sep s
          then rev acc :: split_go sep (pred (length sep)) [] s'
          else split_go sep O (c :: acc) s'
      end
  end.

Definition split (s sep : str) : list str := split_go sep O [] s.

(** [list(s)]: the one-character strings of [s]. *)
Definition list_of_str (s : str) : list str := map (fun c => [c]) s.

(** [re.split(r'\n\n+', s)]: the pieces between the maximal runs of two or
    more line feeds.  [inrun] says that the scan is inside a matched run. *)
Fixpoint re_split_go (inrun : bool) (acc : str) (s : str) : list str :=
  match s with
  | [] => [rev acc]
  | c :: s' =>
      if inrun && Ascii.eqb c nl then re_split_go true [] s'
      else if startswith [nl; nl] s then rev acc :: re_split_go true [] s'
      else re_split_go false (c :: acc) s'
  end.

Definition re_split_paragraphs (s : str) : list str := re_split_go false [] s.

(** [s[start:stop]] with Python's treatment of negative and out-of-range
    bounds. *)
Definition clamp_index (n i : Z) : Z :=
  if i <? 0 then Z.max (n + i) 0 else Z.min i n.

Definition slice {A : Type} (s : list A) (start stop : Z) : list A :=
  let a := clamp_index (len s) start in
  let b := clamp_index (len s) stop in
  take (Z.to_nat (b - a)) (drop (Z.to_nat a) s).

(** [str(i)] for a non-negative [i]. *)
Definition str_of_nat (i : nat) : string :=
  NilEmpty.string_of_uint (Nat.to_uint i).

(** ** config.py and models.py *)

Module Config.

(** [ChunkingStrategy] is a [str] enumeration: its members compare equal
    to their string values, so a strategy is modelled by that string. *)
Definition FIXED : string := "fixed".
Definition SEMANTIC : string := "semantic".
Definition RECURSIVE : string := "recursive".

Record Settings : Type := {
  CHUNKING_STRATEGY : string;
  CHUNK_SIZE : Z;
  CHUNK_OVERLAP : Z
}.

(** The defaults of class [Settings].  The environment and the file
    [.env] can set other values: the properties of the chunker below are
    stated for a chunker of any strategy, chunk size and overlap, or name
    the values that they use, and those of an upload do not look into the
    chunker that these settings configure. *)
Definition settings : Settings :=
  {| CHUNKING_STRATEGY := RECURSIVE; CHUNK_SIZE := 1000; CHUNK_OVERLAP := 200 |}.

End Config.

Record ChunkMetadata : Type := {
  chunk_id : string;
  doc_id : string;
  page_num : option Z;
  chunk_index : nat;
  text : str;
  char_count : Z;
  token_count : option Z
}.

(** ** chunking.py *)

Module Chunking.
Import Config.

Record TextChunker : Type := {
  strategy : string;
  chunk_size : Z;
  chunk_overlap : Z
}.

(** [x or default] for an optional string and an optional integer. *)
Definition or_string (x : option string) (d : string) : string :=
  match x with
  | Some s => if String.eqb s "" then d else s
  | None => d
  end.

Definition or_int (x : option Z) (d : Z) : Z :=
  match x with
  | Some n => if n =? 0 then d else n
  | None => d
  end.

(** [TextChunker.__init__] *)
Definition __init__ (strategy : option string) (chunk_size chunk_overlap : option Z)
  : TextChunker :=
  {| strategy := or_string strategy settings.(CHUNKING_STRATEGY);
     chunk_size := or_int chunk_size settings.(CHUNK_SIZE);
     chunk_overlap := or_int chunk_overlap settings.(CHUNK_OVERLAP) |}.

(** [TextChunker._estimate_tokens] *)
Definition _estimate_tokens (text : str) : Z := len text / 4.

(** [page_nums[i] if page_nums and i < len(page_nums) else None] *)
Definition page_of (page_nums : option (list Z)) (i : nat) : option Z :=
  match page_nums with
  | Some l => l !! i
  | None => None
  end.

(** [f"{doc_id}_chunk_{i}"] *)
Definition chunk_id_of (doc_id : string) (i : nat) : string :=
  (doc_id ++ "_chunk_" ++ str_of_nat i)%string.

(** *** Fixed strategy *)

(** The [while start < len(text)] loop of [_fixed_size_chunking]. *)
Fixpoint fixed_loop (fuel : nat) (self : TextChunker) (text : str) (doc_id : string)
    (page_nums : option (list Z)) (start : Z) (chunk_index : nat)
    (chunks : list ChunkMetadata) : option (list ChunkMetadata) :=
  match fuel with
  | O => None
  | S fuel' =>
      if start <? len text then
        let end_ := start + self.(chunk_size) in
        let chunk_text := slice text start end_ in
        if negb (nonempty (strip chunk_text)) then Some chunks
        else
          let chunk :=
            {| chunk_id := chunk_id_of doc_id chunk_index;
               doc_id := doc_id;
               page_num := page_of page_nums chunk_index;
               chunk_index := chunk_index;
               text := chunk_text;
               char_count := len chunk_text;
               token_count := Some (_estimate_tokens chunk_text) |} in
          fixed_loop fuel' self text doc_id page_nums
            (end_ - self.(chunk_overlap)) (S chunk_index) (chunks ++ [chunk])
      else Some chunks
  end.

Definition _fixed_size_chunking (fuel : nat) (self : TextChunker) (text : str)
    (doc_id : string) (page_nums : option (list Z)) : option (list ChunkMetadata) :=
  fixed_loop fuel self text doc_id page_nums 0 O [].

(** *** Recursive strategy *)

Definition separators : list str :=
  [ [nl; nl]; [nl]; chars ". "; chars "! "; chars "? "; chars " "; [] ].

(** The [for split in splits] loop of [_recursive_split]; [recur] is the
    call of [_recursive_split] at the next separator.  Returns the final
    [chunks] and [current_chunk]. *)
Fixpoint split_loop (chunk_size : Z) (separator : str) (recur : str -> list str)
    (splits : list str) (chunks : list str) (current_chunk : str)
  : list str * str :=
  match splits with
  | [] => (chunks, current_chunk)
  | split :: rest =>
      let split_with_sep :=
        if nonempty separator then split ++ separator else split in
      if len current_chunk + len split_with_sep <=? chunk_size then
        split_loop chunk_size separator recur rest chunks
          (current_chunk ++ split_with_sep)
      else
        let chunks1 :=
          if nonempty current_chunk then chunks ++ [strip current_chunk]
          else chunks in
        if len split_with_sep >? chunk_size then
          split_loop chunk_size separator recur rest
            (chunks1 ++ recur split_with_sep) []
        else
          split_loop chunk_size separator recur rest chunks1 split_with_sep
  end.

(** [_recursive_split] on the separators still to try, that is on
    [separators[sep_index:]]. *)
Fixpoint recursive_split_from (chunk_size : Z) (text : str) (seps : list str)
    {struct seps} : list str :=
  match seps with
  | [] => [text]
  | separator :: seps' =>
      let splits :=
        if nonempty separator then split text separator else list_of_str text in
      let '(chunks, current_chunk) :=
        split_loop chunk_size separator
          (fun t => recursive_split_from chunk_size t seps') splits [] [] in
      if nonempty (strip current_chunk) then chunks ++ [strip current_chunk]
      else chunks
  end.

Definition _recursive_split (self : TextChunker) (text : str)
    (separators : list str) (sep_index : nat) : list str :=
  recursive_split_from self.(chunk_size) text (drop sep_index separators).

Definition _recursive_chunking (self : TextChunker) (text : str) (doc_id : string)
    (page_nums : option (list Z)) : list ChunkMetadata :=
  let chunks := _recursive_split self text separators O in
  imap (fun i chunk =>
          {| chunk_id := chunk_id_of doc_id i;
             doc_id := doc_id;
             page_num := page_of page_nums i;
             chunk_index := i;
             text := chunk;
             char_count := len chunk;
             token_count := Some (_estimate_tokens chunk) |}) chunks.

(** *** Semantic strategy *)

Definition semantic_chunk (doc_id : string) (page_nums : option (list Z))
    (chunk_index : nat) (current_chunk : str) : ChunkMetadata :=
  {| chunk_id := chunk_id_of doc_id chunk_index;
     doc_id := doc_id;
     page_num := page_of page_nums chunk_index;
     chunk_index := chunk_index;
     text := strip current_chunk;
     char_count := len current_chunk;
     token_count := Some (_estimate_tokens current_chunk) |}.

(** The [for para in paragraphs] loop of [_semantic_chunking]. *)
Fixpoint semantic_loop (self : TextChunker) (doc_id : string)
    (page_nums : option (list Z)) (paragraphs : list str)
    (chunks : list ChunkMetadata) (current_chunk : str) (chunk_index : nat)
  : list ChunkMetadata * str * nat :=
  match paragraphs with
  | [] => (chunks, current_chunk, chunk_index)
  | para0 :: rest =>
      let para := strip para0 in
      if negb (nonempty para) then
        semantic_loop self doc_id page_nums rest chunks current_chunk chunk_index
      else if nonempty current_chunk
              && (len current_chunk + len para >? self.(chunk_size)) then
        semantic_loop self doc_id page_nums rest
          (chunks ++ [semantic_chunk doc_id page_nums chunk_index current_chunk])
          (para ++ [nl; nl]) (S chunk_index)
      else
        semantic_loop self doc_id page_nums rest chunks
          (current_chunk ++ para ++ [nl; nl]) chunk_index
  end.

Definition _semantic_chunking (self : TextChunker) (text : str) (doc_id : string)
    (page_nums : option (list Z)) : list ChunkMetadata :=
  let paragraphs := re_split_paragraphs text in
  let '(chunks, current_chunk, chunk_index) :=
    semantic_loop self doc_id page_nums paragraphs [] [] O in
  if nonempty (strip current_chunk)
  then chunks ++ [semantic_chunk doc_id page_nums chunk_index current_chunk]
  else chunks.

(** *** Dispatch *)

(** [TextChunker.chunk_text]; [None] when the fixed-size loop has not
    finished within [fuel] iterations. *)
Definition chunk_text (fuel : nat) (self : TextChunker) (text : str)
    (doc_id : string) (page_nums : option (list Z))
  : option (result (list ChunkMetadata)) :=
  if String.eqb self.(strategy) FIXED then
    Ok <$> _fixed_size_chunking fuel self text doc_id page_nums
  else if String.eqb self.(strategy) RECURSIVE then
    Some (Ok (_recursive_chunking self text doc_id page_nums))
  else if String.eqb self.(strategy) SEMANTIC then
    Some (Ok (_semantic_chunking self text doc_id page_nums))
  else Some (Raise ValueError).

(** [chunk_document] *)
Definition chunk_document (fuel : nat) (text : str) (doc_id : string)
    (strategy : option string) (chunk_size chunk_overlap : option Z)
    (page_nums : option (list Z)) : option (result (list ChunkMetadata)) :=
  let chunker := __init__ strategy chunk_size chunk_overlap in
  chunk_text fuel chunker text doc_id page_nums.

End Chunking.

(** ** float32

    numpy and faiss compute in IEEE 754 single precision.  A [float32] is
    modelled by the rational it stands for, or by [InfNaN] when it is an
    infinity or not a number; every operation rounds its exact result to
    the nearest [float32], ties to even, with the gradual underflow of
    the format, and gives an infinity when the rounded result is larger
    than the largest [float32]. *)

Module Float32.

Definition pow2 (e : Z) : Q := (2 ^ e)%Q.

(** [floor(log2 q)] for a positive [q]. *)
Definition ilog2 (q : Q) : Z :=
  let c := Z.log2 (Qnum q) - Z.log2 (Zpos (Qden q)) in
  if Qle_bool (pow2 c) q then c else c - 1.

(** The nearest integer, ties to even. *)
Definition rne (x : Q) : Z :=
  let f := Qfloor x in
  match (x - inject_Z f ?= 1 # 2)%Q with
  | Lt => f
  | Gt => f + 1
  | Eq => if Z.even f then f else f + 1
  end.

(** The exponent of the last place of a [float32] near [q]: 24 binary
    digits, and no exponent below -149. *)
Definition exponent (q : Q) : Z := Z.max (ilog2 (Qabs q) - 23) (-149).

(** [q] rounded to 24 binary digits, before the test for overflow. *)
Definition nearest (q : Q) : Q :=
  (inject_Z (rne (q / pow2 (exponent q))) * pow2 (exponent q))%Q.

Inductive float32 : Type :=
| Num (q : Q)
| InfNaN.

(** The largest [float32], [(2 - 2^-23) * 2^127]. *)
Definition FLT_MAX : Q := 340282346638528859811704183484516925440%Q.

Definition round (q : Q) : float32 :=
  let v := nearest q in
  if Qle_bool (Qabs v) FLT_MAX then Num v else InfNaN.

(** Subtraction, multiplication and addition: an operand that is no
    number gives no number. *)
Definition lift2 (op : Q -> Q -> Q) (a b : float32) : float32 :=
  match a, b with
  | Num x, Num y => round (op x y)
  | _, _ => InfNaN
  end.

Definition sub : float32 -> float32 -> float32 := lift2 Qminus.
Definition mul : float32 -> float32 -> float32 := lift2 Qmult.
Definition add : float32 -> float32 -> float32 := lift2 Qplus.

End Float32.

(** ** vector_service.py *)

Module VectorStore.

Definition Vector := list Q.

(** A [Dict[str, Any]] whose values the store never inspects. *)
Abbreviation Dict := (gmap string string).

(** *** The external index

    [faiss.IndexFlatL2] is a library outside the repository.  It is
    modelled from its documented behaviour: a brute-force index that
    stores the added vectors and answers a query with the [k] smallest
    squared Euclidean distances in increasing order, equal distances in
    the order of the labels.  A result has to be smaller than the
    largest [float32], with which the search starts: a vector whose
    distance is that large, or overflows, or is not a number, is never
    returned, and the places that stay empty hold the label [-1] and the
    largest [float32].  A [Vector] holds the numbers as Python has them;
    the index reads them as [float32] ([astype('float32')]). *)

Record IndexFlatL2 : Type := {
  d : Z;
  xb : list Vector
}.

Definition ntotal (index : IndexFlatL2) : Z := len index.(xb).

(** The squared distance, summed in [float32] in the order of faiss's
    reference kernel, [fvec_L2sqr_ref]: [res += tmp * tmp] with
    [tmp = x[i] - y[i]], from the first component to the last.  A
    vectorised build of faiss adds the squares in another order, which
    gives the same sum where no addition rounds. *)
Fixpoint fvec_L2sqr (res : Float32.float32) (x y : Vector) : Float32.float32 :=
  match x, y with
  | a :: x', b :: y' =>
      let tmp := Float32.sub (Float32.round a) (Float32.round b) in
      fvec_L2sqr (Float32.add res (Float32.mul tmp tmp)) x' y'
  | _, _ => res
  end.

Definition l2_sqr (x y : Vector) : Float32.float32 :=
  fvec_L2sqr (Float32.Num 0) x y.

Definition FLT_MAX : Q := Float32.FLT_MAX.

(** A stable insertion sort: [le x y] says that [x] may stand before
    [y]; elements that compare equal keep their order. *)
Fixpoint insert_by {A : Type} (le : A -> A -> bool) (x : A) (l : list A) : list A :=
  match l with
  | [] => [x]
  | y :: l' => if le x y then x :: l else y :: insert_by le x l'
  end.

Definition sort_by {A : Type} (le : A -> A -> bool) (l : list A) : list A :=
  foldr (insert_by le) [] l.

Definition dist_le (a b : Q * Z) : bool := Qle_bool a.1 b.1.

(** A distance that the search can return: a number below the largest
    [float32]. *)
Definition in_reach (c : Float32.float32 * Z) : option (Q * Z) :=
  match c.1 with
  | Float32.Num dis => if Qle_bool FLT_MAX dis then None else Some (dis, c.2)
  | Float32.InfNaN => None
  end.

(** The stored vectors that the search can return, with their distance
    to [x] and their label. *)
Definition candidates (index : IndexFlatL2) (x : Vector) : list (Q * Z) :=
  omap in_reach (imap (fun i v => (l2_sqr x v, Z.of_nat i)) index.(xb)).

(** [index.search(x, k)] for a single query row [x]: the pairs of
    [distances[0]] and [indices[0]].  The wrapper asserts that the query
    has the dimension of the index and that [k] is positive. *)
Definition index_search (index : IndexFlatL2) (x : Vector) (k : Z)
  : result (list (Q * Z)) :=
  if negb (len x =? index.(d)) then Raise AssertionError
  else if negb (0 <? k) then Raise AssertionError
  else
    Ok (take (Z.to_nat k)
          (sort_by dist_le (candidates index x)
           ++ replicate (Z.to_nat k) (FLT_MAX, -1))).

(** [np.array(embeddings).astype('float32')] followed by [.shape[1]]:
    the dimension and the rows. *)
Definition np_array_shape1 (embeddings : list Vector) : result (Z * list Vector) :=
  match embeddings with
  | [] => Raise IndexError
  | v :: _ =>
      if forallb (fun w => len w =? len v) embeddings
      then Ok (len v, embeddings)
      else Raise ValueError
  end.

(** *** The service *)

Record SearchMetadata : Type := {
  sm_chunk_index : nat;
  sm_char_count : Z;
  distance : Q
}.

Record SearchResult : Type := {
  sr_doc_id : string;
  sr_chunk_id : string;
  sr_text : str;
  score : Q;
  sr_page_num : option Z;
  metadata : SearchMetadata
}.

(** A cache entry [(index, chunks, metadata)]. *)
Definition entry : Type := IndexFlatL2 * list ChunkMetadata * option Dict.

(** The content of [vector_store_dir / f"{doc_id}.pkl"]: a complete
    pickle of [{"index", "chunks", "metadata"}], or the file that
    [open(file_path, "wb")] emptied and a failed [pickle.dump] did not
    fill, on which [pickle.load] raises [EOFError]. *)
Inductive file : Type :=
| Pickled (e : entry)
| Truncated.

Record VectorStoreService : Type := {
  _cache : gmap string entry;
  disk : gmap string file
}.

(** [VectorStoreService.__init__] on an empty directory. *)
Definition init : VectorStoreService := {| _cache := ∅; disk := ∅ |}.

(** What the file system does to a write. *)
Inductive write_fault : Type :=
| NoFault
| OpenFails
| DumpFails.

(** [_save_to_disk]: [open(file_path, "wb")] truncates the file, then
    [pickle.dump] fills it. *)
Definition _save_to_disk (self : VectorStoreService) (doc_id : string)
    (index : IndexFlatL2) (chunks : list ChunkMetadata) (metadata : option Dict)
    (fault : write_fault) : VectorStoreService * result unit :=
  match fault with
  | OpenFails => (self, Raise OSError)
  | DumpFails =>
      ({| _cache := self.(_cache); disk := <[doc_id := Truncated]> self.(disk) |},
       Raise PicklingError)
  | NoFault =>
      ({| _cache := self.(_cache);
          disk := <[doc_id := Pickled (index, chunks, metadata)]> self.(disk) |},
       Ok tt)
  end.

(** [metadata or {}] *)
Definition or_dict (metadata : option Dict) : Dict :=
  match metadata with Some m => m | None => ∅ end.

(** [store_document] *)
Definition store_document (self : VectorStoreService) (doc_id : string)
    (chunks : list ChunkMetadata) (embeddings : list Vector)
    (metadata : option Dict) (fault : write_fault)
  : VectorStoreService * result unit :=
  if negb (len chunks =? len embeddings) then (self, Raise ValueError)
  else
    match np_array_shape1 embeddings with
    | Raise e => (self, Raise e)
    | Ok (dimension, embeddings_array) =>
        let index := {| d := dimension; xb := embeddings_array |} in
        let self1 :=
          {| _cache := <[doc_id := (index, chunks, Some (or_dict metadata))]> self.(_cache);
             disk := self.(disk) |} in
        _save_to_disk self1 doc_id index chunks metadata fault
    end.

(** [_load_document] *)
Definition _load_document (self : VectorStoreService) (doc_id : string)
  : VectorStoreService * result entry :=
  match self.(_cache) !! doc_id with
  | Some e => (self, Ok e)
  | None =>
      match self.(disk) !! doc_id with
      | None => (self, Raise FileNotFoundError)
      | Some Truncated => (self, Raise EOFError)
      | Some (Pickled e) =>
          ({| _cache := <[doc_id := e]> self.(_cache); disk := self.(disk) |}, Ok e)
      end
  end.

(** [l[i]] with Python's negative indices. *)
Definition getitem {A : Type} (l : list A) (i : Z) : result A :=
  let j := if i <? 0 then i + len l else i in
  if (0 <=? j) && (j <? len l) then
    match l !! Z.to_nat j with
    | Some x => Ok x
    | None => Raise IndexError
    end
  else Raise IndexError.

(** [float(1 / (1 + dist))] for the [numpy.float32] that [dist] is: a
    Python [int] that meets a [float32] scalar is taken into [float32]
    (NumPy 2), so the sum and the quotient are rounded to [float32].  A
    sum that overflows gives the quotient zero; a quotient is no number
    only for a [dist] below zero, which the index does not return, and is
    read as zero here. *)
Definition score_of (dist : Q) : Q :=
  match Float32.round (1 + dist) with
  | Float32.Num x =>
      match Float32.round (1 / x) with
      | Float32.Num s => s
      | Float32.InfNaN => 0%Q
      end
  | Float32.InfNaN => 0%Q
  end.

(** The [SearchResult(...)] that [search] builds from a chunk and its
    distance. *)
Definition result_of (doc_id : string) (chunk : ChunkMetadata) (dist : Q) : SearchResult :=
  {| sr_doc_id := doc_id;
     sr_chunk_id := chunk.(chunk_id);
     sr_text := chunk.(text);
     score := score_of dist;
     sr_page_num := chunk.(page_num);
     metadata :=
       {| sm_chunk_index := chunk.(chunk_index);
          sm_char_count := chunk.(char_count);
          distance := dist |} |}.

(** The [for dist, idx in zip(distances[0], indices[0])] loop of
    [search]. *)
Fixpoint build_results (doc_id : string) (chunks : list ChunkMetadata)
    (hits : list (Q * Z)) (results : list SearchResult)
  : result (list SearchResult) :=
  match hits with
  | [] => Ok results
  | (dist, idx) :: rest =>
      if idx <? len chunks then
        match getitem chunks idx with
        | Raise e => Raise e
        | Ok chunk =>
            build_results doc_id chunks rest
              (results ++ [result_of doc_id chunk dist])
        end
      else build_results doc_id chunks rest results
  end.

(** [search] *)
Definition search (self : VectorStoreService) (doc_id : string)
    (query_embedding : Vector) (top_k : Z)
  : VectorStoreService * result (list SearchResult) :=
  match _load_document self doc_id with
  | (self', Raise e) => (self', Raise e)
  | (self', Ok (index, chunks, _)) =>
      match index_search index query_embedding (Z.min top_k (len chunks)) with
      | Raise e => (self', Raise e)
      | Ok hits => (self', build_results doc_id chunks hits [])
      end
  end.

(** The [for doc_id in doc_ids] loop of [search_multi_documents], with
    its [try]/[except Exception]/[continue]. *)
Fixpoint search_loop (self : VectorStoreService) (doc_ids : list string)
    (query_embedding : Vector) (top_k_per_doc : Z)
    (all_results : list SearchResult)
  : VectorStoreService * list SearchResult :=
  match doc_ids with
  | [] => (self, all_results)
  | doc_id :: rest =>
      match search self doc_id query_embedding top_k_per_doc with
      | (self', Ok results) =>
          search_loop self' rest query_embedding top_k_per_doc
            (all_results ++ results)
      | (self', Raise _) =>
          search_loop self' rest query_embedding top_k_per_doc all_results
      end
  end.

(** The order of [all_results.sort(key=lambda x: x.score, reverse=True)]:
    [x] may stand before [y] when its score is not smaller. *)
Definition score_ge (x y : SearchResult) : bool := Qle_bool y.(score) x.(score).

(** [search_multi_documents] *)
Definition search_multi_documents (self : VectorStoreService)
    (doc_ids : list string) (query_embedding : Vector)
    (top_k_per_doc max_total_results : Z)
  : VectorStoreService * list SearchResult :=
  let '(self', all_results) :=
    search_loop self doc_ids query_embedding top_k_per_doc [] in
  (self', slice (sort_by score_ge all_results) 0 max_total_results).

(** [delete_document].  [unlink_fails] says that [file_path.unlink()]
    raises: the [except Exception] clause then returns [False], with the
    cache entry gone and the file still there. *)
Definition delete_document (self : VectorStoreService) (doc_id : string)
    (unlink_fails : bool) : VectorStoreService * bool :=
  let cache' := delete doc_id self.(_cache) in
  match self.(disk) !! doc_id with
  | Some _ =>
      if unlink_fails then ({| _cache := cache'; disk := self.(disk) |}, false)
      else ({| _cache := cache'; disk := delete doc_id self.(disk) |}, true)
  | None => ({| _cache := cache'; disk := self.(disk) |}, false)
  end.

(** [document_exists] *)
Definition document_exists (self : VectorStoreService) (doc_id : string) : bool :=
  match self.(_cache) !! doc_id with
  | Some _ => true
  | None => bool_decide (is_Some (self.(disk) !! doc_id))
  end.

End VectorStore.

(** ** Vocabulary of the statements *)

Import Config Chunking.

(** A piece fits a chunk size. *)
Definition fits (cs : Z) (c : str) : Prop := len c <= cs.

(** The characters of a text that are not white space. *)
Definition content (s : list ascii) : list ascii :=
  filter (fun c => isspace c = false) s.

(** The accumulation buffer of the semantic strategy ends with the
    paragraph break it appends. *)
Definition ends_with_break (buf : str) : Prop := exists body, buf = body ++ [nl; nl].

(** A chunk whose text is the stripped buffer and whose counts are those of
    the buffer itself. *)
Definition counted_from_buffer (c : ChunkMetadata) : Prop :=
  exists buf,
    ends_with_break buf /\
    c.(text) = strip buf /\
    c.(char_count) = len buf /\
    c.(token_count) = Some (len buf / 4) /\
    len c.(text) < c.(char_count).

(** A chunk whose character count is the length of its text. *)
Definition counted_from_text (c : ChunkMetadata) : Prop :=
  c.(char_count) = len c.(text) /\ c.(token_count) = Some (len c.(text) / 4).

(** The distance between the starts of two successive windows of the
    fixed strategy, and the [i]-th window. *)
Definition stride (self : TextChunker) : Z := self.(chunk_size) - self.(chunk_overlap).

Definition window (self : TextChunker) (txt : str) (i : nat) : str :=
  slice txt (Z.of_nat i * stride self) (Z.of_nat i * stride self + self.(chunk_size)).

(** [ceil(a / b)] for a positive [b]. *)
Definition ceil_div (a b : Z) : Z := - ((- a) / b).

(** Chunk [c] is the [i]-th window, and that window starts inside the text. *)
Definition is_window (self : TextChunker) (txt : str) (i : nat) (c : ChunkMetadata) : Prop :=
  c.(chunk_index) = i /\
  c.(text) = window self txt i /\
  Z.of_nat i * stride self < len txt.

(** *** The vector store *)

Import VectorStore.

(** What [_load_document] returns for a document. *)
Definition lookup_entry (self : VectorStoreService) (doc_id : string) : result entry :=
  (_load_document self doc_id).2.

(** [search] past the call of [_load_document]. *)
Definition search_entry (doc_id : string) (e : result entry) (q : Vector) (k : Z)
  : result (list SearchResult) :=
  match e with
  | Raise err => Raise err
  | Ok (index, chunks, _) =>
      match index_search index q (Z.min k (len chunks)) with
      | Raise err => Raise err
      | Ok hits => build_results doc_id chunks hits []
      end
  end.

(** The results that one document contributes to a multi-document
    search: those of [search], or none when [search] raises. *)
Definition per_document (self : VectorStoreService) (q : Vector) (k : Z)
    (doc_id : string) : list SearchResult :=
  match (search self doc_id q k).2 with
  | Ok results => results
  | Raise _ => []
  end.

(** The results of the documents, in the order of [doc_ids] and, within a
    document, in the order [search] returned them. *)
Definition pool (self : VectorStoreService) (doc_ids : list string) (q : Vector)
    (k : Z) : list SearchResult :=
  concat (map (per_document self q k) doc_ids).

Definition same_score (s : Q) (r : SearchResult) : bool := Qeq_bool r.(score) s.

(** The place of the first element that satisfies [p]. *)
Fixpoint index_where {A : Type} (p : A -> bool) (l : list A) : nat :=
  match l with
  | [] => O
  | x :: l' => if p x then O else S (index_where p l')
  end.

(** The rank of a result among those that its own document returned. *)
Definition rank_in (self : VectorStoreService) (q : Vector) (k : Z)
    (r : SearchResult) : nat :=
  index_where (fun x => String.eqb x.(sr_chunk_id) r.(sr_chunk_id))
    (per_document self q k r.(sr_doc_id)).

(** An entry as [store_document] builds it: one stored vector per chunk,
    and at least one chunk. *)
Definition well_formed (e : entry) : Prop :=
  length e.1.1.(xb) = length e.1.2 /\ e.1.2 <> [].

(** A list in the order of non-decreasing distance, and of non-increasing
    score. *)
Definition by_distance (l : list SearchResult) : Prop :=
  StronglySorted (fun x y => (x.(metadata).(distance) <= y.(metadata).(distance))%Q) l.

Definition by_score (l : list SearchResult) : Prop :=
  StronglySorted (fun x y => (y.(score) <= x.(score))%Q) l.

(** *** What a search returns *)

(** The place that stays empty in the answer of the index. *)
Definition padding : Q * Z := (FLT_MAX, -1).

(** [before a b]: the index returns [a] before [b], the nearer first,
    of two at the same distance the one with the smaller label, and the
    empty places last. *)
Definition before (a b : Q * Z) : Prop :=
  (a.1 < b.1)%Q \/ ((a.1 == b.1)%Q /\ (a.2 < b.2 \/ b.2 = -1)).

(** A pair of a distance and a label that the index can return for the
    query [q]: a stored vector whose distance to [q] is a number below
    the largest [float32]. *)
Definition reachable (index : IndexFlatL2) (q : Vector) (h : Q * Z) : Prop :=
  exists i v, h.2 = Z.of_nat i /\ index.(xb) !! i = Some v /\
              l2_sqr q v = Float32.Num h.1 /\ (h.1 < FLT_MAX)%Q.

(** The result that [search] builds from a pair of the index: for a
    stored vector the chunk of its label, and for an empty place the last
    chunk ([chunks[-1]]), both with the distance of the pair. *)
Definition shown (doc : string) (index : IndexFlatL2) (chunks : list ChunkMetadata)
    (q : Vector) (h : Q * Z) (r : SearchResult) : Prop :=
  (reachable index q h /\
   exists chunk, chunks !! Z.to_nat h.2 = Some chunk /\ r = result_of doc chunk h.1)
  \/ (h = padding /\
      exists chunk, last chunks = Some chunk /\ r = result_of doc chunk FLT_MAX).

(** The squared Euclidean distance of two vectors of integers. *)
Fixpoint squared_distance (x y : list Z) : Z :=
  match x, y with
  | a :: x', b :: y' => (a - b) * (a - b) + squared_distance x' y'
  | _, _ => 0
  end.

(** A vector of integers as a vector of Python numbers. *)
Definition of_integers (x : list Z) : Vector := map inject_Z x.

(** Integers that a [float32] holds exactly. *)
Definition exact (x : list Z) : Prop := Forall (fun a => Z.abs a < 2 ^ 24) x.

(** *** IEEE 754

    [Stdlib.Floats.SpecFloat] specifies the operations of IEEE 754; with
    24 digits and the exponent bound 128 they are those of single
    precision.  The rounding of [Float32] is checked against them on
    sample values. *)
Definition b32 (n e : Z) : SpecFloat.spec_float :=
  SpecFloat.binary_normalize 24 128 n e false.

Definition b32_value (f : SpecFloat.spec_float) : Float32.float32 :=
  match f with
  | SpecFloat.S754_zero _ => Float32.Num 0
  | SpecFloat.S754_finite s m e =>
      Float32.Num ((if s then -1 else 1) * inject_Z (Zpos m) * Float32.pow2 e)
  | _ => Float32.InfNaN
  end.

Definition same_float32 (x y : Float32.float32) : bool :=
  match x, y with
  | Float32.Num a, Float32.Num b => Qeq_bool a b
  | Float32.InfNaN, Float32.InfNaN => true
  | _, _ => false
  end.

(** The float32 [n * 2^e]. *)
Definition scaled (p : Z * Z) : Q := (inject_Z p.1 * Float32.pow2 p.2)%Q.

(** The three operations of the kernel on two sample values, and the
    score of the first, agree with IEEE 754. *)
Definition agrees_with_IEEE (p : (Z * Z) * (Z * Z)) : bool :=
  let a := Float32.Num (scaled p.1) in
  let b := Float32.Num (scaled p.2) in
  let fa := b32 p.1.1 p.1.2 in
  let fb := b32 p.2.1 p.2.2 in
  same_float32 a (b32_value fa)
  && same_float32 b (b32_value fb)
  && same_float32 (Float32.add a b) (b32_value (SpecFloat.SFadd 24 128 fa fb))
  && same_float32 (Float32.sub a b) (b32_value (SpecFloat.SFsub 24 128 fa fb))
  && same_float32 (Float32.mul a b) (b32_value (SpecFloat.SFmul 24 128 fa fb))
  && same_float32 (Float32.Num (score_of (Qabs (scaled p.1))))
       (b32_value
          (SpecFloat.SFdiv 24 128 (b32 1 0)
             (SpecFloat.SFadd 24 128 (b32 1 0) (SpecFloat.SFabs fa)))).

Definition IEEE_samples : list ((Z * Z) * (Z * Z)) :=
  [((0, 0), (1, 0)); ((1, 0), (1, 0)); ((4, 0), (3, 0)); ((3, 0), (-7, 0));
   ((1, -30), (1, 0)); ((16777215, 0), (1, 0)); ((16777215, 0), (3, -1));
   ((16777215, 104), (1, 0)); ((16777215, 104), (16777215, 104));
   ((1, 100), (1, 100)); ((-1, 100), (1, 27)); ((1, -149), (1, -149));
   ((3, -149), (5, -1)); ((1, -100), (1, -60)); ((11184811, -25), (3, 0));
   ((13421773, -26), (13421773, -26)); ((8388609, -23), (8388607, -23));
   ((12345, 10), (-54321, -7)); ((1, 64), (1, 63)); ((5, -75), (7, -75))].

(** *** Sample data *)

Definition sample_chunk (doc : string) (i : nat) (t : string) : ChunkMetadata :=
  {| chunk_id := chunk_id_of doc i; doc_id := doc; page_num := None;
     chunk_index := i; text := chars t; char_count := len (chars t);
     token_count := Some (_estimate_tokens (chars t)) |}.

(** A store that holds document ["A"] with two chunks and document ["B"]
    with one, all three embedded at the origin. *)
Definition sample_store : VectorStoreService :=
  let s1 := (store_document init "A"
               [sample_chunk "A" 0 "alpha"; sample_chunk "A" 1 "beta"]
               [[0%Q]; [0%Q]] None NoFault).1 in
  (store_document s1 "B" [sample_chunk "B" 0 "gamma"] [[0%Q]] None NoFault).1.

(** A store that holds document ["A"] only: five chunks on a line. *)
Definition sample_chunks_A : list ChunkMetadata :=
  [sample_chunk "A" 0 "c0"; sample_chunk "A" 1 "c1"; sample_chunk "A" 2 "c2";
   sample_chunk "A" 3 "c3"; sample_chunk "A" 4 "c4"].

Definition sample_vectors_A : list Vector :=
  [[4%Q]; [1%Q]; [3%Q]; [0%Q]; [2%Q]].

Definition sample_store_A : VectorStoreService :=
  (store_document init "A" sample_chunks_A sample_vectors_A None NoFault).1.

(** A store that holds document ["F"] with two chunks, the first so far
    from the origin that the square of its distance is no [float32]. *)
Definition sample_chunks_F : list ChunkMetadata :=
  [sample_chunk "F" 0 "far"; sample_chunk "F" 1 "near"].

Definition sample_store_F : VectorStoreService :=
  (store_document init "F" sample_chunks_F
     [[inject_Z (2 ^ 100)]; [0%Q]] None NoFault).1.

(** ** The rest of vector_service.py *)

(** [clear_cache] *)
Definition clear_cache (self : VectorStoreService) : VectorStoreService :=
  {| _cache := ∅; disk := self.(disk) |}.

(** [get_cache_size] *)
Definition get_cache_size (self : VectorStoreService) : Z :=
  Z.of_nat (size self.(_cache)).

(** The dictionary that [get_document_info] returns. *)
Record DocumentInfo : Type := {
  info_doc_id : string;
  info_chunk_count : Z;
  info_metadata : option Dict
}.

(** [get_document_info]: [None] when [_load_document] raises. *)
Definition get_document_info (self : VectorStoreService) (doc_id : string)
  : VectorStoreService * option DocumentInfo :=
  match _load_document self doc_id with
  | (self', Ok (_, chunks, metadata)) =>
      (self', Some {| info_doc_id := doc_id;
                      info_chunk_count := len chunks;
                      info_metadata := metadata |})
  | (self', Raise _) => (self', None)
  end.

(** *** Identifiers and files

    The store keys the cache by the identifier of a document and the
    directory by a path that it builds from the identifier,
    [vector_store_dir / f"{doc_id}.pkl"].  The model keys both by the
    identifier.  For the directory that is right when the identifier is
    one component of a path: [pathlib] and a POSIX file system with
    case-sensitive names map two such identifiers that differ to two
    files.  An identifier with a slash is no such name: ["./a"] is
    another key of the cache and the same file as ["a"].  A [plain]
    identifier has no slash and no NUL, and is short enough for a file
    name; what is said about two documents at a time is said for plain
    identifiers, in a directory whose files have plain names. *)
Definition plain_char (c : ascii) : bool :=
  negb (Ascii.eqb c "/") && negb (Ascii.eqb c "000").

Definition plain (doc_id : string) : bool :=
  forallb plain_char (list_ascii_of_string doc_id)
  && (String.length doc_id <=? 100)%nat.

Definition plain_files (self : VectorStoreService) : Prop :=
  forall doc_id, is_Some (self.(disk) !! doc_id) -> plain doc_id = true.

(** A call of the service, with a write that does not fail; the removal
    of a file may. *)
Inductive operation : Type :=
| OpStore (doc_id : string) (chunks : list ChunkMetadata)
    (embeddings : list Vector) (metadata : option Dict)
| OpSearch (doc_id : string) (q : Vector) (k : Z)
| OpSearchMulti (doc_ids : list string) (q : Vector) (k m : Z)
| OpInfo (doc_id : string)
| OpDelete (doc_id : string) (unlink_fails : bool)
| OpClear.

(** The identifiers that a call names are plain. *)
Definition plain_operation (op : operation) : bool :=
  match op with
  | OpStore doc_id _ _ _ => plain doc_id
  | OpSearch doc_id _ _ => plain doc_id
  | OpSearchMulti doc_ids _ _ _ => forallb plain doc_ids
  | OpInfo doc_id => plain doc_id
  | OpDelete doc_id _ => plain doc_id
  | OpClear => true
  end.

Definition apply_operation (self : VectorStoreService) (op : operation)
  : VectorStoreService :=
  match op with
  | OpStore doc_id chunks embeddings metadata =>
      (store_document self doc_id chunks embeddings metadata NoFault).1
  | OpSearch doc_id q k => (search self doc_id q k).1
  | OpSearchMulti doc_ids q k m => (search_multi_documents self doc_ids q k m).1
  | OpInfo doc_id => (get_document_info self doc_id).1
  | OpDelete doc_id unlink_fails => (delete_document self doc_id unlink_fails).1
  | OpClear => clear_cache self
  end.

(** The service after a sequence of calls on an empty directory. *)
Definition run (ops : list operation) : VectorStoreService :=
  fold_left apply_operation ops init.

(** Every cached document has a complete file with the same index and the
    same chunks. *)
Definition coherent (self : VectorStoreService) : Prop :=
  forall doc_id index chunks md,
    self.(_cache) !! doc_id = Some (index, chunks, md) ->
    exists md', self.(disk) !! doc_id = Some (Pickled (index, chunks, md')).

(** The embeddings are a non-empty list of rows of one length. *)
Definition rectangular (embeddings : list Vector) : Prop :=
  exists v, head embeddings = Some v /\
            Forall (fun w => length w = length v) embeddings.

(** ** Further vocabulary for the chunker *)

(** The identifying fields of the [i]-th chunk of a document. *)
Definition numbered (doc : string) (page_nums : option (list Z)) (i : nat)
    (c : ChunkMetadata) : Prop :=
  c.(chunk_index) = i /\
  c.(chunk_id) = chunk_id_of doc i /\
  c.(doc_id) = doc /\
  c.(page_num) = page_of page_nums i.

(** A text with no white space at either end. *)
Definition trimmed (s : str) : Prop := lstrip s = s /\ rstrip s = s.

(** What the design allows a semantic chunk to be: not longer than the
    chunk size, or one whole paragraph of the text. *)
Definition within_policy (self : TextChunker) (txt : str) (c : ChunkMetadata) : Prop :=
  len c.(text) <= self.(chunk_size) \/
  In c.(text) (map strip (re_split_paragraphs txt)).

(** What a semantic chunk is: a trimmed, non-empty text within the size
    policy, counted with the paragraph break that followed it in the
    buffer. *)
Definition semantic_chunk_ok (self : TextChunker) (txt : str) (c : ChunkMetadata) : Prop :=
  within_policy self txt c /\
  c.(char_count) = len c.(text) + 2 /\
  trimmed c.(text) /\
  c.(text) <> [].

(** The buffer of the semantic strategy between two paragraphs: empty, or
    a trimmed body within the size policy followed by one paragraph break. *)
Definition buffer_ok (self : TextChunker) (txt : str) (cur : str) : Prop :=
  cur = [] \/
  exists body,
    cur = body ++ [nl; nl] /\ trimmed body /\ body <> [] /\
    (len body <= self.(chunk_size) \/
     In body (map strip (re_split_paragraphs txt))).

(** The text put together again from overlapping chunks: the first chunk,
    then each later chunk without the [overlap] characters it repeats. *)
Definition stitch (overlap : Z) (texts : list str) : str :=
  match texts with
  | [] => []
  | t :: rest => t ++ concat (map (drop (Z.to_nat overlap)) rest)
  end.

(** Window [i] of the fixed strategy starts inside the text and is not
    blank. *)
Definition live_window (self : TextChunker) (txt : str) (i : nat) : Prop :=
  Z.of_nat i * stride self < len txt /\
  nonempty (strip (window self txt i)) = true.

(** ** utils/pdf_parser.py *)

Module PdfParser.

(** [PyPDF2.PdfReader] is a library outside the repository.  A reader is
    modelled by its pages, and a page by what [page.extract_text()] does:
    it returns a text or raises. *)
Definition Reader : Type := list (result str).

(** The entries of the metadata dictionary that the callers of
    [parse_pdf] read. *)
Record Metadata : Type := {
  num_pages : Z;
  page_numbers : list Z;
  text_extracted_pages : Z
}.

(** What [parse_pdf] does: it returns the text and the metadata, or raises
    [PDFParseError]. *)
Inductive parsed : Type :=
| Parsed (full_text : str) (metadata : Metadata)
| PDFParseError.

(** The [for page_num, page in enumerate(reader.pages)] loop, with its
    [try]/[except Exception]/[continue]. *)
Fixpoint page_loop (pages : Reader) (page_num : nat) (text_by_page : list str)
    (numbers : list Z) : list str * list Z :=
  match pages with
  | [] => (text_by_page, numbers)
  | page :: rest =>
      match page with
      | Ok page_text =>
          if nonempty page_text && nonempty (strip page_text) then
            page_loop rest (S page_num) (text_by_page ++ [page_text])
              (numbers ++ [Z.of_nat page_num + 1])
          else page_loop rest (S page_num) text_by_page numbers
      | Raise _ => page_loop rest (S page_num) text_by_page numbers
      end
  end.

(** [sep.join(parts)] *)
Fixpoint join (sep : str) (parts : list str) : str :=
  match parts with
  | [] => []
  | part :: rest =>
      match rest with
      | [] => part
      | _ :: _ => part ++ sep ++ join sep rest
      end
  end.

(** [parse_pdf]; [reader] is [None] when [PdfReader(pdf_file)] raises, which
    the outer handler turns into [PDFParseError]. *)
Definition parse_pdf (reader : option Reader) : parsed :=
  match reader with
  | None => PDFParseError
  | Some pages =>
      let '(text_by_page, numbers) := page_loop pages O [] [] in
      if negb (nonempty text_by_page) then PDFParseError
      else
        Parsed (join [nl; nl] text_by_page)
          {| num_pages := len pages;
             page_numbers := numbers;
             text_extracted_pages := len text_by_page |}
  end.

(** [validate_pdf], without the error message. *)
Definition validate_pdf (reader : option Reader) : bool :=
  match reader with
  | None => false
  | Some [] => false
  | Some (Raise _ :: _) => false
  | Some (Ok _ :: _) => true
  end.

End PdfParser.

(** The text of page [n], counted from one, and the pages that have one. *)
Definition page_text (pages : PdfParser.Reader) (n : Z) : str :=
  match pages !! Z.to_nat (n - 1) with
  | Some (Ok t) => t
  | _ => []
  end.

Definition has_text (pages : PdfParser.Reader) (n : Z) : Prop :=
  1 <= n /\
  exists t, pages !! Z.to_nat (n - 1) = Some (Ok t) /\ strip t <> [].

(** The state of the page loop after the pages [done]. *)
Definition pages_read (pages done : PdfParser.Reader) (texts : list str)
    (numbers : list Z) : Prop :=
  StronglySorted Z.lt numbers /\
  (forall n, In n numbers <-> has_text pages n /\ n <= len done) /\
  texts = map (page_text pages) numbers.

(** ** services/document_service.py *)

Module DocumentService.

(** The defaults of class [Settings] that the service reads; the
    properties of the service below hold whatever their values. *)
Definition MAX_FILE_SIZE_MB : Z := 50.
Definition DEFAULT_EMBEDDING_PROVIDER : string := "ollama".

(** [models.DocumentMetadata]; the time stamp is a point on the time
    line. *)
Record DocumentMetadata : Type := {
  doc_id : string;
  session_id : string;
  filename : string;
  file_size : Z;
  num_pages : Z;
  upload_timestamp : Z;
  chunk_count : Z;
  embedding_provider : string;
  metadata : PdfParser.Metadata
}.

(** The content of [metadata_dir / f"{doc_id}.json"]: the dump of a
    [DocumentMetadata], or a file that [json.load] or the validation of
    the model rejects. *)
Inductive json_file : Type :=
| Dumped (data : DocumentMetadata)
| Unreadable.

(** The service: the documents that have a file
    [documents_dir / f"{doc_id}.pdf"], the metadata files, and the vector
    store that it shares with the other services.  The service never
    reads a PDF again, so of the PDFs only the names are kept. *)
Record DocumentService : Type := {
  documents_dir : gset string;
  metadata_dir : gmap string json_file;
  vector_service : VectorStoreService
}.

(** [_save_metadata]: [open(metadata_path, "w")] makes the file or
    empties it, then [json.dump] fills it.  When the dump raises, what is
    left is no JSON document. *)
Definition _save_metadata (self : DocumentService) (m : DocumentMetadata)
    (fault : write_fault) : DocumentService * result unit :=
  match fault with
  | OpenFails => (self, Raise OSError)
  | DumpFails =>
      ({| documents_dir := self.(documents_dir);
          metadata_dir := <[m.(doc_id) := Unreadable]> self.(metadata_dir);
          vector_service := self.(vector_service) |}, Raise OSError)
  | NoFault =>
      ({| documents_dir := self.(documents_dir);
          metadata_dir := <[m.(doc_id) := Dumped m]> self.(metadata_dir);
          vector_service := self.(vector_service) |}, Ok tt)
  end.

(** [get_document_metadata]: [None] when the file is missing and when
    reading it raises. *)
Definition get_document_metadata (self : DocumentService) (doc : string)
  : option DocumentMetadata :=
  match self.(metadata_dir) !! doc with
  | None => None
  | Some Unreadable => None
  | Some (Dumped data) => Some data
  end.

(** The [for metadata_file in self.metadata_dir.glob("*.json")] loop of
    [list_documents_by_session].  The order of a directory listing is not
    fixed: [files] is the listing, by document. *)
Fixpoint list_loop (self : DocumentService) (files : list string)
    (session : string) (documents : list DocumentMetadata)
  : list DocumentMetadata :=
  match files with
  | [] => documents
  | metadata_file :: rest =>
      match self.(metadata_dir) !! metadata_file with
      | Some (Dumped data) =>
          if String.eqb data.(session_id) session
          then list_loop self rest session (documents ++ [data])
          else list_loop self rest session documents
      | _ => list_loop self rest session documents
      end
  end.

(** The order of [documents.sort(key=lambda x: x.upload_timestamp,
    reverse=True)]: a document may stand before one that is not newer. *)
Definition newer (a b : DocumentMetadata) : bool :=
  b.(upload_timestamp) <=? a.(upload_timestamp).

(** [list_documents_by_session] *)
Definition list_documents_by_session (self : DocumentService)
    (files : list string) (session : string) : list DocumentMetadata :=
  sort_by newer (list_loop self files session []).

(** [get_document_count_by_session] *)
Definition get_document_count_by_session (self : DocumentService)
    (files : list string) (session : string) : Z :=
  len (list_documents_by_session self files session).

(** What the file system does to the three removals of
    [delete_document]: whether the [unlink] of the vector file, of the
    PDF and of the metadata file raises. *)
Record unlinks : Type := {
  pkl_unlink_fails : bool;
  pdf_unlink_fails : bool;
  json_unlink_fails : bool
}.

Definition all_removed : unlinks :=
  {| pkl_unlink_fails := false; pdf_unlink_fails := false;
     json_unlink_fails := false |}.

(** [delete_document].  The vector store catches what its own removal
    raises, and its answer is not looked at.  An [unlink] of the PDF or
    of the metadata file that raises ends the call in the
    [except Exception] clause, with [False] and with what was removed
    before still removed. *)
Definition delete_document (self : DocumentService) (doc session : string)
    (fs : unlinks) : DocumentService * bool :=
  match get_document_metadata self doc with
  | None => (self, false)
  | Some data =>
      if negb (String.eqb data.(session_id) session) then (self, false)
      else
        let self1 :=
          {| documents_dir := self.(documents_dir);
             metadata_dir := self.(metadata_dir);
             vector_service :=
               (VectorStore.delete_document self.(vector_service) doc
                  fs.(pkl_unlink_fails)).1 |} in
        if bool_decide (doc ∈ self.(documents_dir)) && fs.(pdf_unlink_fails)
        then (self1, false)
        else
          let self2 :=
            {| documents_dir := self1.(documents_dir) ∖ {[doc]};
               metadata_dir := self1.(metadata_dir);
               vector_service := self1.(vector_service) |} in
          if fs.(json_unlink_fails) then (self2, false)
          else
            ({| documents_dir := self2.(documents_dir);
                metadata_dir := delete doc self2.(metadata_dir);
                vector_service := self2.(vector_service) |}, true)
  end.

(** What [upload_document] raises: the error of the parser, whatever the
    embedding service raised, or an exception of the chunker or of the
    vector store. *)
Inductive raised : Type :=
| PDFParseError
| EmbeddingError
| Raised (e : exn).

Inductive outcome : Type :=
| Returns (doc_metadata : DocumentMetadata)
| Raises (r : raised).

(** [upload_document].  Of [file_content] the code uses the length and
    what PyPDF2 reads from it, the [reader]; [uuid4] is the identifier
    that [uuid.uuid4()] draws and [now] the reading of the clock.  The
    embedding service is outside the repository: [embed_documents] gives
    the vectors or [None] when the service raises.  [encode] is the
    metadata dictionary as the vector store sees it.  [pdf_fault],
    [fault] and [json_fault] are what the file system does to the write
    of the PDF, of the vectors and of the metadata; a PDF whose write
    raised after [open] stays as a file.  Whatever else raises between
    the vector store and the metadata file leaves what a metadata file
    that cannot be opened leaves. *)
Definition upload_document (fuel : nat) (self : DocumentService)
    (size : Z) (reader : option PdfParser.Reader) (name session : string)
    (provider : option string) (uuid4 : string)
    (embed_documents : list str -> option (list Vector))
    (encode : PdfParser.Metadata -> Dict)
    (pdf_fault fault json_fault : write_fault) (now : Z)
  : option (DocumentService * outcome) :=
  let max_size := MAX_FILE_SIZE_MB * 1024 * 1024 in
  if size >? max_size then Some (self, Raises (Raised ValueError))
  else if negb (PdfParser.validate_pdf reader)
  then Some (self, Raises (Raised ValueError))
  else
    match PdfParser.parse_pdf reader with
    | PdfParser.PDFParseError => Some (self, Raises PDFParseError)
    | PdfParser.Parsed full_text pdf_metadata =>
        let self1 :=
          {| documents_dir := {[uuid4]} ∪ self.(documents_dir);
             metadata_dir := self.(metadata_dir);
             vector_service := self.(vector_service) |} in
        match pdf_fault with
        | OpenFails => Some (self, Raises (Raised OSError))
        | DumpFails => Some (self1, Raises (Raised OSError))
        | NoFault =>
            match chunk_document fuel full_text uuid4 None None None
                    (Some pdf_metadata.(PdfParser.page_numbers)) with
            | None => None
            | Some (Raise e) => Some (self1, Raises (Raised e))
            | Some (Ok chunks) =>
                match embed_documents (map text chunks) with
                | None => Some (self1, Raises EmbeddingError)
                | Some embeddings =>
                    let stored :=
                      store_document self1.(vector_service) uuid4 chunks
                        embeddings (Some (encode pdf_metadata)) fault in
                    let self2 :=
                      {| documents_dir := self1.(documents_dir);
                         metadata_dir := self1.(metadata_dir);
                         vector_service := stored.1 |} in
                    match stored.2 with
                    | Raise e => Some (self2, Raises (Raised e))
                    | Ok _ =>
                        let doc_metadata :=
                          {| doc_id := uuid4;
                             session_id := session;
                             filename := name;
                             file_size := size;
                             num_pages := pdf_metadata.(PdfParser.num_pages);
                             upload_timestamp := now;
                             chunk_count := len chunks;
                             embedding_provider :=
                               or_string provider DEFAULT_EMBEDDING_PROVIDER;
                             metadata := pdf_metadata |} in
                        match _save_metadata self2 doc_metadata json_fault with
                        | (self3, Raise e) => Some (self3, Raises (Raised e))
                        | (self3, Ok _) => Some (self3, Returns doc_metadata)
                        end
                    end
                end
            end
        end
    end.

End DocumentService.

(** A metadata file that [session] may see. *)
Definition owned_by (self : DocumentService.DocumentService) (session : string)
    (doc : string) (m : DocumentService.DocumentMetadata) : Prop :=
  self.(DocumentService.metadata_dir) !! doc = Some (DocumentService.Dumped m) /\
  m.(DocumentService.session_id) = session.

(** Newest first. *)
Definition not_older (a b : DocumentService.DocumentMetadata) : Prop :=
  b.(DocumentService.upload_timestamp) <= a.(DocumentService.upload_timestamp).

(** The service after [delete_document], and what the call returned. *)
Definition after_delete (self : DocumentService.DocumentService)
    (doc session : string) (fs : DocumentService.unlinks)
  : DocumentService.DocumentService :=
  (DocumentService.delete_document self doc session fs).1.

Definition deleted (self : DocumentService.DocumentService)
    (doc session : string) (fs : DocumentService.unlinks) : bool :=
  (DocumentService.delete_document self doc session fs).2.

(** The files of the service have plain names. *)
Definition plain_service (self : DocumentService.DocumentService) : Prop :=
  plain_files self.(DocumentService.vector_service) /\
  (forall doc, doc ∈ self.(DocumentService.documents_dir) -> plain doc = true) /\
  (forall doc, is_Some (self.(DocumentService.metadata_dir) !! doc) ->
               plain doc = true).

(** What of the other documents a call leaves as it was: the metadata,
    the PDF and what the vector store resolves the document to. *)
Definition same_document (self self' : DocumentService.DocumentService)
    (other : string) : Prop :=
  self'.(DocumentService.metadata_dir) !! other
    = self.(DocumentService.metadata_dir) !! other /\
  (other ∈ self'.(DocumentService.documents_dir)
   <-> other ∈ self.(DocumentService.documents_dir)) /\
  lookup_entry self'.(DocumentService.vector_service) other
    = lookup_entry self.(DocumentService.vector_service) other /\
  document_exists self'.(DocumentService.vector_service) other
    = document_exists self.(DocumentService.vector_service) other.

(** An upload is turned away before anything is written. *)
Definition turned_away (size : Z) (reader : option PdfParser.Reader)
    (pdf_fault : write_fault) : Prop :=
  size > DocumentService.MAX_FILE_SIZE_MB * 1024 * 1024 \/
  PdfParser.validate_pdf reader = false \/
  PdfParser.parse_pdf reader = PdfParser.PDFParseError \/
  pdf_fault = OpenFails.

(** Nothing of the service carries the identifier [doc]. *)
Definition unused (self : DocumentService.DocumentService) (doc : string) : Prop :=
  (doc ∉ self.(DocumentService.documents_dir)) /\
  self.(DocumentService.metadata_dir) !! doc = None /\
  self.(DocumentService.vector_service).(_cache) !! doc = None /\
  self.(DocumentService.vector_service).(disk) !! doc = None.

(** A service with nothing in it, a PDF of three pages of which the second
    is blank, and an embedding service that answers with two numbers for
    each text. *)
Definition sample_service : DocumentService.DocumentService :=
  {| DocumentService.documents_dir := ∅;
     DocumentService.metadata_dir := ∅;
     DocumentService.vector_service := init |}.

Definition sample_reader : option PdfParser.Reader :=
  Some [Ok (chars "Hello world."); Ok (chars "  "); Ok (chars "Second page.")].

Definition sample_embed (texts : list str) : option (list Vector) :=
  Some (map (fun t => [inject_Z (len t); 1%Q]) texts).

Definition failing_embed (texts : list str) : option (list Vector) := None.

Definition sample_encode (md : PdfParser.Metadata) : Dict := ∅.

(** A service that holds one document, ["doc-1"] of the session ["s1"]. *)
Definition sample_metadata : DocumentService.DocumentMetadata :=
  {| DocumentService.doc_id := "doc-1";
     DocumentService.session_id := "s1";
     DocumentService.filename := "a.pdf";
     DocumentService.file_size := 12;
     DocumentService.num_pages := 1;
     DocumentService.upload_timestamp := 7;
     DocumentService.chunk_count := 1;
     DocumentService.embedding_provider := "ollama";
     DocumentService.metadata :=
       {| PdfParser.num_pages := 1; PdfParser.page_numbers := [1];
          PdfParser.text_extracted_pages := 1 |} |}.

(** The removal of the PDF raises, the other two do not. *)
Definition sample_unlinks : DocumentService.unlinks :=
  {| DocumentService.pkl_unlink_fails := false;
     DocumentService.pdf_unlink_fails := true;
     DocumentService.json_unlink_fails := false |}.

Definition sample_service_1 : DocumentService.DocumentService :=
  {| DocumentService.documents_dir := {["doc-1"%string]};
     DocumentService.metadata_dir :=
       {["doc-1"%string := DocumentService.Dumped sample_metadata]};
     DocumentService.vector_service :=
       (store_document init "doc-1" [sample_chunk "doc-1" 0 "Hello"]
          [[0%Q]] None NoFault).1 |}.

(** * Properties of the chunker *)

Section StringFacts.

Lemma len_nonneg {A : Type} (l : list A) : 0 <= len l.
Proof. unfold len. lia. Qed.

Lemma len_app {A : Type} (l1 l2 : list A) : len (l1 ++ l2) = len l1 + len l2.
Proof. unfold len. rewrite length_app. lia. Qed.

Lemma len_nil {A : Type} : len (@nil A) = 0.
Proof. reflexivity. Qed.

Lemma lstrip_length (s : str) : (length (lstrip s) <= length s)%nat.
Proof.
  induction s as [|c s IH]; simpl; [lia|].
  destruct (isspace c); simpl; lia.
Qed.

Lemma rstrip_length (s : str) : (length (rstrip s) <= length s)%nat.
Proof.
  unfold rstrip. rewrite length_rev.
  pose proof (lstrip_length (rev s)) as H. rewrite length_rev in H. exact H.
Qed.

Lemma strip_length (s : str) : (length (strip s) <= length s)%nat.
Proof.
  unfold strip. pose proof (lstrip_length (rstrip s)).
  pose proof (rstrip_length s). lia.
Qed.

Lemma len_strip (s : str) : len (strip s) <= len s.
Proof. unfold len. pose proof (strip_length s). lia. Qed.

Lemma nonempty_true {A : Type} (l : list A) : nonempty l = true <-> l <> [].
Proof. destruct l; simpl; split; congruence. Qed.

Lemma nonempty_false {A : Type} (l : list A) : nonempty l = false <-> l = [].
Proof. destruct l; simpl; split; congruence. Qed.

End StringFacts.

(** ** Size of the chunks of the recursive strategy *)

Section RecursiveBound.

Variable cs : Z.
Hypothesis cs_pos : 1 <= cs.

Lemma split_loop_bound (separator : str) (recur : str -> list str)
    (splits : list str) :
  (forall sp, In sp splits ->
     let sws := if nonempty separator then sp ++ separator else sp in
     cs < len sws -> Forall (fits cs) (recur sws)) ->
  forall chunks cur, Forall (fits cs) chunks -> fits cs cur ->
    Forall (fits cs) (split_loop cs separator recur splits chunks cur).1 /\
    fits cs (split_loop cs separator recur splits chunks cur).2.
Proof.
  induction splits as [|sp rest IH]; intros Hrec chunks cur Hch Hcur.
  - simpl. auto.
  - simpl.
    assert (Hrest : forall sp', In sp' rest ->
              let sws := if nonempty separator then sp' ++ separator else sp' in
              cs < len sws -> Forall (fits cs) (recur sws)).
    { intros sp' Hin. apply Hrec. right. exact Hin. }
    specialize (Hrec sp (or_introl eq_refl)). simpl in Hrec.
    set (sws := if nonempty separator then sp ++ separator else sp) in *.
    destruct (Z.leb_spec (len cur + len sws) cs) as [Hle|Hgt].
    + apply IH; auto. unfold fits. rewrite len_app. exact Hle.
    + assert (Hch1 : Forall (fits cs)
                (if nonempty cur then chunks ++ [strip cur] else chunks)).
      { destruct (nonempty cur); auto.
        apply Forall_app. split; auto.
        constructor; [|constructor].
        unfold fits in *. pose proof (len_strip cur). lia. }
      destruct (Z.gtb_spec (len sws) cs) as [Hbig|Hsmall].
      * apply IH; auto.
        -- apply Forall_app. split; auto.
        -- unfold fits. rewrite len_nil. lia.
      * apply IH; auto.
Qed.

Lemma recursive_split_from_bound (seps : list str) :
  last seps = Some [] ->
  forall text, Forall (fits cs) (recursive_split_from cs text seps).
Proof.
  induction seps as [|separator seps' IH]; intros Hlast text.
  - discriminate.
  - simpl.
    set (splits := if nonempty separator then split text separator
                   else list_of_str text).
    pose proof (split_loop_bound separator
                  (fun t => recursive_split_from cs t seps') splits) as HL.
    assert (Hrec : forall sp, In sp splits ->
              let sws := if nonempty separator then sp ++ separator else sp in
              cs < len sws ->
              Forall (fits cs) (recursive_split_from cs sws seps')).
    { intros sp Hin sws Hbig.
      destruct separator as [|a separator'].
      - simpl in *. subst sws. unfold splits, list_of_str in Hin.
        apply in_map_iff in Hin. destruct Hin as [c [<- _]].
        unfold len in Hbig. simpl in Hbig. lia.
      - apply IH. destruct seps' as [|s1 seps'']; [discriminate|exact Hlast]. }
    specialize (HL Hrec [] [] (List.Forall_nil _)).
    assert (Hnil : fits cs []) by (unfold fits; rewrite len_nil; lia).
    specialize (HL Hnil).
    destruct (split_loop cs separator _ splits [] []) as [chunks cur].
    simpl in HL. destruct HL as [Hch Hcur].
    destruct (nonempty (strip cur)); auto.
    apply Forall_app. split; auto.
    constructor; [|constructor].
    unfold fits in *. pose proof (len_strip cur). lia.
Qed.

End RecursiveBound.

(** C2. Under the recursive strategy with a chunk size of at least one,
    [chunk_text] returns chunks whose text is never longer than
    [chunk_size].  The exception the design allows for an indivisible
    single character is not needed: one character always fits. *)
Theorem recursive_chunks_fit (self : TextChunker) (txt : str) (doc : string)
    (page_nums : option (list Z)) (fuel : nat) :
  self.(strategy) = RECURSIVE ->
  1 <= self.(chunk_size) ->
  exists chunks,
    chunk_text fuel self txt doc page_nums = Some (Ok chunks) /\
    Forall (fun c => len c.(text) <= self.(chunk_size)) chunks.
Proof.
  intros Hs Hcs. unfold chunk_text. rewrite Hs. simpl.
  eexists. split; [reflexivity|].
  apply Forall_forall. intros c Hc.
  unfold _recursive_chunking in Hc.
  apply elem_of_lookup_imap_1 in Hc. destruct Hc as (i & piece & -> & Hi).
  simpl.
  pose proof (recursive_split_from_bound self.(chunk_size) Hcs separators
                eq_refl txt) as HB.
  rewrite Forall_forall in HB. apply HB.
  unfold _recursive_split in Hi. simpl drop in Hi.
  apply list_elem_of_lookup. eauto.
Qed.

Lemma recursive_chunks_fit_witness :
  exists chunks,
    chunk_text 0 (__init__ None (Some 3) None) (chars "aaaa") "doc" None
      = Some (Ok chunks) /\
    Forall (fun c => len c.(text) <= 3) chunks.
Proof.
  apply (recursive_chunks_fit (__init__ None (Some 3) None) (chars "aaaa")
           "doc" None 0); [reflexivity | simpl; lia].
Defined.

(** ** What the recursive strategy does to the content *)

Lemma content_app (a b : str) : content (a ++ b) = content a ++ content b.
Proof. apply filter_app. Qed.

Lemma content_lstrip (s : str) : content (lstrip s) = content s.
Proof.
  induction s as [|c s IH]; [reflexivity|]. cbn [lstrip].
  destruct (isspace c) eqn:Hc; [|reflexivity].
  rewrite IH. unfold content. symmetry. apply filter_cons_False. congruence.
Qed.

Lemma content_rev (s : str) : content (rev s) = rev (content s).
Proof.
  unfold content. rewrite !rev_alt. apply (filter_reverse _ s).
Qed.

Lemma content_strip (s : str) : content (strip s) = content s.
Proof.
  unfold strip, rstrip.
  rewrite content_lstrip, content_rev, content_lstrip, content_rev.
  apply rev_involutive.
Qed.

Lemma startswith_app (sep s : str) :
  startswith sep s = true -> exists rest, s = sep ++ rest.
Proof.
  revert s. induction sep as [|a sep IH]; intros s H.
  - exists s. reflexivity.
  - destruct s as [|b s]; simpl in H; [discriminate|].
    destruct (Ascii.eqb_spec a b) as [->|]; [|discriminate].
    destruct (IH s H) as [rest ->]. exists rest. reflexivity.
Qed.

Lemma split_go_skip (sep : str) (u rest acc : str) :
  split_go sep (length u) acc (u ++ rest) = split_go sep O acc rest.
Proof.
  induction u as [|c u IH]; simpl; [|exact IH].
  destruct rest; reflexivity.
Qed.

(** The pieces of [split], each followed by the separator, spell the text
    followed by one separator. *)
Lemma split_go_concat (sep : str) (n : nat) :
  sep <> [] ->
  forall s acc, (length s <= n)%nat ->
    concat (map (fun piece => piece ++ sep) (split_go sep O acc s))
    = rev acc ++ s ++ sep.
Proof.
  intros Hsep. induction n as [|n IH]; intros s acc Hn.
  - destruct s; [|simpl in Hn; lia]. simpl. rewrite app_nil_r. reflexivity.
  - destruct s as [|c s']; [simpl; rewrite app_nil_r; reflexivity|].
    cbn [split_go].
    destruct (startswith sep (c :: s')) eqn:Hst.
    + destruct (startswith_app _ _ Hst) as [rest Hrest].
      destruct sep as [|a sep']; [congruence|].
      simpl in Hrest. inversion Hrest. subst c s'.
      cbn [length pred]. rewrite split_go_skip.
      cbn [map concat]. rewrite IH.
      * simpl. rewrite <- !app_assoc. reflexivity.
      * simpl in Hn. rewrite length_app in Hn. lia.
    + rewrite IH by (simpl in Hn; lia).
      simpl. rewrite <- app_assoc. reflexivity.
Qed.

Lemma split_concat (s sep : str) :
  sep <> [] -> concat (map (fun piece => piece ++ sep) (split s sep)) = s ++ sep.
Proof.
  intros Hsep. unfold split.
  rewrite (split_go_concat sep (length s) Hsep s [] (Nat.le_refl _)).
  reflexivity.
Qed.

Lemma list_of_str_concat (s : str) : concat (list_of_str s) = s.
Proof.
  induction s as [|c s IH]; simpl; [reflexivity|]. rewrite IH. reflexivity.
Qed.

(** ** Nothing but white space is dropped by the recursive strategy *)

Section RecursiveContent.

Variable cs : Z.

Lemma split_loop_content (separator : str) (recur : str -> list str)
    (splits : list str) :
  (forall t, sublist (content t) (content (concat (recur t)))) ->
  forall chunks cur,
    sublist
      (content (concat chunks) ++ content cur ++
       content (concat (map (fun sp => if nonempty separator
                                       then sp ++ separator else sp) splits)))
      (content (concat (split_loop cs separator recur splits chunks cur).1) ++
       content (split_loop cs separator recur splits chunks cur).2).
Proof.
  intros Hrec. induction splits as [|sp rest IH]; intros chunks cur.
  - simpl. rewrite app_nil_r. reflexivity.
  - cbn [split_loop map concat].
    set (sws := if nonempty separator then sp ++ separator else sp).
    set (tail := concat (map (fun sp0 => if nonempty separator
                                         then sp0 ++ separator else sp0) rest)).
    rewrite content_app.
    destruct (len cur + len sws <=? cs).
    + etransitivity; [|apply IH]. fold tail.
      rewrite content_app, <- !app_assoc. reflexivity.
    + set (chunks1 := if nonempty cur then chunks ++ [strip cur] else chunks).
      assert (Hflush :
        content (concat chunks1) = content (concat chunks) ++ content cur).
      { subst chunks1. destruct cur as [|c cur']; simpl nonempty; cbv iota.
        - rewrite app_nil_r. reflexivity.
        - rewrite concat_app, content_app. simpl concat. rewrite app_nil_r.
          rewrite content_strip. reflexivity. }
      destruct (len sws >? cs).
      * pose proof (IH (chunks1 ++ recur sws) []) as H. fold tail in H.
        etransitivity; [|exact H].
        rewrite concat_app, content_app, Hflush. simpl.
        rewrite <- !app_assoc.
        apply sublist_app; [reflexivity|].
        apply sublist_app; [reflexivity|].
        apply sublist_app; [apply Hrec|reflexivity].
      * pose proof (IH chunks1 sws) as H. fold tail in H.
        etransitivity; [|exact H].
        rewrite Hflush, <- !app_assoc. reflexivity.
Qed.

Lemma recursive_split_from_content (seps : list str) :
  forall txt,
    sublist (content txt) (content (concat (recursive_split_from cs txt seps))).
Proof.
  induction seps as [|separator seps' IH]; intros txt.
  - simpl. rewrite app_nil_r. reflexivity.
  - cbn [recursive_split_from].
    set (splits := if nonempty separator then split txt separator
                   else list_of_str txt).
    set (r := split_loop cs separator
                (fun t => recursive_split_from cs t seps') splits [] []).
    assert (HL : sublist
                   (content (concat (map (fun sp => if nonempty separator
                                                    then sp ++ separator else sp)
                                       splits)))
                   (content (concat r.1) ++ content r.2)).
    { pose proof (split_loop_content separator
                    (fun t => recursive_split_from cs t seps') splits IH [] [])
        as H.
      simpl in H. exact H. }
    assert (Hin : sublist (content txt)
                    (content (concat (map (fun sp => if nonempty separator
                                                     then sp ++ separator else sp)
                                         splits)))).
    { subst splits. destruct separator as [|a separator']; simpl nonempty; cbv iota.
      - rewrite map_id, list_of_str_concat. reflexivity.
      - rewrite split_concat by discriminate. rewrite content_app.
        apply sublist_inserts_r. reflexivity. }
    clearbody r. destruct r as [chunks cur]. cbn [fst snd] in HL.
    etransitivity; [exact Hin|]. etransitivity; [exact HL|].
    destruct (nonempty (strip cur)) eqn:Hne.
    + rewrite concat_app, content_app. simpl. rewrite app_nil_r.
      rewrite content_strip. reflexivity.
    + apply nonempty_false in Hne.
      rewrite <- (content_strip cur), Hne. simpl. rewrite app_nil_r.
      reflexivity.
Qed.

End RecursiveContent.

Lemma map_imap_inverse {A B : Type} (g : B -> A) (l : list A) :
  forall f : nat -> A -> B,
    (forall i x, g (f i x) = x) -> map g (imap f l) = l.
Proof.
  induction l as [|x l IH]; intros f Hf; [reflexivity|].
  simpl. rewrite Hf. f_equal. apply IH. intros i y. apply Hf.
Qed.

Lemma recursive_chunking_text (self : TextChunker) (txt : str) (doc : string)
    (page_nums : option (list Z)) :
  map text (_recursive_chunking self txt doc page_nums)
  = _recursive_split self txt separators O.
Proof.
  unfold _recursive_chunking. apply map_imap_inverse. reflexivity.
Qed.




(** ** Chunks with an empty text *)

Lemma lstrip_head (s : str) (c : ascii) (rest : str) :
  lstrip s = c :: rest -> isspace c = false.
Proof.
  induction s as [|a s IH]; simpl; [discriminate|].
  destruct (isspace a) eqn:Ha; [exact IH|].
  intros H. inversion H. subst. exact Ha.
Qed.

Lemma strip_nonempty_content (s : str) : strip s <> [] <-> content s <> [].
Proof.
  rewrite <- (content_strip s). split.
  - intros Hne. destruct (strip s) as [|c rest] eqn:E; [congruence|].
    unfold strip in E. apply lstrip_head in E.
    unfold content. rewrite filter_cons_True by exact E. discriminate.
  - intros Hc E. rewrite E in Hc. apply Hc. reflexivity.
Qed.

(** The fixed and the semantic strategy never return a chunk whose text is
    empty after trimming. *)
Lemma fixed_loop_nonblank (self : TextChunker) (txt : str) (doc : string)
    (page_nums : option (list Z)) (fuel : nat) :
  forall start i chunks,
    Forall (fun c => strip c.(text) <> []) chunks ->
    match fixed_loop fuel self txt doc page_nums start i chunks with
    | Some out => Forall (fun c => strip c.(text) <> []) out
    | None => True
    end.
Proof.
  induction fuel as [|fuel IH]; intros start i chunks Hch; simpl; [exact I|].
  destruct (start <? len txt); [|exact Hch].
  destruct (nonempty (strip (slice txt start (start + chunk_size self))))
    eqn:Hne; simpl; [|exact Hch].
  apply IH. apply Forall_app. split; [exact Hch|].
  constructor; [|constructor]. simpl. apply nonempty_true. exact Hne.
Qed.

Lemma semantic_loop_nonblank (self : TextChunker) (doc : string)
    (page_nums : option (list Z)) (paragraphs : list str) :
  forall chunks cur i,
    Forall (fun c => strip c.(text) <> []) chunks ->
    cur = [] \/ content cur <> [] ->
    Forall (fun c => strip c.(text) <> [])
      (semantic_loop self doc page_nums paragraphs chunks cur i).1.1 /\
    ((semantic_loop self doc page_nums paragraphs chunks cur i).1.2 = [] \/
     content (semantic_loop self doc page_nums paragraphs chunks cur i).1.2 <> []).
Proof.
  induction paragraphs as [|para0 rest IH]; intros chunks cur i Hch Hcur.
  - simpl. auto.
  - simpl. destruct (nonempty (strip para0)) eqn:Hp; simpl; [|apply IH; auto].
    apply nonempty_true, strip_nonempty_content in Hp.
    assert (Hpara : forall pre, content (pre ++ strip para0 ++ [nl; nl]) <> []).
    { intros pre. rewrite !content_app, content_strip. intros E.
      apply app_eq_nil in E. destruct E as [_ E].
      apply app_eq_nil in E. destruct E as [E _]. contradiction. }
    destruct (nonempty cur) eqn:Hne; simpl.
    + destruct (len cur + len (strip para0) >? chunk_size self).
      * apply IH; [|right; apply (Hpara [])].
        apply Forall_app. split; [exact Hch|].
        constructor; [|constructor]. simpl.
        apply strip_nonempty_content. rewrite content_strip.
        destruct Hcur as [->|Hc]; [discriminate|exact Hc].
      * apply IH; [exact Hch|]. right. apply Hpara.
    + apply IH; [exact Hch|]. right. apply Hpara.
Qed.

Lemma fixed_and_semantic_nonblank (self : TextChunker) (txt : str) (doc : string)
    (page_nums : option (list Z)) (fuel : nat) :
  Forall (fun c => strip c.(text) <> []) (_semantic_chunking self txt doc page_nums) /\
  match _fixed_size_chunking fuel self txt doc page_nums with
  | Some chunks => Forall (fun c => strip c.(text) <> []) chunks
  | None => True
  end.
Proof.
  split; [|apply fixed_loop_nonblank; constructor].
  unfold _semantic_chunking.
  pose proof (semantic_loop_nonblank self doc page_nums (re_split_paragraphs txt)
                [] [] O (List.Forall_nil _) (or_introl eq_refl)) as H.
  destruct (semantic_loop self doc page_nums (re_split_paragraphs txt) [] [] O)
    as [[chunks cur] i]. simpl in H. destruct H as [Hch Hcur].
  destruct (nonempty (strip cur)) eqn:Hne; [|exact Hch].
  apply Forall_app. split; [exact Hch|]. constructor; [|constructor]. simpl.
  apply nonempty_true in Hne.
  apply strip_nonempty_content. rewrite content_strip.
  apply strip_nonempty_content. exact Hne.
Qed.

(** C9. On the text ["\n\nabc"] with a chunk size of three the recursive
    strategy returns a first chunk whose text is empty: the flush inside
    the loop of [_recursive_split] tests [current_chunk], not
    [current_chunk.strip()] as the flush after the loop does.  The same
    happens with the default settings (a chunk size of 1000) on a blank
    paragraph followed by 999 characters. *)
Theorem recursive_emits_empty_chunk :
  (exists c rest,
     chunk_text 0 (__init__ (Some RECURSIVE) (Some 3) None)
       ([nl; nl] ++ chars "abc") "doc" None = Some (Ok (c :: rest)) /\
     c.(text) = [] /\ strip c.(text) = []) /\
  (exists c rest,
     chunk_document 0 ([nl; nl] ++ replicate 999 "a"%char) "doc" None None None None
       = Some (Ok (c :: rest)) /\
     c.(text) = [] /\ strip c.(text) = []).
Proof.
  split; eexists; eexists; (split; [vm_compute; reflexivity|]);
    split; reflexivity.
Qed.

(** ** Character counts *)

Section CharCount.

Variables (self : TextChunker) (doc : string) (page_nums : option (list Z)).

Lemma strip_break (buf : str) : ends_with_break buf -> len (strip buf) + 2 <= len buf.
Proof.
  intros [body ->]. unfold strip, rstrip.
  rewrite rev_app_distr. simpl.
  change (isspace nl) with true. simpl.
  pose proof (lstrip_length (rev (lstrip (rev body)))) as H1.
  rewrite length_rev in H1.
  pose proof (lstrip_length (rev body)) as H2. rewrite length_rev in H2.
  unfold len. rewrite length_app. simpl. lia.
Qed.

Lemma semantic_chunk_counted (i : nat) (buf : str) :
  ends_with_break buf -> counted_from_buffer (semantic_chunk doc page_nums i buf).
Proof.
  intros Hb. exists buf. simpl. repeat split; auto.
  pose proof (strip_break buf Hb). lia.
Qed.

Lemma semantic_loop_counted (paragraphs : list str) :
  forall chunks cur i,
    Forall counted_from_buffer chunks ->
    cur = [] \/ ends_with_break cur ->
    Forall counted_from_buffer
      (semantic_loop self doc page_nums paragraphs chunks cur i).1.1 /\
    ((semantic_loop self doc page_nums paragraphs chunks cur i).1.2 = [] \/
     ends_with_break (semantic_loop self doc page_nums paragraphs chunks cur i).1.2).
Proof.
  induction paragraphs as [|para0 rest IH]; intros chunks cur i Hch Hcur.
  - simpl. auto.
  - simpl. destruct (nonempty (strip para0)); simpl; [|apply IH; auto].
    destruct (nonempty cur) eqn:Hne; simpl.
    + destruct (len cur + len (strip para0) >? chunk_size self).
      * apply IH.
        -- apply Forall_app. split; auto. constructor; [|constructor].
           apply semantic_chunk_counted.
           destruct Hcur as [->|Hb]; [discriminate|exact Hb].
        -- right. exists (strip para0). reflexivity.
      * apply IH; auto. right. exists (cur ++ strip para0).
        rewrite <- app_assoc. reflexivity.
    + apply IH; auto. right. exists (cur ++ strip para0).
      rewrite <- app_assoc. reflexivity.
Qed.

Lemma semantic_chunking_counted (txt : str) :
  Forall counted_from_buffer (_semantic_chunking self txt doc page_nums).
Proof.
  unfold _semantic_chunking.
  pose proof (semantic_loop_counted (re_split_paragraphs txt) [] [] O
                (List.Forall_nil _) (or_introl eq_refl)) as H.
  destruct (semantic_loop self doc page_nums (re_split_paragraphs txt) [] [] O)
    as [[chunks cur] i]. simpl in H. destruct H as [Hch Hcur].
  destruct (nonempty (strip cur)) eqn:Hne; auto.
  apply Forall_app. split; auto. constructor; [|constructor].
  apply semantic_chunk_counted.
  destruct Hcur as [->|Hb]; [discriminate|exact Hb].
Qed.

Lemma recursive_chunking_counted (txt : str) :
  Forall counted_from_text (_recursive_chunking self txt doc page_nums).
Proof.
  apply Forall_forall. intros c Hc. unfold _recursive_chunking in Hc.
  apply elem_of_lookup_imap_1 in Hc. destruct Hc as (i & piece & -> & _).
  split; reflexivity.
Qed.

Lemma fixed_loop_counted (txt : str) (fuel : nat) :
  forall start i chunks,
    Forall counted_from_text chunks ->
    match fixed_loop fuel self txt doc page_nums start i chunks with
    | Some out => Forall counted_from_text out
    | None => True
    end.
Proof.
  induction fuel as [|fuel IH]; intros start i chunks Hch; simpl; [exact I|].
  destruct (start <? len txt); [|exact Hch].
  destruct (nonempty (strip (slice txt start (start + chunk_size self))));
    simpl; [|exact Hch].
  apply IH. apply Forall_app. split; auto.
  constructor; [|constructor]. split; reflexivity.
Qed.

End CharCount.

(** C10. Every chunk of the semantic strategy takes [char_count] and
    [token_count] from the unstripped buffer, which ends with the appended
    paragraph break, so that [char_count] is larger than the length of
    the text of the chunk; the chunks of the recursive and of the fixed
    strategy count the characters of their text. *)
Theorem char_count_of_chunks (self : TextChunker) (txt : str) (doc : string)
    (page_nums : option (list Z)) (fuel : nat) :
  Forall counted_from_buffer (_semantic_chunking self txt doc page_nums) /\
  Forall counted_from_text (_recursive_chunking self txt doc page_nums) /\
  match _fixed_size_chunking fuel self txt doc page_nums with
  | Some chunks => Forall counted_from_text chunks
  | None => True
  end.
Proof.
  split; [apply semantic_chunking_counted|].
  split; [apply recursive_chunking_counted|].
  apply fixed_loop_counted. constructor.
Qed.

(** ** The overlap is not validated *)

(** C5, the claim at a concrete configuration: with a chunk size of three
    and an overlap of five the chunker raises nothing and returns
    chunks. *)
Lemma overlap_above_size_accepted :
  exists chunks,
    chunk_overlap (__init__ (Some RECURSIVE) (Some 3) (Some 5))
      >= chunk_size (__init__ (Some RECURSIVE) (Some 3) (Some 5)) /\
    chunk_document 0 (chars "aaaa") "doc" (Some RECURSIVE) (Some 3) (Some 5) None
      = Some (Ok chunks) /\
    length chunks = 4%nat.
Proof.
  eexists. split; [simpl; lia|]. split; [vm_compute; reflexivity|reflexivity].
Qed.

Lemma semantic_loop_size (self self' : TextChunker) (doc : string)
    (page_nums : option (list Z)) (paragraphs : list str) :
  self'.(chunk_size) = self.(chunk_size) ->
  forall chunks cur i,
    semantic_loop self' doc page_nums paragraphs chunks cur i
    = semantic_loop self doc page_nums paragraphs chunks cur i.
Proof.
  intros Hsz. induction paragraphs as [|para0 rest IH]; intros chunks cur i.
  - reflexivity.
  - simpl. rewrite Hsz. rewrite !IH. reflexivity.
Qed.

Lemma semantic_chunking_size (self self' : TextChunker) (txt : str) (doc : string)
    (page_nums : option (list Z)) :
  self'.(chunk_size) = self.(chunk_size) ->
  _semantic_chunking self' txt doc page_nums
  = _semantic_chunking self txt doc page_nums.
Proof.
  intros Hsz. unfold _semantic_chunking.
  rewrite (semantic_loop_size self self' doc page_nums _ Hsz). reflexivity.
Qed.

(** C5, as the code has it.  [__init__] stores its arguments without
    comparing them, and [chunk_text] raises only for an unknown strategy:
    under the recursive and the semantic strategy it returns chunks for
    every [chunk_overlap], and the same chunks for any two of them. *)
Theorem chunk_overlap_ignored (self : TextChunker) (overlap : Z) (txt : str)
    (doc : string) (page_nums : option (list Z)) (fuel fuel' : nat) :
  self.(strategy) = RECURSIVE \/ self.(strategy) = SEMANTIC ->
  exists chunks,
    chunk_text fuel self txt doc page_nums = Some (Ok chunks) /\
    chunk_text fuel'
      {| strategy := self.(strategy); chunk_size := self.(chunk_size);
         chunk_overlap := overlap |} txt doc page_nums = Some (Ok chunks).
Proof.
  intros [Hs|Hs]; unfold chunk_text; simpl; rewrite Hs; simpl;
    eexists; split; try reflexivity.
  f_equal. f_equal. symmetry. apply semantic_chunking_size. reflexivity.
Qed.

Lemma chunk_overlap_ignored_witness :
  exists chunks,
    chunk_text 0 (__init__ (Some RECURSIVE) (Some 3) (Some 5)) (chars "aaaa")
      "doc" None = Some (Ok chunks) /\
    chunk_text 0
      {| strategy := RECURSIVE; chunk_size := 3; chunk_overlap := 1 |}
      (chars "aaaa") "doc" None = Some (Ok chunks).
Proof.
  apply (chunk_overlap_ignored (__init__ (Some RECURSIVE) (Some 3) (Some 5)) 1
           (chars "aaaa") "doc" None 0 0).
  left. reflexivity.
Defined.

(** ** Layout of the fixed strategy *)

Lemma ceil_div_spec (a b : Z) :
  0 < b -> a <= ceil_div a b * b < a + b.
Proof.
  intros Hb. unfold ceil_div.
  pose proof (Z.div_mod (- a) b ltac:(lia)) as Hdm.
  pose proof (Z.mod_pos_bound (- a) b Hb) as Hm. nia.
Qed.

Lemma ceil_div_unique (a b n : Z) :
  0 < b -> a <= n * b -> n * b < a + b -> n = ceil_div a b.
Proof.
  intros Hb H1 H2. pose proof (ceil_div_spec a b Hb) as [H3 H4]. nia.
Qed.

Section FixedLayout.

Variables (self : TextChunker) (txt : str) (doc : string)
  (page_nums : option (list Z)).
Hypothesis stride_pos : 0 < stride self.

Lemma fixed_loop_layout (fuel : nat) :
  forall (i : nat) (chunks : list ChunkMetadata),
    len txt - Z.of_nat i * stride self < Z.of_nat fuel ->
    (1 <= fuel)%nat ->
    length chunks = i ->
    Z.of_nat i * stride self < len txt + stride self ->
    (forall j c, chunks !! j = Some c -> is_window self txt j c) ->
    exists out,
      fixed_loop fuel self txt doc page_nums (Z.of_nat i * stride self) i chunks
        = Some out /\
      (forall j c, out !! j = Some c -> is_window self txt j c) /\
      len out * stride self < len txt + stride self /\
      ((forall j, Z.of_nat j * stride self < len txt ->
                  nonempty (strip (window self txt j)) = true) ->
       len txt <= len out * stride self).
Proof.
  induction fuel as [|fuel IH]; intros i chunks Hfuel H1 Hlen Hprev Hgood; [lia|].
  simpl. destruct (Z.ltb_spec (Z.of_nat i * stride self) (len txt)) as [Hlt|Hge].
  - fold (window self txt i).
    destruct (nonempty (strip (window self txt i))) eqn:Hblank; simpl.
    + replace (Z.of_nat i * stride self + chunk_size self - chunk_overlap self)
        with (Z.of_nat (S i) * stride self) by (unfold stride; lia).
      apply IH.
      * lia.
      * lia.
      * rewrite length_app. simpl. lia.
      * lia.
      * intros j c Hj. apply lookup_app_Some in Hj.
        destruct Hj as [Hj|[Hj1 Hj2]]; [auto|].
        rewrite Hlen in *. apply list_lookup_singleton_Some in Hj2.
        destruct Hj2 as [Hj2 <-]. assert (j = i) by lia. subst j.
        repeat split; auto.
    + exists chunks. split; [reflexivity|]. split; [exact Hgood|].
      assert (Hl : len chunks = Z.of_nat i) by (unfold len; lia).
      rewrite Hl. split; [exact Hprev|].
      intros Hall. rewrite (Hall i Hlt) in Hblank. discriminate.
  - exists chunks. split; [reflexivity|]. split; [exact Hgood|].
    assert (Hl : len chunks = Z.of_nat i) by (unfold len; lia).
    rewrite Hl. split; [exact Hprev|]. intros _. lia.
Qed.

End FixedLayout.

(** With [chunk_overlap = chunk_size] the window never moves: when the
    first window is not blank the loop of the fixed strategy does not end,
    whatever the fuel. *)
Lemma fixed_loop_stuck (self : TextChunker) (txt : str) (doc : string)
    (page_nums : option (list Z)) :
  self.(chunk_overlap) = self.(chunk_size) ->
  0 < len txt ->
  nonempty (strip (slice txt 0 (0 + self.(chunk_size)))) = true ->
  forall fuel i chunks,
    fixed_loop fuel self txt doc page_nums 0 i chunks = None.
Proof.
  intros Hov Hlen Hwin. apply Z.ltb_lt in Hlen.
  induction fuel as [|fuel IH]; intros i chunks; [reflexivity|].
  cbn [fixed_loop]. rewrite Hlen.
  rewrite Hwin. simpl.
  replace (0 + chunk_size self - chunk_overlap self) with 0 by lia.
  apply IH.
Qed.

(** C8, the claim at a concrete input: ten characters, a chunk size of
    four and an overlap of two give five chunks, where the count of the
    design is four. *)
Lemma fixed_count_counts_from_zero :
  exists chunks,
    _fixed_size_chunking 11 (__init__ (Some FIXED) (Some 4) (Some 2))
      (chars "aaaaaaaaaa") "doc" None = Some chunks /\
    len chunks = 5 /\
    ceil_div (len (chars "aaaaaaaaaa") - 2) (4 - 2) = 4.
Proof.
  eexists. split; [vm_compute; reflexivity|]. split; reflexivity.
Qed.

(** C8, as the code has it.  With [chunk_overlap < chunk_size] the loop of
    the fixed strategy ends within [len(text) + 1] iterations; chunk [i]
    is the window that starts at [i * (chunk_size - chunk_overlap)], and
    that start lies inside the text; there are at most
    [ceil(len(text) / (chunk_size - chunk_overlap))] chunks, and exactly
    that many when no window that starts inside the text is all white
    space. *)
Theorem fixed_chunks_layout (self : TextChunker) (txt : str) (doc : string)
    (page_nums : option (list Z)) (fuel : nat) :
  self.(chunk_overlap) < self.(chunk_size) ->
  (length txt < fuel)%nat ->
  exists chunks,
    _fixed_size_chunking fuel self txt doc page_nums = Some chunks /\
    (forall i c, chunks !! i = Some c -> is_window self txt i c) /\
    len chunks <= ceil_div (len txt) (stride self) /\
    ((forall i, Z.of_nat i * stride self < len txt ->
                nonempty (strip (window self txt i)) = true) ->
     len chunks = ceil_div (len txt) (stride self)).
Proof.
  intros Hov Hfuel.
  assert (Hs : 0 < stride self) by (unfold stride; lia).
  destruct (fixed_loop_layout self txt doc page_nums Hs fuel O [])
    as (out & Hrun & Hgood & Hup & Hlow).
  - unfold len. lia.
  - lia.
  - reflexivity.
  - pose proof (len_nonneg txt). lia.
  - intros j c Hj. rewrite lookup_nil in Hj. discriminate.
  - exists out. split; [exact Hrun|]. split; [exact Hgood|].
    pose proof (ceil_div_spec (len txt) (stride self) Hs) as [Hc1 Hc2].
    split; [nia|].
    intros Hall. apply ceil_div_unique; auto.
Qed.

Lemma fixed_chunks_layout_witness :
  exists chunks,
    _fixed_size_chunking 11 (__init__ (Some FIXED) (Some 4) (Some 2))
      (chars "aaaaaaaaaa") "doc" None = Some chunks /\
    (forall i c, chunks !! i = Some c ->
       is_window (__init__ (Some FIXED) (Some 4) (Some 2)) (chars "aaaaaaaaaa") i c) /\
    len chunks <= ceil_div 10 2 /\
    ((forall i, Z.of_nat i * 2 < 10 ->
        nonempty (strip (window (__init__ (Some FIXED) (Some 4) (Some 2))
                           (chars "aaaaaaaaaa") i)) = true) ->
     len chunks = ceil_div 10 2).
Proof.
  apply (fixed_chunks_layout (__init__ (Some FIXED) (Some 4) (Some 2))
           (chars "aaaaaaaaaa") "doc" None 11); [simpl; lia | simpl; lia].
Defined.

(** * Properties of the vector store *)

(** ** The stable sort *)

Section StableSort.

Context {A : Type} (le : A -> A -> bool).
Hypothesis le_total : forall x y, le x y = false -> le y x = true.
Hypothesis le_trans : forall x y z, le x y = true -> le y z = true -> le x z = true.

Lemma sort_by_cons (x : A) (l : list A) :
  sort_by le (x :: l) = insert_by le x (sort_by le l).
Proof. reflexivity. Qed.

Lemma insert_by_perm (x : A) (l : list A) : Permutation (insert_by le x l) (x :: l).
Proof.
  induction l as [|y l IH]; simpl; [reflexivity|].
  destruct (le x y); [reflexivity|].
  rewrite IH. apply perm_swap.
Qed.

Lemma sort_by_perm (l : list A) : Permutation (sort_by le l) l.
Proof.
  induction l as [|x l IH]; [reflexivity|].
  rewrite sort_by_cons, insert_by_perm, IH. reflexivity.
Qed.

Lemma insert_by_sorted (x : A) (l : list A) :
  StronglySorted (fun a b => le a b = true) l ->
  StronglySorted (fun a b => le a b = true) (insert_by le x l).
Proof.
  induction l as [|y l IH]; intros Hs; simpl.
  - constructor; constructor.
  - apply StronglySorted_inv in Hs. destruct Hs as [Hs Hy].
    destruct (le x y) eqn:Hxy.
    + constructor; [constructor; auto|].
      constructor; [exact Hxy|].
      eapply List.Forall_impl; [|exact Hy]. intros z Hz. simpl in Hz.
      eapply le_trans; eauto.
    + constructor; [auto|].
      apply List.Forall_forall. intros z Hz.
      apply (Permutation_in _ (insert_by_perm x l)) in Hz.
      destruct Hz as [<-|Hz]; [apply le_total; exact Hxy|].
      rewrite List.Forall_forall in Hy. auto.
Qed.

Lemma sort_by_sorted (l : list A) :
  StronglySorted (fun a b => le a b = true) (sort_by le l).
Proof.
  induction l as [|x l IH]; [constructor|].
  rewrite sort_by_cons. apply insert_by_sorted. exact IH.
Qed.

Lemma sort_by_fixes_sorted (l : list A) :
  StronglySorted (fun a b => le a b = true) l -> sort_by le l = l.
Proof.
  induction l as [|x l IH]; intros Hs; [reflexivity|].
  apply StronglySorted_inv in Hs. destruct Hs as [Hs Hx].
  rewrite sort_by_cons, (IH Hs).
  destruct l as [|y l]; simpl; [reflexivity|].
  apply List.Forall_inv in Hx. rewrite Hx. reflexivity.
Qed.

(** Stability: the elements that satisfy [P] keep their order, when any
    two of them compare as equal. *)
Lemma insert_by_filter (P : A -> bool) (x : A) (l : list A) :
  (forall a b, P a = true -> P b = true -> le a b = true) ->
  List.filter P (insert_by le x l) = List.filter P (x :: l).
Proof.
  intros HP. induction l as [|y l IH]; simpl; [reflexivity|].
  destruct (le x y) eqn:Hxy; [reflexivity|].
  simpl. rewrite IH. simpl.
  destruct (P x) eqn:Hx, (P y) eqn:Hy; try reflexivity.
  rewrite (HP x y Hx Hy) in Hxy. discriminate.
Qed.

Lemma sort_by_stable (P : A -> bool) (l : list A) :
  (forall a b, P a = true -> P b = true -> le a b = true) ->
  List.filter P (sort_by le l) = List.filter P l.
Proof.
  intros HP. induction l as [|x l IH]; [reflexivity|].
  rewrite sort_by_cons, (insert_by_filter P x _ HP). simpl.
  rewrite IH. reflexivity.
Qed.

End StableSort.

Lemma StronglySorted_take {A : Type} (R : A -> A -> Prop) (n : nat) (l : list A) :
  StronglySorted R l -> StronglySorted R (take n l).
Proof.
  revert n. induction l as [|x l IH]; intros n Hs.
  - destruct n; constructor.
  - destruct n; simpl; [constructor|].
    apply StronglySorted_inv in Hs. destruct Hs as [Hs Hx].
    constructor; [auto|].
    apply List.Forall_forall. intros y Hy.
    rewrite List.Forall_forall in Hx. apply Hx.
    apply list_elem_of_In. apply list_elem_of_In in Hy.
    apply elem_of_take in Hy. destruct Hy as (i & Hi & _).
    eapply list_elem_of_lookup_2; eauto.
Qed.

Lemma StronglySorted_weaken {A : Type} (R S : A -> A -> Prop) (l : list A) :
  (forall x y, R x y -> S x y) -> StronglySorted R l -> StronglySorted S l.
Proof.
  intros HRS Hs. induction Hs; constructor; auto.
  eapply List.Forall_impl; [|eassumption]. intros; auto.
Qed.

Lemma slice_from_0 {A : Type} (l : list A) (m : Z) :
  slice l 0 m = take (Z.to_nat (clamp_index (len l) m)) l.
Proof.
  unfold slice. pose proof (len_nonneg l).
  assert (H0 : clamp_index (len l) 0 = 0) by (unfold clamp_index; simpl; lia).
  rewrite H0. simpl. rewrite Z.sub_0_r. reflexivity.
Qed.

Lemma slice_from_0_length {A : Type} (l : list A) (m : Z) :
  0 <= m -> len (slice l 0 m) <= m.
Proof.
  intros Hm. rewrite slice_from_0. unfold len. rewrite length_take.
  unfold clamp_index. destruct (Z.ltb_spec m 0); lia.
Qed.

Lemma slice_from_0_all {A : Type} (l : list A) (m : Z) :
  len l <= m -> slice l 0 m = l.
Proof.
  intros Hm. rewrite slice_from_0. apply take_ge.
  pose proof (len_nonneg l). unfold clamp_index.
  destruct (Z.ltb_spec m 0); unfold len in *; lia.
Qed.

(** ** float32 *)

Section Float32Facts.

Import Float32.

Lemma pow2_pos (e : Z) : (0 < pow2 e)%Q.
Proof. apply Qpower_0_lt. reflexivity. Qed.

Lemma pow2_plus (a b : Z) : (pow2 (a + b) == pow2 a * pow2 b)%Q.
Proof. apply Qpower_plus. discriminate. Qed.

Lemma pow2_le (a b : Z) : a <= b -> (pow2 a <= pow2 b)%Q.
Proof. intros H. apply Qpower_le_compat_l; [exact H|discriminate]. Qed.

Lemma pow2_lt_inv (a b : Z) : (pow2 a < pow2 b)%Q -> a < b.
Proof. intros H. apply (Qpower_lt_compat_l_inv 2); [exact H|reflexivity]. Qed.

Lemma pow2_Z (n : Z) : 0 <= n -> (inject_Z (2 ^ n) == pow2 n)%Q.
Proof. intros H. apply (Zpower_Qpower 2 n H). Qed.

(** [ilog2] is the integer part of the binary logarithm. *)
Lemma ilog2_spec (q : Q) :
  (0 < q)%Q -> (pow2 (ilog2 q) <= q)%Q /\ (q < pow2 (ilog2 q + 1))%Q.
Proof.
  intros Hq. unfold ilog2.
  destruct q as [n d]. cbn [Qnum Qden].
  assert (Hn : 0 < n).
  { unfold Qlt in Hq. simpl in Hq. lia. }
  set (a := Z.log2 n). set (b := Z.log2 (Z.pos d)).
  assert (Ha : 0 <= a) by apply Z.log2_nonneg.
  assert (Hb : 0 <= b) by apply Z.log2_nonneg.
  destruct (Z.log2_spec n Hn) as [Ha1 Ha2]. fold a in Ha1, Ha2.
  destruct (Z.log2_spec (Z.pos d) ltac:(lia)) as [Hb1 Hb2]. fold b in Hb1, Hb2.
  assert (HD : (0 < inject_Z (Z.pos d))%Q) by (unfold Qlt; simpl; lia).
  assert (Hq' : (n # d == inject_Z n / inject_Z (Z.pos d))%Q)
    by apply Qmake_Qdiv.
  assert (Hup : (inject_Z n < pow2 (a + 1))%Q).
  { rewrite <- pow2_Z by lia. rewrite <- Zlt_Qlt.
    replace (a + 1) with (Z.succ a) by lia. exact Ha2. }
  assert (Hlo : (pow2 a <= inject_Z n)%Q).
  { rewrite <- pow2_Z by lia. rewrite <- Zle_Qle. exact Ha1. }
  assert (Hdup : (inject_Z (Z.pos d) < pow2 (b + 1))%Q).
  { rewrite <- pow2_Z by lia. rewrite <- Zlt_Qlt.
    replace (b + 1) with (Z.succ b) by lia. exact Hb2. }
  assert (Hdlo : (pow2 b <= inject_Z (Z.pos d))%Q).
  { rewrite <- pow2_Z by lia. rewrite <- Zle_Qle. exact Hb1. }
  assert (Hlt : (n # d < pow2 (a - b + 1))%Q).
  { rewrite Hq'. apply Qlt_shift_div_r; [exact HD|].
    apply Qlt_le_trans with (pow2 (a + 1)); [exact Hup|].
    replace (a + 1) with ((a - b + 1) + b) by lia. rewrite pow2_plus.
    apply Qmult_le_l; [apply pow2_pos|exact Hdlo]. }
  assert (Hgt : (pow2 (a - b - 1) < n # d)%Q).
  { rewrite Hq'. apply Qlt_shift_div_l; [exact HD|].
    apply Qlt_le_trans with (pow2 a); [|exact Hlo].
    replace a with ((a - b - 1) + (b + 1)) at 2 by lia. rewrite pow2_plus.
    apply Qmult_lt_l; [apply pow2_pos|exact Hdup]. }
  destruct (Qle_bool (pow2 (a - b)) (n # d)) eqn:E.
  - apply Qle_bool_iff in E. split; [exact E|exact Hlt].
  - split.
    + apply Qlt_le_weak. exact Hgt.
    + replace (a - b - 1 + 1) with (a - b) by lia.
      apply Qnot_le_lt. intros H. apply Qle_bool_iff in H. congruence.
Qed.

Lemma ilog2_unique (q : Q) (l : Z) :
  (pow2 l <= q)%Q -> (q < pow2 (l + 1))%Q -> ilog2 q = l.
Proof.
  intros H1 H2.
  assert (Hq : (0 < q)%Q) by (eapply Qlt_le_trans; [apply pow2_pos|exact H1]).
  destruct (ilog2_spec q Hq) as [S1 S2].
  assert (A : ilog2 q < l + 1).
  { apply pow2_lt_inv. eapply Qle_lt_trans; [exact S1|exact H2]. }
  assert (B : l < ilog2 q + 1).
  { apply pow2_lt_inv. eapply Qle_lt_trans; [exact H1|exact S2]. }
  lia.
Qed.

Lemma ilog2_mono (p q : Q) : (0 < p)%Q -> (p <= q)%Q -> ilog2 p <= ilog2 q.
Proof.
  intros Hp Hpq.
  assert (Hq : (0 < q)%Q) by (eapply Qlt_le_trans; eassumption).
  destruct (ilog2_spec p Hp) as [P1 _]. destruct (ilog2_spec q Hq) as [_ Q2].
  assert (A : ilog2 p < ilog2 q + 1).
  { apply pow2_lt_inv. eapply Qle_lt_trans; [exact P1|].
    eapply Qle_lt_trans; [exact Hpq|exact Q2]. }
  lia.
Qed.

Lemma ilog2_abs (q : Q) : (0 < q)%Q -> ilog2 (Qabs q) = ilog2 q.
Proof.
  intros Hq. destruct (ilog2_spec q Hq) as [S1 S2].
  apply ilog2_unique; rewrite Qabs_pos by (apply Qlt_le_weak; exact Hq);
    assumption.
Qed.

Lemma rne_bounds (x : Q) : Qfloor x <= rne x <= Qfloor x + 1.
Proof.
  unfold rne. destruct (x - inject_Z (Qfloor x) ?= 1 # 2)%Q; [|lia|lia].
  destruct (Z.even (Qfloor x)); lia.
Qed.

Lemma rne_ge (x : Q) (n : Z) : (inject_Z n <= x)%Q -> n <= rne x.
Proof.
  intros H. pose proof (rne_bounds x) as [B _].
  apply Qfloor_resp_le in H. rewrite Qfloor_Z in H. lia.
Qed.

Lemma rne_Z (x : Q) (n : Z) : (x == inject_Z n)%Q -> rne x = n.
Proof.
  intros H. unfold rne.
  assert (Hf : Qfloor x = n) by (rewrite H; apply Qfloor_Z).
  rewrite Hf.
  assert (E : (x - inject_Z n ?= 1 # 2)%Q = Lt).
  { apply Qlt_alt. rewrite H. unfold Qminus. rewrite Qplus_opp_r.
    reflexivity. }
  rewrite E. reflexivity.
Qed.

Lemma rne_le (x : Q) (n : Z) : (x <= inject_Z n)%Q -> rne x <= n.
Proof.
  intros H. destruct (Qeq_dec x (inject_Z n)) as [E|E].
  - rewrite (rne_Z x n E). lia.
  - assert (Hlt : (x < inject_Z n)%Q).
    { apply Qle_lteq in H. destruct H; [assumption|contradiction]. }
    pose proof (rne_bounds x) as [_ B].
    assert (Qfloor x < n).
    { rewrite Zlt_Qlt. eapply Qle_lt_trans; [apply Qfloor_le|exact Hlt]. }
    lia.
Qed.

Lemma rne_mono (x y : Q) : (x <= y)%Q -> rne x <= rne y.
Proof.
  intros H. pose proof (Qfloor_resp_le x y H) as Hf.
  destruct (Z.eq_dec (Qfloor x) (Qfloor y)) as [E|E].
  - unfold rne. rewrite E.
    assert (Hr : (x - inject_Z (Qfloor y) <= y - inject_Z (Qfloor y))%Q)
      by lra.
    destruct (x - inject_Z (Qfloor y) ?= 1 # 2)%Q eqn:Cx;
    destruct (y - inject_Z (Qfloor y) ?= 1 # 2)%Q eqn:Cy;
    first [apply Qeq_alt in Cx | apply Qlt_alt in Cx | apply Qgt_alt in Cx];
    first [apply Qeq_alt in Cy | apply Qlt_alt in Cy | apply Qgt_alt in Cy];
    try (destruct (Z.even (Qfloor y))); try lia; exfalso; lra.
  - pose proof (rne_bounds x) as [_ B1]. pose proof (rne_bounds y) as [B2 _].
    lia.
Qed.

Lemma nearest_nonneg (q : Q) : (0 <= q)%Q -> (0 <= nearest q)%Q.
Proof.
  intros H. unfold nearest.
  apply Qmult_le_0_compat; [|apply Qlt_le_weak, pow2_pos].
  change 0%Q with (inject_Z 0). rewrite <- Zle_Qle. apply rne_ge.
  change (inject_Z 0) with 0%Q.
  apply Qle_shift_div_l; [apply pow2_pos|]. lra.
Qed.

Lemma exponent_pos (q : Q) :
  (0 < q)%Q -> exponent q = Z.max (ilog2 q - 23) (-149).
Proof. intros H. unfold exponent. rewrite ilog2_abs by exact H. reflexivity. Qed.

(** Rounding keeps the order. *)
Lemma nearest_mono (p q : Q) :
  (0 < p)%Q -> (p <= q)%Q -> (nearest p <= nearest q)%Q.
Proof.
  intros Hp Hpq.
  assert (Hq : (0 < q)%Q) by (eapply Qlt_le_trans; eassumption).
  unfold nearest. rewrite (exponent_pos p Hp), (exponent_pos q Hq).
  pose proof (ilog2_mono p q Hp Hpq) as Hl.
  destruct (ilog2_spec p Hp) as [_ P2]. destruct (ilog2_spec q Hq) as [Q1 _].
  set (e1 := Z.max (ilog2 p - 23) (-149)).
  set (e2 := Z.max (ilog2 q - 23) (-149)).
  assert (He : e1 <= e2) by lia.
  destruct (Z.eq_dec e1 e2) as [E|E].
  - rewrite E. apply Qmult_le_compat_r; [|apply Qlt_le_weak, pow2_pos].
    rewrite <- Zle_Qle. apply rne_mono.
    apply Qmult_le_compat_r; [exact Hpq|].
    apply Qlt_le_weak, Qinv_lt_0_compat, pow2_pos.
  - assert (E2 : e2 = ilog2 q - 23) by lia.
    assert (E1 : ilog2 p - 23 <= e1) by lia.
    apply Qle_trans with (pow2 (e2 + 23)).
    + apply Qle_trans with (inject_Z (2 ^ 24) * pow2 e1)%Q.
      * apply Qmult_le_compat_r; [|apply Qlt_le_weak, pow2_pos].
        rewrite <- Zle_Qle. apply rne_le.
        apply Qle_shift_div_r; [apply pow2_pos|].
        rewrite pow2_Z by lia. rewrite <- pow2_plus.
        apply Qlt_le_weak. eapply Qlt_le_trans; [exact P2|].
        apply pow2_le. lia.
      * rewrite pow2_Z by lia. rewrite <- pow2_plus. apply pow2_le. lia.
    + apply Qle_trans with (inject_Z (2 ^ 23) * pow2 e2)%Q.
      * rewrite pow2_Z by lia. rewrite <- pow2_plus.
        apply pow2_le. lia.
      * apply Qmult_le_compat_r; [|apply Qlt_le_weak, pow2_pos].
        rewrite <- Zle_Qle. apply rne_ge.
        apply Qle_shift_div_l; [apply pow2_pos|].
        rewrite pow2_Z by lia. rewrite <- pow2_plus.
        eapply Qle_trans; [|exact Q1]. apply pow2_le. lia.
Qed.

(** An integer of fewer than 25 binary digits is a [float32]. *)
Lemma nearest_integer (q : Q) (n : Z) :
  (q == inject_Z n)%Q -> Z.abs n < 2 ^ 24 -> (nearest q == inject_Z n)%Q.
Proof.
  intros Hq Hn. destruct (Z.eq_dec n 0) as [->|Hn0].
  - unfold nearest. rewrite (rne_Z _ 0); [ring|].
    unfold Qdiv. transitivity (inject_Z 0 * / pow2 (exponent q))%Q; [|ring].
    apply Qmult_comp; [exact Hq|reflexivity].
  - assert (Habs : (Qabs q == inject_Z (Z.abs n))%Q) by (rewrite Hq; reflexivity).
    assert (Hpos : (0 < inject_Z (Z.abs n))%Q).
    { change 0%Q with (inject_Z 0). rewrite <- Zlt_Qlt. lia. }
    destruct (ilog2_spec _ Hpos) as [S1 S2].
    set (l := ilog2 (inject_Z (Z.abs n))) in *.
    assert (Hl : ilog2 (Qabs q) = l).
    { apply ilog2_unique; rewrite Habs; assumption. }
    assert (Hl23 : l < 24).
    { apply pow2_lt_inv. eapply Qle_lt_trans; [exact S1|].
      rewrite <- pow2_Z by lia. rewrite <- Zlt_Qlt. exact Hn. }
    assert (Hl0 : 0 <= l).
    { assert (0 < l + 1); [|lia]. apply pow2_lt_inv.
      eapply Qle_lt_trans; [|exact S2].
      change (pow2 0) with (inject_Z 1). rewrite <- Zle_Qle. lia. }
    unfold nearest, exponent. rewrite Hl.
    set (e := Z.max (l - 23) (-149)).
    assert (He : e <= 0) by lia.
    assert (Hne : ~ (pow2 e == 0)%Q).
    { intros E. pose proof (pow2_pos e) as P. rewrite E in P.
      apply Qlt_irrefl in P. exact P. }
    assert (Hinv : (pow2 e * inject_Z (2 ^ (- e)) == 1)%Q).
    { rewrite pow2_Z by lia. rewrite <- pow2_plus.
      replace (e + - e) with 0 by lia. reflexivity. }
    assert (Hdiv : (q / pow2 e == inject_Z (n * 2 ^ (- e)))%Q).
    { rewrite Hq, inject_Z_mult. apply Qmult_inj_r with (pow2 e); [exact Hne|].
      unfold Qdiv. rewrite <- !Qmult_assoc.
      rewrite (Qmult_comm (/ pow2 e)), Qmult_inv_r by exact Hne.
      rewrite (Qmult_comm _ (pow2 e)), Hinv. reflexivity. }
    rewrite (rne_Z _ _ Hdiv). rewrite inject_Z_mult, <- Qmult_assoc.
    rewrite (Qmult_comm (inject_Z (2 ^ (- e)))), Hinv. ring.
Qed.

Lemma nearest_Z (n : Z) :
  Z.abs n < 2 ^ 24 -> (nearest (inject_Z n) == inject_Z n)%Q.
Proof. apply nearest_integer. reflexivity. Qed.

Lemma nearest_1 : (nearest 1 == 1)%Q.
Proof. apply (nearest_Z 1). reflexivity. Qed.

(** An integer of fewer than 25 binary digits is rounded to itself. *)
Lemma round_integer (q : Q) (n : Z) :
  (q == inject_Z n)%Q -> Z.abs n < 2 ^ 24 ->
  exists v, round q = Num v /\ (v == inject_Z n)%Q.
Proof.
  intros Hq Hn. pose proof (nearest_integer q n Hq Hn) as Hv.
  exists (nearest q). split; [|exact Hv].
  unfold round.
  assert (Hb : Qle_bool (Qabs (nearest q)) FLT_MAX = true).
  { apply Qle_bool_iff. rewrite Hv.
    change (Qabs (inject_Z n)) with (inject_Z (Z.abs n)).
    change FLT_MAX with (inject_Z 340282346638528859811704183484516925440).
    rewrite <- Zle_Qle. lia. }
  rewrite Hb. reflexivity.
Qed.

Lemma nearest_above_max : (nearest (1 + FLT_MAX) == FLT_MAX)%Q.
Proof. vm_compute. reflexivity. Qed.

Lemma nearest_below_min : (0 < nearest (1 / FLT_MAX))%Q.
Proof. vm_compute. reflexivity. Qed.

Lemma round_num (q v : Q) : round q = Num v -> v = nearest q.
Proof.
  unfold round. destruct (Qle_bool (Qabs (nearest q)) FLT_MAX); [|discriminate].
  intros H. injection H as <-. reflexivity.
Qed.

(** Between two positive bounds whose roundings do not overflow, a number
    rounds to a number between the roundings of the bounds. *)
Lemma round_between (q lo hi : Q) :
  (0 < lo)%Q -> (lo <= q)%Q -> (q <= hi)%Q -> (nearest hi <= FLT_MAX)%Q ->
  round q = Num (nearest q) /\
  (nearest lo <= nearest q)%Q /\ (nearest q <= nearest hi)%Q.
Proof.
  intros Hlo H1 H2 Hmax.
  assert (Hq : (0 < q)%Q) by (eapply Qlt_le_trans; eassumption).
  pose proof (nearest_mono lo q Hlo H1) as M1.
  pose proof (nearest_mono q hi Hq H2) as M2.
  split; [|split; assumption].
  unfold round.
  assert (Hb : Qle_bool (Qabs (nearest q)) FLT_MAX = true).
  { apply Qle_bool_iff. rewrite Qabs_pos.
    - eapply Qle_trans; eassumption.
    - apply nearest_nonneg. apply Qlt_le_weak. exact Hq. }
  rewrite Hb. reflexivity.
Qed.

Lemma lift2_num (op : Q -> Q -> Q) (a b : float32) (v : Q) :
  lift2 op a b = Num v ->
  exists x y, a = Num x /\ b = Num y /\ v = nearest (op x y).
Proof.
  destruct a as [x|], b as [y|]; simpl; try discriminate.
  intros H. apply round_num in H. eauto.
Qed.

End Float32Facts.

(** ** The score *)

Lemma Qinv_le_compat (a b : Q) : (0 < a)%Q -> (a <= b)%Q -> (1 / b <= 1 / a)%Q.
Proof.
  intros Ha Hab.
  assert (Hb : (0 < b)%Q) by (eapply Qlt_le_trans; eassumption).
  apply Qle_shift_div_r; [exact Hb|].
  assert (E : (1 / a * b == b / a)%Q) by (field; lra).
  rewrite E. apply Qle_shift_div_l; [exact Ha|]. lra.
Qed.

(** The two roundings of the score of a distance that the index can
    return. *)
Lemma score_of_unfold (dist : Q) :
  (0 <= dist)%Q -> (dist <= FLT_MAX)%Q ->
  (1 <= Float32.nearest (1 + dist))%Q /\
  (Float32.nearest (1 + dist) <= FLT_MAX)%Q /\
  score_of dist = Float32.nearest (1 / Float32.nearest (1 + dist)) /\
  (0 < score_of dist)%Q /\ (score_of dist <= 1)%Q.
Proof.
  intros H0 H1.
  destruct (round_between (1 + dist) 1 (1 + FLT_MAX))
    as (Hx & Hx1 & Hx2); try lra.
  { rewrite nearest_above_max. apply Qle_refl. }
  rewrite nearest_1 in Hx1. rewrite nearest_above_max in Hx2.
  set (x := Float32.nearest (1 + dist)) in *.
  assert (Hmax : (0 < FLT_MAX)%Q) by reflexivity.
  destruct (round_between (1 / x) (1 / FLT_MAX) 1) as (Hs & Hs1 & Hs2).
  - apply Qlt_shift_div_l; [exact Hmax|]. lra.
  - apply Qinv_le_compat; [lra|exact Hx2].
  - apply Qle_shift_div_r; lra.
  - rewrite nearest_1. discriminate.
  - rewrite nearest_1 in Hs2.
    assert (E : score_of dist = Float32.nearest (1 / x)).
    { unfold score_of. rewrite Hx. fold x. rewrite Hs. reflexivity. }
    rewrite E. repeat split; auto.
    eapply Qlt_le_trans; [apply nearest_below_min|exact Hs1].
Qed.

Lemma score_of_range (dist : Q) :
  (0 <= dist)%Q -> (dist <= FLT_MAX)%Q ->
  (0 < score_of dist)%Q /\ (score_of dist <= 1)%Q.
Proof. intros H0 H1. apply (score_of_unfold dist H0 H1). Qed.

(** The score does not grow with the distance. *)
Lemma score_of_monotone (d1 d2 : Q) :
  (0 <= d1)%Q -> (d1 <= d2)%Q -> (d2 <= FLT_MAX)%Q ->
  (score_of d2 <= score_of d1)%Q.
Proof.
  intros H0 H12 H2.
  destruct (score_of_unfold d1) as (A1 & A2 & -> & _); try lra.
  destruct (score_of_unfold d2) as (B1 & B2 & -> & _); try lra.
  assert (Hx : (Float32.nearest (1 + d1) <= Float32.nearest (1 + d2))%Q).
  { apply nearest_mono; lra. }
  apply nearest_mono.
  - apply Qlt_shift_div_l; lra.
  - apply Qinv_le_compat; [lra|exact Hx].
Qed.

(** On the sample values the rounding, the three operations of the kernel
    and the score are those of IEEE 754 single precision, overflow and
    gradual underflow included. *)
Lemma float32_agrees_with_IEEE : forallb agrees_with_IEEE IEEE_samples = true.
Proof. vm_compute. reflexivity. Qed.

(** A distance that the kernel computes is not negative. *)
Lemma fvec_L2sqr_nonneg (x y : Vector) :
  forall res dist,
    (forall r, res = Float32.Num r -> (0 <= r)%Q) ->
    fvec_L2sqr res x y = Float32.Num dist -> (0 <= dist)%Q.
Proof.
  revert y. induction x as [|a x IH]; intros y res dist Hres H.
  - simpl in H. apply Hres. exact H.
  - destruct y as [|b y]; [simpl in H; apply Hres; exact H|].
    simpl in H. eapply IH; [|exact H].
    intros r Hr. apply lift2_num in Hr.
    destruct Hr as (r0 & t & Hr0 & Ht & ->).
    apply lift2_num in Ht. destruct Ht as (u & u' & Hu & Hu' & ->).
    apply nearest_nonneg.
    assert (Hu2 : u = u') by congruence. subst u'.
    pose proof (Hres r0 Hr0). 
    assert (0 <= Float32.nearest (u * u))%Q.
    { apply nearest_nonneg. 
      destruct (Qlt_le_dec u 0) as [Hn|Hp].
      - assert (E : (u * u == (- u) * (- u))%Q) by ring.
        rewrite E. apply Qmult_le_0_compat; lra.
      - apply Qmult_le_0_compat; lra. }
    lra.
Qed.

Lemma l2_sqr_nonneg (x y : Vector) (dist : Q) :
  l2_sqr x y = Float32.Num dist -> (0 <= dist)%Q.
Proof.
  apply fvec_L2sqr_nonneg. intros r H. injection H as <-. apply Qle_refl.
Qed.

(** ** Search in one document *)

Lemma dist_le_total (a b : Q * Z) : dist_le a b = false -> dist_le b a = true.
Proof.
  unfold dist_le. intros H. apply Qle_bool_iff.
  destruct (Qlt_le_dec b.1 a.1) as [Hlt|Hle]; [apply Qlt_le_weak; exact Hlt|].
  apply Qle_bool_iff in Hle. congruence.
Qed.

Lemma dist_le_trans (a b c : Q * Z) :
  dist_le a b = true -> dist_le b c = true -> dist_le a c = true.
Proof.
  unfold dist_le. rewrite !Qle_bool_iff. apply Qle_trans.
Qed.

Lemma StronglySorted_app {A : Type} (R : A -> A -> Prop) (l1 l2 : list A) :
  StronglySorted R l1 -> StronglySorted R l2 ->
  (forall a b, a ∈ l1 -> b ∈ l2 -> R a b) ->
  StronglySorted R (l1 ++ l2).
Proof.
  intros H1 H2 H12. induction H1 as [|a l1 H1 IH Ha]; simpl; [exact H2|].
  constructor.
  - apply IH. intros x y Hx Hy. apply H12; [right; exact Hx|exact Hy].
  - apply List.Forall_app. split; [exact Ha|].
    apply List.Forall_forall. intros y Hy. apply H12; [left|].
    apply list_elem_of_In. exact Hy.
Qed.

Lemma StronglySorted_app_inv {A : Type} (R : A -> A -> Prop) (l1 l2 : list A) :
  StronglySorted R (l1 ++ l2) -> forall a b, a ∈ l1 -> b ∈ l2 -> R a b.
Proof.
  induction l1 as [|x l1 IH]; simpl; intros Hs a b Ha Hb.
  - inversion Ha.
  - apply StronglySorted_inv in Hs. destruct Hs as [Hs Hx].
    apply elem_of_cons in Ha. destruct Ha as [-> | Ha].
    + rewrite List.Forall_forall in Hx. apply Hx.
      apply list_elem_of_In. apply elem_of_app. right. exact Hb.
    + apply IH; assumption.
Qed.

(** *** The pairs that the index returns *)

Lemma in_reach_Some (c : Float32.float32 * Z) (h : Q * Z) :
  in_reach c = Some h <->
  c.1 = Float32.Num h.1 /\ c.2 = h.2 /\ (h.1 < FLT_MAX)%Q.
Proof.
  unfold in_reach. destruct c as [[x|] l], h as [dist l']; simpl.
  - destruct (Qle_bool FLT_MAX x) eqn:E.
    + split; [discriminate|]. intros (Hx & _ & Hlt). injection Hx as ->.
      apply Qle_bool_iff in E. exfalso. apply (Qlt_not_le _ _ Hlt). exact E.
    + split.
      * intros H. injection H as -> ->. split; [reflexivity|].
        split; [reflexivity|]. apply Qnot_le_lt. intros H.
        apply Qle_bool_iff in H. congruence.
      * intros (Hx & -> & _). injection Hx as ->. reflexivity.
  - split; [discriminate|]. intros (Hx & _). discriminate.
Qed.

Lemma candidates_reachable (index : IndexFlatL2) (q : Vector) (h : Q * Z) :
  h ∈ candidates index q <-> reachable index q h.
Proof.
  unfold candidates, reachable. rewrite list_elem_of_omap. split.
  - intros (c & Hc & Hr). apply elem_of_lookup_imap in Hc.
    destruct Hc as (i & v & -> & Hv).
    apply in_reach_Some in Hr. simpl in Hr. destruct Hr as (H1 & H2 & H3).
    exists i, v. auto.
  - intros (i & v & Hl & Hv & Hd & Hlt).
    exists (l2_sqr q v, Z.of_nat i). split.
    + apply elem_of_lookup_imap. eauto.
    + apply in_reach_Some. simpl. auto.
Qed.

(** The candidates stand in the order of their labels. *)
Lemma candidates_labels_from (q : Vector) (l : list Vector) (n : nat) :
  StronglySorted (fun a b : Q * Z => a.2 < b.2)
    (omap in_reach (imap (fun i v => (l2_sqr q v, Z.of_nat (n + i))) l)) /\
  Forall (fun a : Q * Z => Z.of_nat n <= a.2)
    (omap in_reach (imap (fun i v => (l2_sqr q v, Z.of_nat (n + i))) l)).
Proof.
  revert n. induction l as [|v l IH]; intros n.
  - split; constructor.
  - destruct (IH (S n)) as [Hs Hge]. rewrite imap_cons.
    rewrite (imap_ext _ (fun i v => (l2_sqr q v, Z.of_nat (S n + i))));
      [|intros i x _; simpl; do 2 f_equal; lia].
    set (rest := omap in_reach
                   (imap (fun i v => (l2_sqr q v, Z.of_nat (S n + i))) l)) in *.
    cbn [omap list_omap].
    destruct (in_reach (l2_sqr q v, Z.of_nat (n + 0))) as [h|] eqn:Hh.
    + apply in_reach_Some in Hh. simpl in Hh. destruct Hh as (_ & Hl & _).
      fold rest. split.
      * constructor; [exact Hs|].
        eapply List.Forall_impl; [|exact Hge]. simpl. intros a Ha. lia.
      * constructor; [lia|].
        eapply List.Forall_impl; [|exact Hge]. simpl. intros a Ha. lia.
    + fold rest. split; [exact Hs|].
      eapply List.Forall_impl; [|exact Hge]. simpl. intros a Ha. lia.
Qed.

Lemma candidates_labels (index : IndexFlatL2) (q : Vector) :
  StronglySorted (fun a b : Q * Z => a.2 < b.2) (candidates index q).
Proof. apply (candidates_labels_from q (xb index) 0). Qed.

Lemma before_le (a b : Q * Z) : before a b -> (a.1 <= b.1)%Q.
Proof.
  intros [H|[H _]]; [apply Qlt_le_weak; exact H|].
  rewrite H. apply Qle_refl.
Qed.

Lemma before_intro (a b : Q * Z) : (a.1 <= b.1)%Q -> a.2 < b.2 -> before a b.
Proof.
  intros Hle Hl. apply Qle_lteq in Hle. destruct Hle as [H|H].
  - left. exact H.
  - right. split; [exact H|left; exact Hl].
Qed.

Lemma insert_by_before (x : Q * Z) (l : list (Q * Z)) :
  StronglySorted before l -> Forall (fun y : Q * Z => x.2 < y.2) l ->
  StronglySorted before (insert_by dist_le x l).
Proof.
  induction l as [|y l IH]; intros Hs Hx; simpl.
  - constructor; constructor.
  - apply StronglySorted_inv in Hs. destruct Hs as [Hs Hy].
    apply Forall_cons in Hx. destruct Hx as [Hxy Hx].
    unfold dist_le at 1. destruct (Qle_bool x.1 y.1) eqn:E.
    + apply Qle_bool_iff in E.
      constructor; [constructor; assumption|].
      constructor; [apply before_intro; assumption|].
      rewrite List.Forall_forall in Hy. rewrite Forall_forall in Hx.
      apply List.Forall_forall. intros z Hz.
      apply before_intro; [|apply Hx, list_elem_of_In; exact Hz].
      eapply Qle_trans; [exact E|]. apply before_le. apply Hy. exact Hz.
    + constructor; [apply IH; assumption|].
      apply List.Forall_forall. intros z Hz.
      apply (Permutation_in _ (insert_by_perm dist_le x l)) in Hz.
      destruct Hz as [<-|Hz].
      * left. apply Qnot_le_lt. intros H. apply Qle_bool_iff in H. congruence.
      * rewrite List.Forall_forall in Hy. apply Hy. exact Hz.
Qed.

(** The sort puts the candidates in the order of the index: by distance,
    and by label at equal distance. *)
Lemma sort_by_before (l : list (Q * Z)) :
  StronglySorted (fun a b : Q * Z => a.2 < b.2) l ->
  StronglySorted before (sort_by dist_le l).
Proof.
  induction l as [|x l IH]; intros Hs; [constructor|].
  apply StronglySorted_inv in Hs. destruct Hs as [Hs Hx].
  rewrite sort_by_cons. apply insert_by_before; [apply IH; exact Hs|].
  apply Forall_forall. intros y Hy.
  rewrite (sort_by_perm dist_le l) in Hy.
  rewrite List.Forall_forall in Hx. apply Hx. apply list_elem_of_In. exact Hy.
Qed.

Lemma index_search_unfold (index : IndexFlatL2) (x : Vector) (k : Z) :
  len x = index.(d) -> 0 < k ->
  index_search index x k
  = Ok (take (Z.to_nat k)
          (sort_by dist_le (candidates index x)
           ++ replicate (Z.to_nat k) padding)).
Proof.
  intros Hd Hk. unfold index_search.
  apply Z.eqb_eq in Hd. rewrite Hd. simpl.
  apply Z.ltb_lt in Hk. rewrite Hk. reflexivity.
Qed.

Lemma padded_sorted (index : IndexFlatL2) (x : Vector) (n : nat) :
  StronglySorted before
    (sort_by dist_le (candidates index x) ++ replicate n padding).
Proof.
  apply StronglySorted_app.
  - apply sort_by_before, candidates_labels.
  - induction n as [|n IH]; simpl; constructor; [exact IH|].
    apply List.Forall_forall. intros y Hy. apply list_elem_of_In in Hy.
    apply elem_of_replicate in Hy. destruct Hy as [-> _].
    right. split; [reflexivity|right; reflexivity].
  - intros a b Ha Hb. apply elem_of_replicate in Hb. destruct Hb as [-> _].
    rewrite (sort_by_perm dist_le _) in Ha.
    apply candidates_reachable in Ha.
    destruct Ha as (i & v & _ & _ & _ & Hlt). left. exact Hlt.
Qed.

Lemma padded_reachable (index : IndexFlatL2) (x : Vector) (n m : nat) :
  Forall (fun h => reachable index x h \/ h = padding)
    (take m (sort_by dist_le (candidates index x) ++ replicate n padding)).
Proof.
  apply Forall_forall. intros h Hh.
  apply elem_of_take in Hh. destruct Hh as (i & Hi & _).
  apply list_elem_of_lookup_2 in Hi. apply elem_of_app in Hi.
  destruct Hi as [Hi|Hi].
  - left. rewrite (sort_by_perm dist_le _) in Hi.
    apply candidates_reachable. exact Hi.
  - right. apply elem_of_replicate in Hi. apply Hi.
Qed.

(** A vector that the index could return and did not is behind all that
    it returned. *)
Lemma padded_nearest (index : IndexFlatL2) (x : Vector) (n : nat) (c : Q * Z) :
  reachable index x c ->
  c ∉ take n (sort_by dist_le (candidates index x) ++ replicate n padding) ->
  Forall (fun h => before h c)
    (take n (sort_by dist_le (candidates index x) ++ replicate n padding)).
Proof.
  intros Hc Hout.
  apply candidates_reachable in Hc.
  rewrite <- (sort_by_perm dist_le _) in Hc.
  set (sorted := sort_by dist_le (candidates index x)) in *.
  destruct (Nat.le_gt_cases n (length sorted)) as [Hn|Hn].
  - rewrite take_app_le in Hout |- * by exact Hn.
    rewrite <- (take_drop n sorted) in Hc. apply elem_of_app in Hc.
    destruct Hc as [Hc|Hc]; [contradiction|].
    apply Forall_forall. intros h Hh.
    apply (StronglySorted_app_inv before (take n sorted) (drop n sorted));
      [|exact Hh|exact Hc].
    rewrite take_drop. apply sort_by_before, candidates_labels.
  - exfalso. apply Hout. rewrite take_app.
    apply elem_of_app. left. rewrite take_ge by lia. exact Hc.
Qed.

(** *** The results that [search] builds *)

Lemma getitem_in_range {A : Type} (l : list A) (i : Z) :
  0 <= i < len l -> exists x, getitem l i = Ok x.
Proof.
  intros [H0 H1]. unfold getitem.
  destruct (Z.ltb_spec i 0); [lia|].
  destruct (Z.leb_spec 0 i); [|lia].
  destruct (Z.ltb_spec i (len l)); [|lia]. simpl.
  destruct (l !! Z.to_nat i) eqn:E; [eauto|].
  apply lookup_ge_None in E. unfold len in H1. lia.
Qed.

Lemma getitem_nat {A : Type} (l : list A) (i : nat) (x : A) :
  l !! i = Some x -> getitem l (Z.of_nat i) = Ok x.
Proof.
  intros Hx. pose proof (lookup_lt_Some _ _ _ Hx) as Hi. unfold getitem.
  destruct (Z.ltb_spec (Z.of_nat i) 0); [lia|].
  destruct (Z.leb_spec 0 (Z.of_nat i)); [|lia].
  destruct (Z.ltb_spec (Z.of_nat i) (len l)); [|unfold len in *; lia]. simpl.
  rewrite Nat2Z.id, Hx. reflexivity.
Qed.

(** [l[-1]] is the last element. *)
Lemma getitem_last {A : Type} (l : list A) (x : A) :
  last l = Some x -> getitem l (-1) = Ok x.
Proof.
  intros Hx. rewrite last_lookup in Hx.
  pose proof (lookup_lt_Some _ _ _ Hx) as Hi. unfold getitem.
  change (-1 <? 0) with true. cbv iota.
  destruct (Z.leb_spec 0 (-1 + len l)); [|unfold len in *; lia].
  destruct (Z.ltb_spec (-1 + len l) (len l)); [|lia]. simpl.
  replace (Z.to_nat (-1 + len l)) with (pred (length l))
    by (unfold len; lia).
  rewrite Hx. reflexivity.
Qed.

Lemma build_results_shown (doc : string) (index : IndexFlatL2)
    (chunks : list ChunkMetadata) (q : Vector) (hits : list (Q * Z)) :
  length index.(xb) = length chunks -> chunks <> [] ->
  Forall (fun h => reachable index q h \/ h = padding) hits ->
  forall acc, exists rs,
    build_results doc chunks hits acc = Ok (acc ++ rs) /\
    Forall2 (shown doc index chunks q) hits rs.
Proof.
  intros Hlen Hne. induction hits as [|[dist idx] rest IH]; intros Hr acc.
  - exists []. rewrite app_nil_r. split; [reflexivity|constructor].
  - apply Forall_cons in Hr. destruct Hr as [Hh Hr].
    assert (Hc : exists chunk,
               (idx <? len chunks) = true /\ getitem chunks idx = Ok chunk /\
               shown doc index chunks q (dist, idx) (result_of doc chunk dist)).
    { destruct Hh as [Hh|Hh].
      - pose proof Hh as (i & v & Hl & Hv & _). simpl in Hl. subst idx.
        apply lookup_lt_Some in Hv. rewrite Hlen in Hv.
        destruct (lookup_lt_is_Some_2 chunks i Hv) as [chunk Hchunk].
        exists chunk. split; [apply Z.ltb_lt; unfold len; lia|].
        split; [apply getitem_nat; exact Hchunk|].
        left. split; [exact Hh|]. exists chunk. simpl.
        rewrite Nat2Z.id. auto.
      - injection Hh as -> ->.
        destruct (last chunks) as [chunk|] eqn:Hlast;
          [|apply last_None in Hlast; contradiction].
        exists chunk. split; [apply Z.ltb_lt; pose proof (len_nonneg chunks); lia|].
        split; [apply getitem_last; exact Hlast|].
        right. split; [reflexivity|]. exists chunk. auto. }
    destruct Hc as (chunk & Hlt & Hget & Hshown).
    simpl. rewrite Hlt, Hget.
    destruct (IH Hr (acc ++ [result_of doc chunk dist])) as (rs & Hrun & Hrs).
    exists (result_of doc chunk dist :: rs). split.
    + rewrite Hrun. rewrite <- app_assoc. reflexivity.
    + constructor; assumption.
Qed.

Lemma build_results_length (doc : string) (chunks : list ChunkMetadata)
    (hits : list (Q * Z)) :
  forall acc out,
    build_results doc chunks hits acc = Ok out ->
    (length out <= length acc + length hits)%nat.
Proof.
  induction hits as [|[dist idx] rest IH]; intros acc out Hrun; simpl in *.
  - inversion Hrun. lia.
  - destruct (idx <? len chunks).
    + destruct (getitem chunks idx) as [chunk|e]; [|discriminate].
      apply IH in Hrun. rewrite length_app in Hrun. simpl in Hrun. lia.
    + apply IH in Hrun. lia.
Qed.

Lemma index_search_length (index : IndexFlatL2) (x : Vector) (k : Z)
    (hits : list (Q * Z)) :
  index_search index x k = Ok hits -> 0 < k /\ length hits = Z.to_nat k.
Proof.
  unfold index_search. destruct (len x =? d index); simpl; [|discriminate].
  destruct (Z.ltb_spec 0 k); simpl; [|discriminate].
  intros Hh. inversion Hh. split; [assumption|].
  rewrite length_take, length_app, length_replicate. lia.
Qed.

Lemma search_entry_length (doc : string) (e : result entry) (q : Vector) (k : Z)
    (results : list SearchResult) :
  search_entry doc e q k = Ok results -> len results <= k.
Proof.
  unfold search_entry. destruct e as [[[index chunks] md]|err]; [|discriminate].
  destruct (index_search index q (Z.min k (len chunks))) as [hits|err] eqn:Hi;
    [|discriminate].
  intros Hb. apply build_results_length in Hb.
  apply index_search_length in Hi. destruct Hi as [Hk Hl].
  simpl in Hb. unfold len. lia.
Qed.

Lemma search_unfold (self : VectorStoreService) (doc : string) (q : Vector) (k : Z) :
  search self doc q k
  = ((_load_document self doc).1, search_entry doc (lookup_entry self doc) q k).
Proof.
  unfold search, search_entry, lookup_entry.
  destruct (_load_document self doc) as [self' [[[index chunks] md]|err]]; simpl;
    [|reflexivity].
  destruct (index_search index q (Z.min k (len chunks))); reflexivity.
Qed.

Lemma shown_result (doc : string) (index : IndexFlatL2)
    (chunks : list ChunkMetadata) (q : Vector) (h : Q * Z) (r : SearchResult) :
  shown doc index chunks q h r ->
  (exists chunk, r = result_of doc chunk h.1) /\
  (0 <= h.1)%Q /\ (h.1 <= FLT_MAX)%Q.
Proof.
  intros [[Hr (chunk & _ & ->)]|[-> (chunk & _ & ->)]].
  - split; [eauto|]. destruct Hr as (i & v & _ & _ & Hd & Hlt).
    split; [eapply l2_sqr_nonneg; exact Hd|apply Qlt_le_weak; exact Hlt].
  - split; [eauto|]. split; [discriminate|apply Qle_refl].
Qed.

Lemma results_sorted (doc : string) (index : IndexFlatL2)
    (chunks : list ChunkMetadata) (q : Vector)
    (hits : list (Q * Z)) (rs : list SearchResult) :
  Forall2 (shown doc index chunks q) hits rs ->
  StronglySorted before hits ->
  by_distance rs /\ by_score rs /\
  Forall (fun r => r.(score) = score_of r.(metadata).(distance) /\
                   (0 <= r.(metadata).(distance))%Q /\
                   (r.(metadata).(distance) <= FLT_MAX)%Q /\
                   (0 < r.(score))%Q /\ (r.(score) <= 1)%Q) rs.
Proof.
  intros HF. induction HF as [|h r hits rs Hhr HF IH]; intros Hs.
  - repeat split; constructor.
  - apply StronglySorted_inv in Hs. destruct Hs as [Hs Hhd].
    destruct (IH Hs) as (Hd & Hsc & Hall).
    destruct (shown_result _ _ _ _ _ _ Hhr) as ([chunk ->] & Hh0 & Hh1).
    assert (Hrel : Forall (fun r => (h.1 <= r.(metadata).(distance))%Q) rs).
    { clear -HF Hhd. induction HF as [|h' r' hits rs Hhr' HF IH];
        constructor.
      - apply List.Forall_inv in Hhd. apply before_le in Hhd.
        destruct (shown_result _ _ _ _ _ _ Hhr') as ([chunk' ->] & _).
        exact Hhd.
      - apply IH. apply List.Forall_inv_tail in Hhd. exact Hhd. }
    split; [|split].
    + constructor; [exact Hd|].
      apply List.Forall_forall. intros r Hr.
      rewrite Forall_forall in Hrel. apply Hrel. apply list_elem_of_In. exact Hr.
    + constructor; [exact Hsc|].
      apply List.Forall_forall. intros r Hr. simpl.
      rewrite Forall_forall in Hrel, Hall.
      apply list_elem_of_In in Hr.
      destruct (Hall r Hr) as (-> & _ & Hmax & _).
      apply score_of_monotone; auto.
    + constructor; [|exact Hall]. simpl.
      destruct (score_of_range h.1 Hh0 Hh1). auto.
Qed.

(** The entry that a successful [store_document] leaves for the document
    is well formed. *)
Lemma store_document_well_formed (self self' : VectorStoreService) (doc : string)
    (chunks : list ChunkMetadata) (embeddings : list Vector)
    (md : option Dict) (fault : write_fault) :
  store_document self doc chunks embeddings md fault = (self', Ok tt) ->
  exists e, lookup_entry self' doc = Ok e /\ well_formed e /\ e.1.2 = chunks.
Proof.
  unfold store_document.
  destruct (Z.eqb_spec (len chunks) (len embeddings)) as [Hl|Hl]; simpl;
    [|discriminate].
  destruct embeddings as [|v rest]; [discriminate|].
  unfold np_array_shape1.
  match goal with |- context [forallb ?f ?l] => destruct (forallb f l) end;
    [|discriminate].
  destruct fault; simpl; try discriminate.
  intros H. inversion H. subst self'. clear H.
  eexists. unfold lookup_entry, _load_document. simpl.
  rewrite lookup_insert_eq. simpl. split; [reflexivity|]. split; [|reflexivity].
  unfold well_formed. simpl. unfold len in Hl. simpl in Hl. split; [lia|].
  destruct chunks; [simpl in Hl; lia|discriminate].
Qed.

(** *** The distance of vectors of integers *)

Lemma fvec_L2sqr_integers (x y : list Z) :
  forall (r : Q) (n : Z),
    (r == inject_Z n)%Q -> 0 <= n ->
    exact x -> exact y ->
    n + squared_distance x y < 2 ^ 24 ->
    exists dist,
      fvec_L2sqr (Float32.Num r) (of_integers x) (of_integers y)
      = Float32.Num dist /\
      (dist == inject_Z (n + squared_distance x y))%Q.
Proof.
  revert y. induction x as [|a x IH]; intros y r n Hr Hn Hx Hy Hsum.
  - exists r. split; [reflexivity|]. simpl. rewrite Z.add_0_r. exact Hr.
  - destruct y as [|b y].
    + exists r. split; [reflexivity|]. simpl. rewrite Z.add_0_r. exact Hr.
    + apply Forall_cons in Hx. destruct Hx as [Ha Hx].
      apply Forall_cons in Hy. destruct Hy as [Hb Hy].
      cbn [squared_distance] in Hsum |- *.
      assert (Hrest : 0 <= squared_distance x y).
      { clear. revert y. induction x as [|a x IH]; intros [|b y];
          cbn [squared_distance]; try lia.
        specialize (IH y). pose proof (Z.square_nonneg (a - b)). lia. }
      set (t := a - b) in *.
      assert (Ht2 : 0 <= t * t) by apply Z.square_nonneg.
      assert (Ht : Z.abs t <= t * t) by nia.
      destruct (round_integer (inject_Z a) a) as (ra & Hra & Era);
        [reflexivity|exact Ha|].
      destruct (round_integer (inject_Z b) b) as (rb & Hrb & Erb);
        [reflexivity|exact Hb|].
      destruct (round_integer (ra - rb) t) as (rt & Hrt & Ert).
      { rewrite Era, Erb. unfold t, Z.sub.
        rewrite inject_Z_plus, inject_Z_opp. reflexivity. }
      { lia. }
      destruct (round_integer (rt * rt) (t * t)) as (rs & Hrs & Ers).
      { rewrite Ert, inject_Z_mult. reflexivity. }
      { lia. }
      destruct (round_integer (r + rs) (n + t * t)) as (rn & Hrn & Ern).
      { rewrite Hr, Ers, inject_Z_plus. reflexivity. }
      { lia. }
      destruct (IH y rn (n + t * t) Ern ltac:(lia) Hx Hy ltac:(lia))
        as (dist & Hrun & Hdist).
      exists dist. split.
      * cbn [of_integers map fvec_L2sqr].
        unfold Float32.sub, Float32.mul, Float32.add.
        rewrite Hra, Hrb. cbn [Float32.lift2]. rewrite Hrt.
        cbn [Float32.lift2]. rewrite Hrs. cbn [Float32.lift2]. rewrite Hrn.
        exact Hrun.
      * rewrite Hdist. rewrite Z.add_assoc. reflexivity.
Qed.

(** On vectors of small integers the distance of the index is the
    squared Euclidean distance, in whatever order the squares are
    summed. *)
Lemma l2_sqr_integers (x y : list Z) :
  exact x -> exact y -> squared_distance x y < 2 ^ 24 ->
  exists dist,
    l2_sqr (of_integers x) (of_integers y) = Float32.Num dist /\
    (dist == inject_Z (squared_distance x y))%Q.
Proof.
  intros Hx Hy Hs.
  destruct (fvec_L2sqr_integers x y 0%Q 0) as (dist & Hrun & Hdist);
    try assumption; try reflexivity; try lia.
  exists dist. split; [exact Hrun|exact Hdist].
Qed.

(** *** How far the score is from [1 / (1 + distance)] *)

Section Accuracy.

Import Float32.

Lemma rne_error (x : Q) :
  (- (1 # 2) <= inject_Z (rne x) - x)%Q /\ (inject_Z (rne x) - x <= 1 # 2)%Q.
Proof.
  pose proof (Qfloor_le x) as H1. pose proof (Qlt_floor x) as H2.
  rewrite inject_Z_plus in H2. change (inject_Z 1) with 1%Q in H2.
  unfold rne.
  destruct (x - inject_Z (Qfloor x) ?= 1 # 2)%Q eqn:C;
    first [apply Qeq_alt in C | apply Qlt_alt in C | apply Qgt_alt in C].
  - destruct (Z.even (Qfloor x)).
    + split; lra.
    + rewrite inject_Z_plus. change (inject_Z 1) with 1%Q. split; lra.
  - split; lra.
  - rewrite inject_Z_plus. change (inject_Z 1) with 1%Q. split; lra.
Qed.

(** Rounding moves a number by half a unit of its last place at most. *)
Lemma nearest_error (q : Q) :
  (- ((1 # 2) * pow2 (exponent q)) <= nearest q - q)%Q /\
  (nearest q - q <= (1 # 2) * pow2 (exponent q))%Q.
Proof.
  unfold nearest. set (p := pow2 (exponent q)).
  assert (Hp : (0 < p)%Q) by apply pow2_pos.
  destruct (rne_error (q / p)) as [E1 E2].
  set (r := inject_Z (rne (q / p))) in *.
  assert (Hq : (q == q / p * p)%Q) by (field; lra).
  assert (H1 : (- (1 # 2) * p <= (r - q / p) * p)%Q)
    by (apply Qmult_le_compat_r; lra).
  assert (H2 : ((r - q / p) * p <= (1 # 2) * p)%Q)
    by (apply Qmult_le_compat_r; lra).
  assert (E : ((r - q / p) * p == r * p - q)%Q).
  { rewrite Hq at 2. ring. }
  rewrite E in H1, H2. split; lra.
Qed.

(** The unit of the last place of a positive number. *)
Lemma ulp_bound (q : Q) :
  (0 < q)%Q -> (pow2 (exponent q) <= q * pow2 (-23) + pow2 (-149))%Q.
Proof.
  intros Hq. rewrite (exponent_pos q Hq).
  destruct (ilog2_spec q Hq) as [S1 _].
  pose proof (pow2_pos (-23)) as P23. pose proof (pow2_pos (-149)) as P149.
  assert (Hm : (0 <= q * pow2 (-23))%Q) by (apply Qmult_le_0_compat; lra).
  destruct (Z.max_spec (ilog2 q - 23) (-149)) as [[_ ->]|[_ ->]].
  - lra.
  - replace (ilog2 q - 23) with (ilog2 q + -23) by lia. rewrite pow2_plus.
    assert ((pow2 (ilog2 q) * pow2 (-23) <= q * pow2 (-23))%Q)
      by (apply Qmult_le_compat_r; lra).
    lra.
Qed.

Lemma ulp_bound_normal (q : Q) :
  (1 <= q)%Q -> (pow2 (exponent q) <= q * pow2 (-23))%Q.
Proof.
  intros Hq. assert (H0 : (0 < q)%Q) by lra.
  rewrite (exponent_pos q H0).
  destruct (ilog2_spec q H0) as [S1 S2].
  assert (Hl : 0 <= ilog2 q).
  { assert (0 < ilog2 q + 1); [|lia]. apply pow2_lt_inv.
    eapply Qle_lt_trans; [|exact S2]. exact Hq. }
  rewrite Z.max_l by lia.
  replace (ilog2 q - 23) with (ilog2 q + -23) by lia. rewrite pow2_plus.
  apply Qmult_le_compat_r; [exact S1|]. apply Qlt_le_weak, pow2_pos.
Qed.

End Accuracy.

(** The score is [1 / (1 + distance)] up to four units of the 24th
    binary digit and the smallest [float32]. *)
Lemma score_of_accuracy (dist : Q) :
  (0 <= dist)%Q -> (dist <= FLT_MAX)%Q ->
  (Qabs (score_of dist - 1 / (1 + dist))
   <= (1 # 4194304) * (1 / (1 + dist)) + Float32.pow2 (-150))%Q.
Proof.
  intros H0 H1.
  destruct (score_of_unfold dist H0 H1) as (Hx1 & Hx2 & -> & _ & _).
  set (q := (1 + dist)%Q) in *.
  set (x := Float32.nearest q) in *.
  assert (Hq : (1 <= q)%Q) by (unfold q; lra).
  destruct (nearest_error q) as [A1 A2]. fold x in A1, A2.
  pose proof (ulp_bound_normal q Hq) as U1.
  assert (Hix : (0 < 1 / x)%Q) by (apply Qlt_shift_div_l; lra).
  destruct (nearest_error (1 / x)) as [B1 B2].
  pose proof (ulp_bound (1 / x) Hix) as U2.
  set (s := Float32.nearest (1 / x)) in *.
  set (p1 := Float32.pow2 (Float32.exponent q)) in *.
  set (p2 := Float32.pow2 (Float32.exponent (1 / x))) in *.
  change (Float32.pow2 (-23)) with (1 # 8388608)%Q in U1, U2.
  change (Float32.pow2 (-149))
    with (1 # 713623846352979940529142984724747568191373312)%Q in U2.
  change (Float32.pow2 (-150))
    with (1 # 1427247692705959881058285969449495136382746624)%Q.
  set (ix := (1 / x)%Q) in *. set (iq := (1 / q)%Q).
  assert (Hiq : (iq * q == 1)%Q) by (unfold iq; field; lra).
  assert (Hixx : (ix * x == 1)%Q) by (unfold ix; field; lra).
  assert (Hiq0 : (0 < iq)%Q) by (unfold iq; apply Qlt_shift_div_l; lra).
  (* x is at least half of q, so 1 / x is at most 2 / q *)
  assert (Hhalf : (q * (1 # 2) <= x)%Q) by lra.
  assert (Hix2 : (ix <= 2 * iq)%Q).
  { assert (Hd : (ix - 2 * iq == (q * (1 # 2) - x) * (2 * ix * iq))%Q).
    { transitivity (ix * (iq * q) - 2 * iq * (ix * x))%Q;
      [rewrite Hiq, Hixx; ring|ring]. }
    assert (Hn : ((q * (1 # 2) - x) * (2 * ix * iq) <= 0)%Q).
    { apply Qle_trans with (0 * (2 * ix * iq))%Q; [|lra].
      apply Qmult_le_compat_r; [lra|].
      apply Qmult_le_0_compat; lra. }
    lra. }
  (* 1 / x differs from 1 / q by u / x at most *)
  assert (Hd : (ix - iq == (q - x) * (ix * iq))%Q).
  { transitivity (ix * (iq * q) - iq * (ix * x))%Q;
      [rewrite Hiq, Hixx; ring|ring]. }
  assert (Hm : (0 <= ix * iq)%Q) by (apply Qmult_le_0_compat; lra).
  assert (Hup : ((q - x) * (ix * iq) <= q * (1 # 16777216) * (ix * iq))%Q)
    by (apply Qmult_le_compat_r; lra).
  assert (Hlo : (- (q * (1 # 16777216)) * (ix * iq) <= (q - x) * (ix * iq))%Q)
    by (apply Qmult_le_compat_r; lra).
  assert (Hc : (q * (1 # 16777216) * (ix * iq) == (1 # 16777216) * ix)%Q).
  { transitivity ((1 # 16777216) * ix * (iq * q))%Q; [ring|].
    rewrite Hiq. ring. }
  assert (Hc' : (- (q * (1 # 16777216)) * (ix * iq) == - ((1 # 16777216) * ix))%Q).
  { transitivity (- ((1 # 16777216) * ix * (iq * q)))%Q; [ring|].
    rewrite Hiq. ring. }
  rewrite Hc in Hup. rewrite Hc' in Hlo. rewrite <- Hd in Hup, Hlo.
  apply Qabs_Qle_condition. fold q. fold iq. split; lra.
Qed.




(** ** Search across documents *)

Lemma load_preserves_lookup (self : VectorStoreService) (doc doc' : string) :
  lookup_entry (_load_document self doc).1 doc' = lookup_entry self doc'.
Proof.
  unfold lookup_entry, _load_document.
  destruct (_cache self !! doc) as [e|] eqn:Hc; simpl; [reflexivity|].
  destruct (disk self !! doc) as [[e|]|] eqn:Hd; simpl; try reflexivity.
  destruct (decide (doc = doc')) as [<-|Hne].
  - rewrite lookup_insert_eq, Hc, Hd. reflexivity.
  - rewrite lookup_insert_ne by exact Hne.
    destruct (_cache self !! doc'); [reflexivity|].
    destruct (disk self !! doc') as [[e'|]|]; reflexivity.
Qed.

Lemma per_document_unfold (self : VectorStoreService) (q : Vector) (k : Z)
    (doc : string) :
  per_document self q k doc
  = match search_entry doc (lookup_entry self doc) q k with
    | Ok results => results
    | Raise _ => []
    end.
Proof. unfold per_document. rewrite search_unfold. reflexivity. Qed.

Lemma pool_after_search (self : VectorStoreService) (doc : string) (q q' : Vector)
    (k k' : Z) (doc_ids : list string) :
  pool (search self doc q k).1 doc_ids q' k' = pool self doc_ids q' k'.
Proof.
  unfold pool. f_equal. apply map_ext. intros doc'.
  rewrite !per_document_unfold, search_unfold. simpl.
  rewrite load_preserves_lookup. reflexivity.
Qed.

Lemma pool_cons (self : VectorStoreService) (doc : string) (rest : list string)
    (q : Vector) (k : Z) :
  pool self (doc :: rest) q k = per_document self q k doc ++ pool self rest q k.
Proof. reflexivity. Qed.

Lemma search_loop_pool (doc_ids : list string) (q : Vector) (k : Z) :
  forall self acc,
    (search_loop self doc_ids q k acc).2 = acc ++ pool self doc_ids q k.
Proof.
  induction doc_ids as [|doc rest IH]; intros self acc.
  - unfold pool. simpl. rewrite app_nil_r. reflexivity.
  - pose proof (pool_after_search self doc q q k k rest) as Hp.
    rewrite pool_cons. cbn [search_loop]. unfold per_document.
    destruct (search self doc q k) as [self' [results|e]]; cbn [fst snd] in *.
    + rewrite IH, Hp, <- app_assoc. reflexivity.
    + rewrite IH, Hp. reflexivity.
Qed.

Lemma search_multi_documents_pool (self : VectorStoreService)
    (doc_ids : list string) (q : Vector) (k m : Z) :
  (search_multi_documents self doc_ids q k m).2
  = slice (sort_by score_ge (pool self doc_ids q k)) 0 m.
Proof.
  unfold search_multi_documents.
  pose proof (search_loop_pool doc_ids q k self []) as H.
  destruct (search_loop self doc_ids q k []) as [self' all_results].
  simpl in *. rewrite H. reflexivity.
Qed.

Lemma score_ge_total (x y : SearchResult) :
  score_ge x y = false -> score_ge y x = true.
Proof.
  unfold score_ge. intros H. apply Qle_bool_iff.
  destruct (Qlt_le_dec (score x) (score y)) as [Hlt|Hle];
    [|apply Qle_bool_iff in Hle; congruence].
  apply Qlt_le_weak. exact Hlt.
Qed.

Lemma score_ge_trans (x y z : SearchResult) :
  score_ge x y = true -> score_ge y z = true -> score_ge x z = true.
Proof.
  unfold score_ge. rewrite !Qle_bool_iff. intros H1 H2.
  eapply Qle_trans; eauto.
Qed.

Lemma same_score_ties (s : Q) (x y : SearchResult) :
  same_score s x = true -> same_score s y = true -> score_ge x y = true.
Proof.
  unfold same_score, score_ge. rewrite !Qeq_bool_iff, Qle_bool_iff.
  intros Hx Hy. rewrite Hx, Hy. apply Qle_refl.
Qed.

Lemma sort_by_score (l : list SearchResult) : by_score (sort_by score_ge l).
Proof.
  eapply StronglySorted_weaken;
    [|apply (sort_by_sorted score_ge score_ge_total score_ge_trans)].
  intros x y Hxy. apply Qle_bool_iff. exact Hxy.
Qed.

Lemma pool_app (self : VectorStoreService) (l1 l2 : list string) (q : Vector) (k : Z) :
  pool self (l1 ++ l2) q k = pool self l1 q k ++ pool self l2 q k.
Proof. unfold pool. rewrite map_app, concat_app. reflexivity. Qed.

(** C3, the claim at a concrete store: documents ["A"] (two chunks) and
    ["B"] (one chunk) all at the same distance from the query.  The second
    result of ["A"], of rank one, stands before the first result of ["B"],
    of rank zero, with the same score. *)
Lemma ties_follow_document_order :
  exists x y,
    (search_multi_documents sample_store ["A"; "B"] [0%Q] 2 10).2 !! 1%nat = Some x /\
    (search_multi_documents sample_store ["A"; "B"] [0%Q] 2 10).2 !! 2%nat = Some y /\
    Qeq_bool x.(score) y.(score) = true /\
    rank_in sample_store [0%Q] 2 x = 1%nat /\
    rank_in sample_store [0%Q] 2 y = 0%nat.
Proof.
  eexists. eexists.
  split; [vm_compute; reflexivity|].
  split; [vm_compute; reflexivity|].
  split; [reflexivity|]. split; vm_compute; reflexivity.
Qed.

(** C3, as the code has it.  [search_multi_documents] returns the first
    [max_total_results] elements of the pool of results sorted by score
    from high to low: the returned list is in the order of non-increasing
    score, and results of equal score keep the order of the pool, which is
    the order of [doc_ids] and, within a document, the rank. *)
Theorem search_multi_order (self : VectorStoreService) (doc_ids : list string)
    (q : Vector) (k m : Z) :
  (search_multi_documents self doc_ids q k m).2
    = slice (sort_by score_ge (pool self doc_ids q k)) 0 m /\
  (exists n, (search_multi_documents self doc_ids q k m).2
             = take n (sort_by score_ge (pool self doc_ids q k))) /\
  by_score (search_multi_documents self doc_ids q k m).2 /\
  Permutation (sort_by score_ge (pool self doc_ids q k)) (pool self doc_ids q k) /\
  (forall s, List.filter (same_score s) (sort_by score_ge (pool self doc_ids q k))
             = List.filter (same_score s) (pool self doc_ids q k)).
Proof.
  rewrite search_multi_documents_pool, slice_from_0.
  split; [reflexivity|]. split; [eexists; reflexivity|].
  split; [apply StronglySorted_take, sort_by_score|].
  split; [apply sort_by_perm|].
  intros s. apply sort_by_stable. apply same_score_ties.
Qed.

(** C6. [search_multi_documents] always returns a list.  A document whose
    [search] raises adds nothing: the call returns what it returns
    without that document, at most [max_total_results] results, taken from
    the documents that can be searched.  In particular, when ["B"] is
    neither cached nor on disk, searching ["A"] and ["B"] with three
    results per document and four in all returns the results of ["A"],
    best first, at most three. *)
Theorem search_multi_skips_failures (self : VectorStoreService) (q : Vector) :
  (forall (l1 l2 : list string) (doc : string) (k m : Z) (e : exn),
     (search self doc q k).2 = Raise e ->
     0 <= m ->
     (search_multi_documents self (l1 ++ doc :: l2) q k m).2
       = (search_multi_documents self (l1 ++ l2) q k m).2 /\
     (search_multi_documents self (l1 ++ doc :: l2) q k m).2
       = slice (sort_by score_ge (pool self (l1 ++ l2) q k)) 0 m /\
     len (search_multi_documents self (l1 ++ doc :: l2) q k m).2 <= m) /\
  (forall rA : list SearchResult,
     self.(_cache) !! "B" = None ->
     self.(disk) !! "B" = None ->
     (search self "A" q 3).2 = Ok rA ->
     (search_multi_documents self ["A"; "B"] q 3 4).2 = sort_by score_ge rA /\
     Permutation (search_multi_documents self ["A"; "B"] q 3 4).2 rA /\
     len (search_multi_documents self ["A"; "B"] q 3 4).2 <= 3 /\
     (by_score rA -> (search_multi_documents self ["A"; "B"] q 3 4).2 = rA)).
Proof.
  assert (Hskip : forall l1 l2 doc k e,
             (search self doc q k).2 = Raise e ->
             pool self (l1 ++ doc :: l2) q k = pool self (l1 ++ l2) q k).
  { intros l1 l2 doc k e He. rewrite !pool_app. f_equal.
    unfold pool. simpl. unfold per_document at 1. rewrite He. reflexivity. }
  split.
  - intros l1 l2 doc k m e He Hm.
    rewrite !search_multi_documents_pool, (Hskip l1 l2 doc k e He).
    split; [reflexivity|]. split; [reflexivity|].
    apply slice_from_0_length. exact Hm.
  - intros rA HcB HdB HA.
    assert (HB : (search self "B" q 3).2 = Raise FileNotFoundError).
    { rewrite search_unfold. simpl. unfold lookup_entry, _load_document.
      rewrite HcB, HdB. reflexivity. }
    assert (Hpool : pool self ["A"; "B"] q 3 = rA).
    { pose proof (Hskip ["A"] [] "B" 3 _ HB) as Hp. cbn [app] in Hp.
      rewrite Hp, pool_cons. unfold per_document at 1. rewrite HA.
      apply app_nil_r. }
    assert (HlenA : len rA <= 3).
    { rewrite search_unfold in HA. simpl in HA.
      apply search_entry_length in HA. exact HA. }
    assert (Hres : (search_multi_documents self ["A"; "B"] q 3 4).2
                   = sort_by score_ge rA).
    { rewrite search_multi_documents_pool, Hpool. apply slice_from_0_all.
      unfold len in *.
      rewrite (Permutation_length (sort_by_perm score_ge rA)). lia. }
    rewrite Hres. split; [reflexivity|].
    split; [apply sort_by_perm|].
    split.
    + unfold len in *.
      rewrite (Permutation_length (sort_by_perm score_ge rA)). exact HlenA.
    + intros Hs. apply sort_by_fixes_sorted.
      eapply StronglySorted_weaken; [|exact Hs].
      intros x y Hxy. apply Qle_bool_iff. exact Hxy.
Qed.

Lemma search_multi_skips_failures_witness :
  (search_multi_documents sample_store_A ["A"; "B"] [0%Q] 3 4).2
    = sort_by score_ge (per_document sample_store_A [0%Q] 3 "A") /\
  Permutation (search_multi_documents sample_store_A ["A"; "B"] [0%Q] 3 4).2
    (per_document sample_store_A [0%Q] 3 "A") /\
  len (search_multi_documents sample_store_A ["A"; "B"] [0%Q] 3 4).2 <= 3 /\
  (by_score (per_document sample_store_A [0%Q] 3 "A") ->
   (search_multi_documents sample_store_A ["A"; "B"] [0%Q] 3 4).2
     = per_document sample_store_A [0%Q] 3 "A").
Proof.
  apply (proj2 (search_multi_skips_failures sample_store_A [0%Q])
           (per_document sample_store_A [0%Q] 3 "A"));
    vm_compute; reflexivity.
Defined.

(** ** Failure of [store_document] *)

(** C4, the claim at a concrete call: storing document ["A"] in the empty
    store while the file cannot be opened raises, and afterwards the cache
    holds an entry for ["A"]; while the dump is interrupted, the cache
    holds the entry and the disk holds a truncated file. *)
Lemma failed_write_changes_store :
  exists st1 st2 e1 e2,
    store_document init "A" sample_chunks_A sample_vectors_A None OpenFails
      = (st1, Raise e1) /\
    store_document init "A" sample_chunks_A sample_vectors_A None DumpFails
      = (st2, Raise e2) /\
    document_exists init "A" = false /\
    document_exists st1 "A" = true /\
    is_Some (st1.(_cache) !! "A") /\
    is_Some (st2.(_cache) !! "A") /\
    st2.(disk) !! "A" = Some Truncated.
Proof.
  eexists. eexists. eexists. eexists.
  split; [reflexivity|]. split; [reflexivity|].
  split; [reflexivity|]. split; [vm_compute; reflexivity|].
  split; [vm_compute; eauto|]. split; vm_compute; eauto.
Qed.

(** C4, as the code has it.  A call with no chunks or with different
    numbers of chunks and vectors raises and leaves the store as it was.
    Whenever [store_document] raises, either the arguments were rejected
    (count mismatch, or embeddings that are empty or ragged) and the store
    is unchanged, or the write to disk failed: then the cache already
    holds the complete new entry of the document, and its file is
    untouched (the open failed) or truncated (the dump failed). *)
Theorem store_document_failure (self : VectorStoreService) (doc : string)
    (chunks : list ChunkMetadata) (embeddings : list Vector)
    (md : option Dict) (fault : write_fault) :
  (chunks = [] \/ len chunks <> len embeddings ->
   exists e, store_document self doc chunks embeddings md fault = (self, Raise e)) /\
  (forall self' e,
     store_document self doc chunks embeddings md fault = (self', Raise e) ->
     (self' = self /\
      ((len chunks <> len embeddings /\ e = ValueError) \/
       np_array_shape1 embeddings = Raise e)) \/
     (exists index,
        np_array_shape1 embeddings = Ok (index.(d), index.(xb)) /\
        len chunks = len embeddings /\
        self'.(_cache)
          = <[doc := (index, chunks, Some (or_dict md))]> self.(_cache) /\
        ((fault = OpenFails /\ e = OSError /\ self'.(disk) = self.(disk)) \/
         (fault = DumpFails /\ e = PicklingError /\
          self'.(disk) = <[doc := Truncated]> self.(disk))))).
Proof.
  split.
  - intros Hbad. unfold store_document.
    destruct (Z.eqb_spec (len chunks) (len embeddings)) as [Hl|Hl]; simpl;
      [|eauto].
    destruct Hbad as [->|Hne]; [|contradiction].
    destruct embeddings as [|v rest]; [simpl; eauto|].
    unfold len in Hl. simpl in Hl. lia.
  - intros self' e. unfold store_document.
    destruct (Z.eqb_spec (len chunks) (len embeddings)) as [Hl|Hl]; simpl.
    + destruct (np_array_shape1 embeddings) as [[dimension rows]|e'] eqn:Hnp.
      * destruct fault; simpl; intros H; inversion H; subst; right;
          exists {| d := dimension; xb := rows |}; simpl;
          (split; [reflexivity|]); (split; [exact Hl|]);
          (split; [reflexivity|]); [left|right]; auto.
      * intros H. inversion H. subst. left. auto.
    + intros H. inversion H. subst. left. auto.
Qed.

Lemma store_document_failure_witness :
  exists e,
    store_document init "A" [] [[0%Q]] None NoFault = (init, Raise e).
Proof.
  apply (proj1 (store_document_failure init "A" [] [[0%Q]] None NoFault)).
  left. reflexivity.
Defined.

(** * Further properties of the vector store *)

Lemma np_array_shape1_cons (v : Vector) (rest : list Vector) :
  np_array_shape1 (v :: rest)
  = if forallb (fun w : Vector => len w =? len v) (v :: rest)
    then Ok (len v, v :: rest) else Raise ValueError.
Proof. reflexivity. Qed.

Lemma np_array_shape1_ok (embeddings : list Vector) :
  rectangular embeddings <->
  exists dimension, np_array_shape1 embeddings = Ok (dimension, embeddings).
Proof.
  unfold rectangular. split.
  - intros (v & Hh & Hall). destruct embeddings as [|v' rest]; [discriminate|].
    simpl in Hh. inversion Hh. subst v'. rewrite np_array_shape1_cons.
    assert (Hb : forallb (fun w : Vector => len w =? len v) (v :: rest) = true).
    { apply forallb_forall. intros w Hw. rewrite List.Forall_forall in Hall.
      apply Z.eqb_eq. unfold len. rewrite (Hall w Hw). reflexivity. }
    rewrite Hb. eauto.
  - intros [dimension H]. destruct embeddings as [|v rest]; [discriminate|].
    rewrite np_array_shape1_cons in H.
    destruct (forallb (fun w : Vector => len w =? len v) (v :: rest)) eqn:Hb;
      [|discriminate].
    exists v. split; [reflexivity|].
    apply List.Forall_forall. intros w Hw.
    rewrite forallb_forall in Hb. specialize (Hb w Hw).
    apply Z.eqb_eq in Hb. unfold len in Hb. lia.
Qed.

Lemma np_array_shape1_rows (embeddings rows : list Vector) (dimension : Z) :
  np_array_shape1 embeddings = Ok (dimension, rows) -> rows = embeddings.
Proof.
  destruct embeddings as [|v rest]; [discriminate|].
  rewrite np_array_shape1_cons.
  destruct (forallb (fun w : Vector => len w =? len v) (v :: rest));
    [|discriminate].
  intros H. inversion H. reflexivity.
Qed.

Lemma store_document_ok_iff (self : VectorStoreService) (doc : string)
    (chunks : list ChunkMetadata) (embeddings : list Vector)
    (md : option Dict) (fault : write_fault) :
  (store_document self doc chunks embeddings md fault).2 = Ok tt <->
  (fault = NoFault /\ len chunks = len embeddings /\ rectangular embeddings).
Proof.
  unfold store_document. split.
  - destruct (Z.eqb_spec (len chunks) (len embeddings)) as [Hl|Hl]; simpl;
      [|discriminate].
    destruct (np_array_shape1 embeddings) as [[dimension rows]|e] eqn:Hnp;
      [|discriminate].
    destruct fault; simpl; try discriminate. intros _.
    split; [reflexivity|]. split; [exact Hl|].
    apply np_array_shape1_ok. exists dimension.
    rewrite Hnp, (np_array_shape1_rows _ _ _ Hnp). reflexivity.
  - intros (-> & Hl & Hrect).
    apply np_array_shape1_ok in Hrect. destruct Hrect as [dimension Hnp].
    apply Z.eqb_eq in Hl. rewrite Hl, Hnp. reflexivity.
Qed.

(** X1. [store_document] returns normally exactly when the write does not
    fail, there are as many chunks as vectors, and the vectors are a
    non-empty list of rows of one length. *)
Theorem store_document_succeeds_iff (self : VectorStoreService) (doc : string)
    (chunks : list ChunkMetadata) (embeddings : list Vector)
    (md : option Dict) (fault : write_fault) :
  (store_document self doc chunks embeddings md fault).2 = Ok tt <->
  (fault = NoFault /\ len chunks = len embeddings /\ rectangular embeddings).
Proof. apply store_document_ok_iff. Qed.

(** X2. After a successful [store_document], whatever the store held
    before, [_load_document] returns the index of the given vectors and
    the given chunks: from the cache with [metadata or {}], and after
    [clear_cache] from the disk with the metadata as it was passed, which
    puts the document back into the cache.  [get_document_info] reports
    the number of chunks. *)
Theorem store_then_load (self self' : VectorStoreService) (doc : string)
    (chunks : list ChunkMetadata) (embeddings : list Vector)
    (md : option Dict) (fault : write_fault) :
  store_document self doc chunks embeddings md fault = (self', Ok tt) ->
  exists dimension,
    np_array_shape1 embeddings = Ok (dimension, embeddings) /\
    _load_document self' doc
      = (self', Ok ({| d := dimension; xb := embeddings |}, chunks,
                    Some (or_dict md))) /\
    (_load_document (clear_cache self') doc).2
      = Ok ({| d := dimension; xb := embeddings |}, chunks, md) /\
    (_load_document (clear_cache self') doc).1.(_cache) !! doc
      = Some ({| d := dimension; xb := embeddings |}, chunks, md) /\
    (get_document_info self' doc).2
      = Some {| info_doc_id := doc; info_chunk_count := len chunks;
                info_metadata := Some (or_dict md) |}.
Proof.
  intros Hst.
  assert (Hok : (store_document self doc chunks embeddings md fault).2 = Ok tt)
    by (rewrite Hst; reflexivity).
  apply store_document_ok_iff in Hok. destruct Hok as (-> & Hl & Hrect).
  apply np_array_shape1_ok in Hrect. destruct Hrect as [dimension Hnp].
  exists dimension. split; [exact Hnp|].
  unfold store_document in Hst. apply Z.eqb_eq in Hl.
  rewrite Hl, Hnp in Hst. simpl in Hst. inversion Hst. subst self'. clear Hst.
  unfold get_document_info, _load_document, clear_cache. simpl.
  rewrite lookup_insert_eq, lookup_empty, lookup_insert_eq. simpl.
  rewrite lookup_insert_eq. repeat split; reflexivity.
Qed.

Lemma store_then_load_witness :
  exists dimension,
    np_array_shape1 sample_vectors_A = Ok (dimension, sample_vectors_A) /\
    _load_document sample_store_A "A"
      = (sample_store_A,
         Ok ({| d := dimension; xb := sample_vectors_A |}, sample_chunks_A,
             Some (or_dict None))) /\
    (_load_document (clear_cache sample_store_A) "A").2
      = Ok ({| d := dimension; xb := sample_vectors_A |}, sample_chunks_A, None) /\
    (_load_document (clear_cache sample_store_A) "A").1.(_cache) !! "A"
      = Some ({| d := dimension; xb := sample_vectors_A |}, sample_chunks_A, None) /\
    (get_document_info sample_store_A "A").2
      = Some {| info_doc_id := "A"; info_chunk_count := len sample_chunks_A;
                info_metadata := Some (or_dict None) |}.
Proof.
  apply (store_then_load init sample_store_A "A" sample_chunks_A
           sample_vectors_A None NoFault).
  reflexivity.
Defined.

(** *** Plain file names *)

Lemma plain_files_init : plain_files init.
Proof. intros doc [f Hf]. simpl in Hf. rewrite lookup_empty in Hf. discriminate. Qed.

Lemma plain_files_insert (self : VectorStoreService) (c : gmap string entry)
    (doc : string) (f : file) :
  plain doc = true -> plain_files self ->
  plain_files {| _cache := c; disk := <[doc := f]> self.(disk) |}.
Proof.
  intros Hdoc Hself doc' Hf. simpl in Hf.
  destruct (decide (doc = doc')) as [<-|Hne]; [exact Hdoc|].
  rewrite lookup_insert_ne in Hf by exact Hne. apply Hself. exact Hf.
Qed.

Lemma plain_files_disk (self self' : VectorStoreService) :
  self'.(disk) = self.(disk) -> plain_files self -> plain_files self'.
Proof. intros Hd Hself doc Hf. rewrite Hd in Hf. apply Hself. exact Hf. Qed.

Lemma plain_files_store (self : VectorStoreService) (doc : string)
    (chunks : list ChunkMetadata) (embeddings : list Vector)
    (md : option Dict) (fault : write_fault) :
  plain doc = true -> plain_files self ->
  plain_files (store_document self doc chunks embeddings md fault).1.
Proof.
  intros Hdoc Hself. unfold store_document.
  destruct (len chunks =? len embeddings); simpl; [|exact Hself].
  destruct (np_array_shape1 embeddings) as [[dimension rows]|e]; [|exact Hself].
  destruct fault; simpl.
  - apply (plain_files_insert self); assumption.
  - eapply plain_files_disk; [|exact Hself]. reflexivity.
  - apply (plain_files_insert self); assumption.
Qed.

Lemma plain_files_delete (self : VectorStoreService) (doc : string)
    (unlink_fails : bool) :
  plain_files self -> plain_files (delete_document self doc unlink_fails).1.
Proof.
  intros Hself. unfold delete_document.
  destruct (disk self !! doc) as [f|] eqn:Hd;
    [destruct unlink_fails|]; simpl;
    try (eapply plain_files_disk; [|exact Hself]; reflexivity).
  intros doc' Hf. simpl in Hf. apply Hself.
  destruct (decide (doc = doc')) as [<-|Hne].
  - rewrite lookup_delete_eq in Hf. destruct Hf as [x Hx]. discriminate.
  - rewrite lookup_delete_ne in Hf by exact Hne. exact Hf.
Qed.

(** What a removal leaves of the other documents. *)
Lemma delete_document_frame (self : VectorStoreService) (doc doc' : string)
    (unlink_fails : bool) :
  doc' <> doc ->
  lookup_entry (delete_document self doc unlink_fails).1 doc'
    = lookup_entry self doc' /\
  document_exists (delete_document self doc unlink_fails).1 doc'
    = document_exists self doc'.
Proof.
  intros Hne.
  assert (Hother : forall dk' : gmap string file,
            dk' !! doc' = disk self !! doc' ->
            lookup_entry {| _cache := delete doc (_cache self); disk := dk' |} doc'
              = lookup_entry self doc' /\
            document_exists {| _cache := delete doc (_cache self); disk := dk' |} doc'
              = document_exists self doc').
  { intros dk' Hdk.
    unfold lookup_entry, document_exists, _load_document. simpl.
    rewrite Hdk, lookup_delete_ne by congruence. split; [|reflexivity].
    destruct (_cache self !! doc'); [reflexivity|].
    destruct (disk self !! doc') as [[e|]|]; reflexivity. }
  unfold delete_document.
  destruct (disk self !! doc) as [f|]; [destruct unlink_fails|]; simpl;
    apply Hother; try reflexivity.
  apply lookup_delete_ne. congruence.
Qed.

(** X3. [delete_document] returns [True] exactly when the file of the
    document existed and its removal did not fail; the document leaves
    the cache in every case.  When the file is gone or never was, the
    document does not exist afterwards, cannot be loaded, and a second
    [delete_document] returns [False]; when the removal failed the
    directory is as it was, and the document resolves to what its file
    holds.  Every other document resolves as before.  Identifiers are
    plain, see above. *)
Theorem delete_document_removes (self : VectorStoreService) (doc : string)
    (unlink_fails : bool) :
  plain doc = true ->
  plain_files self ->
  ((delete_document self doc unlink_fails).2 = true <->
   is_Some (self.(disk) !! doc) /\ unlink_fails = false) /\
  (delete_document self doc unlink_fails).1.(_cache) !! doc = None /\
  plain_files (delete_document self doc unlink_fails).1 /\
  (unlink_fails = false \/ self.(disk) !! doc = None ->
   document_exists (delete_document self doc unlink_fails).1 doc = false /\
   lookup_entry (delete_document self doc unlink_fails).1 doc
     = Raise FileNotFoundError /\
   (get_document_info (delete_document self doc unlink_fails).1 doc).2 = None /\
   (forall again,
      (delete_document (delete_document self doc unlink_fails).1 doc again).2
      = false)) /\
  (unlink_fails = true ->
   (delete_document self doc unlink_fails).1.(disk) = self.(disk) /\
   lookup_entry (delete_document self doc unlink_fails).1 doc
     = lookup_entry (clear_cache self) doc) /\
  (forall doc', plain doc' = true -> doc' <> doc ->
     lookup_entry (delete_document self doc unlink_fails).1 doc'
       = lookup_entry self doc' /\
     document_exists (delete_document self doc unlink_fails).1 doc'
       = document_exists self doc').
Proof.
  intros Hdoc Hself.
  split; [|split; [|split; [apply plain_files_delete; exact Hself|]]].
  - unfold delete_document.
    destruct (disk self !! doc) as [f|]; [destruct unlink_fails|]; simpl.
    + split; [discriminate|intros [_ H]; discriminate].
    + split; eauto.
    + split; [discriminate|intros [[x Hx] _]; discriminate].
  - unfold delete_document.
    destruct (disk self !! doc) as [f|]; [destruct unlink_fails|]; simpl;
      apply lookup_delete_eq.
  - split; [|split].
    + intros Hgone. unfold delete_document.
      destruct (disk self !! doc) as [f|] eqn:Hd.
      * destruct unlink_fails; [destruct Hgone; discriminate|].
        unfold document_exists, lookup_entry, get_document_info,
          delete_document, _load_document. simpl.
        rewrite !lookup_delete_eq. simpl.
        repeat (split; [reflexivity|]). intros again. reflexivity.
      * unfold document_exists, lookup_entry, get_document_info,
          delete_document, _load_document. simpl.
        rewrite !lookup_delete_eq, !Hd. simpl.
        repeat (split; [reflexivity|]). intros again. reflexivity.
    + intros ->. unfold delete_document, lookup_entry, _load_document, clear_cache.
      destruct (disk self !! doc) as [f|] eqn:Hd; simpl;
        rewrite lookup_delete_eq, lookup_empty, Hd;
        (split; [reflexivity|]); try reflexivity.
      destruct f; reflexivity.
    + intros doc' _ Hne. apply delete_document_frame. exact Hne.
Qed.

Lemma delete_document_removes_witness :
  ((delete_document sample_store_A "A" false).2 = true <->
   is_Some (sample_store_A.(disk) !! "A") /\ false = false) /\
  (delete_document sample_store_A "A" false).1.(_cache) !! "A" = None /\
  plain_files (delete_document sample_store_A "A" false).1 /\
  (false = false \/ sample_store_A.(disk) !! "A" = None ->
   document_exists (delete_document sample_store_A "A" false).1 "A" = false /\
   lookup_entry (delete_document sample_store_A "A" false).1 "A"
     = Raise FileNotFoundError /\
   (get_document_info (delete_document sample_store_A "A" false).1 "A").2 = None /\
   (forall again,
      (delete_document (delete_document sample_store_A "A" false).1 "A" again).2
      = false)) /\
  (false = true ->
   (delete_document sample_store_A "A" false).1.(disk) = sample_store_A.(disk) /\
   lookup_entry (delete_document sample_store_A "A" false).1 "A"
     = lookup_entry (clear_cache sample_store_A) "A") /\
  (forall doc', plain doc' = true -> doc' <> "A" ->
     lookup_entry (delete_document sample_store_A "A" false).1 doc'
       = lookup_entry sample_store_A doc' /\
     document_exists (delete_document sample_store_A "A" false).1 doc'
       = document_exists sample_store_A doc').
Proof.
  apply (delete_document_removes sample_store_A "A" false).
  - reflexivity.
  - apply plain_files_store; [reflexivity|apply plain_files_init].
Defined.

(** X4. [store_document] for one document, whether it returns or raises,
    leaves every other document as it was: it resolves to the same entry
    and exists or not as before.  Identifiers are plain, see above. *)
Theorem store_document_frame (self : VectorStoreService) (doc doc' : string)
    (chunks : list ChunkMetadata) (embeddings : list Vector)
    (md : option Dict) (fault : write_fault) :
  plain doc = true ->
  plain doc' = true ->
  plain_files self ->
  doc' <> doc ->
  lookup_entry (store_document self doc chunks embeddings md fault).1 doc'
    = lookup_entry self doc' /\
  document_exists (store_document self doc chunks embeddings md fault).1 doc'
    = document_exists self doc' /\
  plain_files (store_document self doc chunks embeddings md fault).1.
Proof.
  intros Hdoc Hdoc' Hself Hne.
  split; [|split; [|apply plain_files_store; assumption]];
    unfold store_document;
    (destruct (len chunks =? len embeddings); simpl; [|reflexivity]);
    (destruct (np_array_shape1 embeddings) as [[dimension rows]|e];
       [|reflexivity]);
    unfold lookup_entry, document_exists, _load_document;
    destruct fault; simpl; rewrite ?lookup_insert_ne by congruence;
    try reflexivity;
    destruct (_cache self !! doc'); try reflexivity;
    destruct (disk self !! doc') as [[e|]|]; reflexivity.
Qed.

Lemma store_document_frame_witness :
  lookup_entry (store_document sample_store_A "B" [sample_chunk "B" 0 "gamma"]
                  [[0%Q]] None DumpFails).1 "A"
    = lookup_entry sample_store_A "A" /\
  document_exists (store_document sample_store_A "B" [sample_chunk "B" 0 "gamma"]
                     [[0%Q]] None DumpFails).1 "A"
    = document_exists sample_store_A "A" /\
  plain_files (store_document sample_store_A "B" [sample_chunk "B" 0 "gamma"]
                 [[0%Q]] None DumpFails).1.
Proof.
  apply (store_document_frame sample_store_A "B" "A");
    try reflexivity; try discriminate.
  apply plain_files_store; [reflexivity|apply plain_files_init].
Defined.

(** X5. [document_exists] is [False] exactly when [_load_document] raises
    [FileNotFoundError].  It does not say that the document can be loaded:
    for a file that a failed write left empty and that is not cached it
    is [True] while [get_document_info] returns [None] and [search]
    raises [EOFError]. *)
Theorem document_exists_vs_load (self : VectorStoreService) (doc : string) :
  (document_exists self doc = false <->
   lookup_entry self doc = Raise FileNotFoundError) /\
  (self.(_cache) !! doc = None -> self.(disk) !! doc = Some Truncated ->
   document_exists self doc = true /\
   (get_document_info self doc).2 = None /\
   forall q k, (search self doc q k).2 = Raise EOFError).
Proof.
  unfold document_exists, lookup_entry, get_document_info, search, _load_document.
  split.
  - destruct (_cache self !! doc) as [e|]; simpl; [split; discriminate|].
    destruct (disk self !! doc) as [[e|]|]; simpl; split;
      try discriminate; reflexivity.
  - intros -> ->. simpl. repeat split.
Qed.

Lemma document_exists_vs_load_witness :
  document_exists
    (clear_cache
       (store_document init "A" sample_chunks_A sample_vectors_A None DumpFails).1)
    "A" = true /\
  (get_document_info
     (clear_cache
        (store_document init "A" sample_chunks_A sample_vectors_A None DumpFails).1)
     "A").2 = None /\
  forall q k,
    (search
       (clear_cache
          (store_document init "A" sample_chunks_A sample_vectors_A None DumpFails).1)
       "A" q k).2 = Raise EOFError.
Proof.
  apply (proj2 (document_exists_vs_load
                  (clear_cache
                     (store_document init "A" sample_chunks_A sample_vectors_A
                        None DumpFails).1) "A"));
    reflexivity.
Defined.

(** ** What a search does to the store *)

Lemma load_state (self : VectorStoreService) (doc : string) :
  (_load_document self doc).1.(disk) = self.(disk) /\
  self.(_cache) ⊆ (_load_document self doc).1.(_cache) /\
  (forall e, lookup_entry self doc = Ok e ->
             (_load_document self doc).1.(_cache) !! doc = Some e).
Proof.
  unfold lookup_entry, _load_document.
  destruct (_cache self !! doc) as [e|] eqn:Hc; simpl.
  - split; [reflexivity|]. split; [reflexivity|]. intros e' H.
    inversion H. subst. exact Hc.
  - destruct (disk self !! doc) as [[e|]|] eqn:Hd; simpl.
    + split; [reflexivity|]. split; [apply insert_subseteq; exact Hc|].
      intros e' H. inversion H. subst. apply lookup_insert_eq.
    + split; [reflexivity|]. split; [reflexivity|]. discriminate.
    + split; [reflexivity|]. split; [reflexivity|]. discriminate.
Qed.

Lemma search_state (self : VectorStoreService) (doc : string) (q : Vector) (k : Z) :
  (search self doc q k).1 = (_load_document self doc).1.
Proof. rewrite search_unfold. reflexivity. Qed.

Lemma search_loop_state (doc_ids : list string) (q : Vector) (k : Z) :
  forall self acc,
    (search_loop self doc_ids q k acc).1.(disk) = self.(disk) /\
    self.(_cache) ⊆ (search_loop self doc_ids q k acc).1.(_cache) /\
    (forall doc, lookup_entry (search_loop self doc_ids q k acc).1 doc
                 = lookup_entry self doc) /\
    (forall doc e, In doc doc_ids -> lookup_entry self doc = Ok e ->
                   (search_loop self doc_ids q k acc).1.(_cache) !! doc = Some e).
Proof.
  induction doc_ids as [|doc0 rest IH]; intros self acc.
  - simpl. split; [reflexivity|]. split; [reflexivity|].
    split; [reflexivity|]. intros doc e [].
  - cbn [search_loop].
    pose proof (search_state self doc0 q k) as Hst.
    pose proof (load_state self doc0) as (Hd & Hc & Hin).
    assert (Hnext : forall acc',
              (search_loop (search self doc0 q k).1 rest q k acc').1.(disk)
                = self.(disk) /\
              self.(_cache)
                ⊆ (search_loop (search self doc0 q k).1 rest q k acc').1.(_cache) /\
              (forall doc,
                 lookup_entry (search_loop (search self doc0 q k).1 rest q k acc').1 doc
                 = lookup_entry self doc) /\
              (forall doc e, In doc (doc0 :: rest) -> lookup_entry self doc = Ok e ->
                 (search_loop (search self doc0 q k).1 rest q k acc').1.(_cache) !! doc
                 = Some e)).
    { intros acc'. destruct (IH (search self doc0 q k).1 acc') as (H1 & H2 & H3 & H4).
      rewrite Hst in *.
      split; [congruence|]. split; [etransitivity; eauto|].
      split; [intros doc; rewrite H3; apply load_preserves_lookup|].
      intros doc e [<-|Hdoc] He.
      - eapply lookup_weaken; [|exact H2]. apply Hin. exact He.
      - apply H4; [exact Hdoc|]. rewrite load_preserves_lookup. exact He. }
    destruct (search self doc0 q k) as [self' [results|err]]; apply Hnext.
Qed.

(** X6. A multi-document search writes nothing to disk and changes what
    no document resolves to; the cache only grows, and afterwards it
    holds every searched document that could be loaded. *)
Theorem search_multi_only_fills_cache (self : VectorStoreService)
    (doc_ids : list string) (q : Vector) (k m : Z) :
  (search_multi_documents self doc_ids q k m).1.(disk) = self.(disk) /\
  self.(_cache) ⊆ (search_multi_documents self doc_ids q k m).1.(_cache) /\
  get_cache_size self <= get_cache_size (search_multi_documents self doc_ids q k m).1 /\
  (forall doc, lookup_entry (search_multi_documents self doc_ids q k m).1 doc
               = lookup_entry self doc) /\
  (forall doc e, In doc doc_ids -> lookup_entry self doc = Ok e ->
     (search_multi_documents self doc_ids q k m).1.(_cache) !! doc = Some e).
Proof.
  unfold search_multi_documents.
  pose proof (search_loop_state doc_ids q k self []) as (H1 & H2 & H3 & H4).
  destruct (search_loop self doc_ids q k []) as [self' all_results].
  simpl in *. split; [exact H1|]. split; [exact H2|].
  split; [|split; [exact H3|exact H4]].
  unfold get_cache_size. apply inj_le. apply map_subseteq_size. exact H2.
Qed.

(** ** The cache agrees with the disk *)

Lemma coherent_load (self : VectorStoreService) (doc : string) :
  coherent self -> coherent (_load_document self doc).1.
Proof.
  intros Hco. unfold _load_document.
  destruct (_cache self !! doc) as [e|] eqn:Hc; simpl; [exact Hco|].
  destruct (disk self !! doc) as [[e|]|] eqn:Hd; simpl; try exact Hco.
  intros doc' index chunks md Hl. simpl in *.
  destruct (decide (doc = doc')) as [<-|Hne].
  - rewrite lookup_insert_eq in Hl. inversion Hl. subst e. eauto.
  - rewrite lookup_insert_ne in Hl by exact Hne. eapply Hco; eauto.
Qed.

Lemma coherent_search_loop (doc_ids : list string) (q : Vector) (k : Z) :
  forall self acc,
    coherent self -> coherent (search_loop self doc_ids q k acc).1.
Proof.
  induction doc_ids as [|doc rest IH]; intros self acc Hco; [exact Hco|].
  cbn [search_loop].
  pose proof (search_state self doc q k) as Hst.
  pose proof (coherent_load self doc Hco) as Hco'. rewrite <- Hst in Hco'.
  destruct (search self doc q k) as [self' [results|err]]; apply IH; exact Hco'.
Qed.

Lemma coherent_apply (self : VectorStoreService) (op : operation) :
  coherent self -> coherent (apply_operation self op).
Proof.
  intros Hco.
  destruct op as [doc chunks embeddings md|doc q k|doc_ids q k m|doc|doc fails|];
    simpl.
  - unfold store_document.
    destruct (len chunks =? len embeddings); simpl; [|exact Hco].
    destruct (np_array_shape1 embeddings) as [[dimension rows]|e]; [|exact Hco].
    simpl. intros doc' index chunks' md' Hl. simpl in *.
    destruct (decide (doc = doc')) as [<-|Hne].
    + rewrite lookup_insert_eq in Hl. inversion Hl. subst.
      rewrite lookup_insert_eq. eauto.
    + rewrite lookup_insert_ne in Hl by exact Hne.
      rewrite lookup_insert_ne by exact Hne. eapply Hco; eauto.
  - rewrite search_state. apply coherent_load. exact Hco.
  - unfold search_multi_documents.
    pose proof (coherent_search_loop doc_ids q k self [] Hco) as H.
    destruct (search_loop self doc_ids q k []) as [self' all_results]. exact H.
  - unfold get_document_info.
    pose proof (coherent_load self doc Hco) as H.
    destruct (_load_document self doc) as [self' [[[index chunks] md]|e]]; exact H.
  - unfold delete_document.
    assert (H : forall dk, (forall doc', doc' <> doc -> dk !! doc' = disk self !! doc') ->
                coherent {| _cache := delete doc (_cache self); disk := dk |}).
    { intros dk Hdk doc' index chunks md Hl. simpl in *.
      destruct (decide (doc = doc')) as [<-|Hne].
      - rewrite lookup_delete_eq in Hl. discriminate.
      - rewrite lookup_delete_ne in Hl by exact Hne.
        rewrite Hdk by congruence. eapply Hco; eauto. }
    destruct (disk self !! doc); [destruct fails|]; simpl; apply H;
      try reflexivity.
    intros doc' Hne. apply lookup_delete_ne. congruence.
  - intros doc index chunks md Hl. simpl in Hl. rewrite lookup_empty in Hl.
    discriminate.
Qed.

Lemma plain_files_search_loop (doc_ids : list string) (q : Vector) (k : Z)
    (self : VectorStoreService) (acc : list SearchResult) :
  plain_files self -> plain_files (search_loop self doc_ids q k acc).1.
Proof.
  apply plain_files_disk. apply (search_loop_state doc_ids q k self acc).
Qed.

(** The files that the service makes for plain identifiers have plain
    names. *)
Lemma plain_files_apply (self : VectorStoreService) (op : operation) :
  plain_operation op = true -> plain_files self ->
  plain_files (apply_operation self op).
Proof.
  intros Hop Hself.
  destruct op as [doc chunks embeddings md|doc q k|doc_ids q k m|doc|doc fails|];
    simpl in *.
  - apply plain_files_store; assumption.
  - eapply plain_files_disk; [|exact Hself].
    rewrite search_state. apply load_state.
  - unfold search_multi_documents.
    pose proof (plain_files_search_loop doc_ids q k self [] Hself) as H.
    destruct (search_loop self doc_ids q k []) as [self' all_results]. exact H.
  - eapply plain_files_disk; [|exact Hself].
    unfold get_document_info.
    pose proof (proj1 (load_state self doc)) as H.
    destruct (_load_document self doc) as [self' [[[index chunks] md]|e]];
      exact H.
  - apply plain_files_delete. exact Hself.
  - exact Hself.
Qed.

Lemma plain_files_fold (ops : list operation) :
  forall self,
    forallb plain_operation ops = true -> plain_files self ->
    plain_files (fold_left apply_operation ops self).
Proof.
  induction ops as [|op ops IH]; intros self Hops Hself; [exact Hself|].
  simpl in Hops. apply andb_prop in Hops. destruct Hops as [Hop Hops].
  simpl. apply IH; [exact Hops|]. apply plain_files_apply; assumption.
Qed.

Lemma coherent_fold (ops : list operation) :
  forall self, coherent self -> coherent (fold_left apply_operation ops self).
Proof.
  induction ops as [|op ops IH]; intros self Hco; [exact Hco|].
  simpl. apply IH. apply coherent_apply. exact Hco.
Qed.

Lemma coherent_clear_search (self : VectorStoreService) (doc : string)
    (q : Vector) (k : Z) :
  coherent self ->
  (search (clear_cache self) doc q k).2 = (search self doc q k).2.
Proof.
  intros Hco. rewrite !search_unfold. simpl.
  unfold lookup_entry, _load_document, clear_cache. simpl.
  rewrite lookup_empty.
  destruct (_cache self !! doc) as [[[index chunks] md]|] eqn:Hc.
  - destruct (Hco doc index chunks md Hc) as [md' Hd]. rewrite Hd. reflexivity.
  - destruct (disk self !! doc) as [[e|]|]; reflexivity.
Qed.

(** X7. After any sequence of calls whose writes succeed, started on an
    empty directory, every cached document has a complete file with the
    same index and chunks, whether or not the removals of files
    succeeded; and emptying the cache changes the result of no search, in
    one document or in several.  The identifiers that the calls name are
    plain, see above, and so are the names of the files that they
    leave. *)
Theorem cache_is_transparent (ops : list operation) :
  forallb plain_operation ops = true ->
  coherent (run ops) /\
  plain_files (run ops) /\
  (forall doc q k,
     (search (clear_cache (run ops)) doc q k).2 = (search (run ops) doc q k).2) /\
  (forall doc_ids q k m,
     (search_multi_documents (clear_cache (run ops)) doc_ids q k m).2
     = (search_multi_documents (run ops) doc_ids q k m).2).
Proof.
  intros Hops.
  assert (Hco : coherent (run ops)).
  { unfold run. apply coherent_fold. intros doc index chunks md Hl.
    simpl in Hl. rewrite lookup_empty in Hl. discriminate. }
  split; [exact Hco|]. split; [|split].
  - unfold run. apply plain_files_fold; [exact Hops|apply plain_files_init].
  - intros doc q k. apply coherent_clear_search. exact Hco.
  - intros doc_ids q k m. rewrite !search_multi_documents_pool.
    f_equal. f_equal. unfold pool. f_equal. apply map_ext. intros doc.
    unfold per_document. rewrite coherent_clear_search by exact Hco.
    reflexivity.
Qed.

Lemma cache_is_transparent_witness :
  coherent (run [OpStore "A" sample_chunks_A sample_vectors_A None;
                 OpStore "B" [sample_chunk "B" 0 "gamma"] [[0%Q]] None;
                 OpClear; OpSearch "A" [0%Q] 3; OpDelete "A" true;
                 OpSearchMulti ["A"; "B"] [0%Q] 3 10; OpDelete "B" false]) /\
  plain_files (run [OpStore "A" sample_chunks_A sample_vectors_A None;
                    OpStore "B" [sample_chunk "B" 0 "gamma"] [[0%Q]] None;
                    OpClear; OpSearch "A" [0%Q] 3; OpDelete "A" true;
                    OpSearchMulti ["A"; "B"] [0%Q] 3 10; OpDelete "B" false]) /\
  (forall doc q k,
     (search (clear_cache
                (run [OpStore "A" sample_chunks_A sample_vectors_A None;
                      OpStore "B" [sample_chunk "B" 0 "gamma"] [[0%Q]] None;
                      OpClear; OpSearch "A" [0%Q] 3; OpDelete "A" true;
                      OpSearchMulti ["A"; "B"] [0%Q] 3 10; OpDelete "B" false]))
        doc q k).2
     = (search (run [OpStore "A" sample_chunks_A sample_vectors_A None;
                     OpStore "B" [sample_chunk "B" 0 "gamma"] [[0%Q]] None;
                     OpClear; OpSearch "A" [0%Q] 3; OpDelete "A" true;
                     OpSearchMulti ["A"; "B"] [0%Q] 3 10; OpDelete "B" false])
          doc q k).2) /\
  (forall doc_ids q k m,
     (search_multi_documents
        (clear_cache
           (run [OpStore "A" sample_chunks_A sample_vectors_A None;
                 OpStore "B" [sample_chunk "B" 0 "gamma"] [[0%Q]] None;
                 OpClear; OpSearch "A" [0%Q] 3; OpDelete "A" true;
                 OpSearchMulti ["A"; "B"] [0%Q] 3 10; OpDelete "B" false]))
        doc_ids q k m).2
     = (search_multi_documents
          (run [OpStore "A" sample_chunks_A sample_vectors_A None;
                OpStore "B" [sample_chunk "B" 0 "gamma"] [[0%Q]] None;
                OpClear; OpSearch "A" [0%Q] 3; OpDelete "A" true;
                OpSearchMulti ["A"; "B"] [0%Q] 3 10; OpDelete "B" false])
          doc_ids q k m).2).
Proof.
  apply (cache_is_transparent
           [OpStore "A" sample_chunks_A sample_vectors_A None;
            OpStore "B" [sample_chunk "B" 0 "gamma"] [[0%Q]] None;
            OpClear; OpSearch "A" [0%Q] 3; OpDelete "A" true;
            OpSearchMulti ["A"; "B"] [0%Q] 3 10; OpDelete "B" false]).
  reflexivity.
Defined.

(** X8. The number of results of a multi-document search: with a
    non-negative [max_total_results] it is the smaller of that bound and
    the size of the pool; a negative bound drops that many results from
    the end of the ranking instead of returning none. *)
Theorem search_multi_length (self : VectorStoreService) (doc_ids : list string)
    (q : Vector) (k m : Z) :
  len (search_multi_documents self doc_ids q k m).2
  = (if m <? 0 then Z.max (len (pool self doc_ids q k) + m) 0
     else Z.min m (len (pool self doc_ids q k))) /\
  (search_multi_documents self doc_ids q k m).2
  = take (Z.to_nat (if m <? 0 then Z.max (len (pool self doc_ids q k) + m) 0
                    else Z.min m (len (pool self doc_ids q k))))
      (sort_by score_ge (pool self doc_ids q k)).
Proof.
  rewrite search_multi_documents_pool, slice_from_0.
  assert (Hl : len (sort_by score_ge (pool self doc_ids q k))
               = len (pool self doc_ids q k)).
  { unfold len. rewrite (Permutation_length (sort_by_perm score_ge _)).
    reflexivity. }
  unfold clamp_index. rewrite Hl. split; [|reflexivity].
  unfold len at 1. rewrite length_take. unfold len in *.
  destruct (Z.ltb_spec m 0); lia.
Qed.

(** * Further properties of the chunker *)

(** ** Numbering of the chunks *)

Lemma string_app_inv_head (p a b : string) :
  (p ++ a)%string = (p ++ b)%string -> a = b.
Proof.
  induction p as [|c p IH]; simpl; intros H; [exact H|].
  inversion H. auto.
Qed.

Lemma chunk_id_of_inj (doc : string) (i j : nat) :
  chunk_id_of doc i = chunk_id_of doc j -> i = j.
Proof.
  unfold chunk_id_of, str_of_nat. intros H.
  apply string_app_inv_head, string_app_inv_head in H.
  apply Unsigned.to_uint_inj.
  assert (Hs : Some (Nat.to_uint i) = Some (Nat.to_uint j)).
  { rewrite <- !NilEmpty.usu. rewrite H. reflexivity. }
  inversion Hs. reflexivity.
Qed.

Section Numbering.

Variables (self : TextChunker) (txt : str) (doc : string)
  (page_nums : option (list Z)).

Lemma numbered_snoc (chunks : list ChunkMetadata) (c : ChunkMetadata) :
  (forall j x, chunks !! j = Some x -> numbered doc page_nums j x) ->
  numbered doc page_nums (length chunks) c ->
  forall j x, (chunks ++ [c]) !! j = Some x -> numbered doc page_nums j x.
Proof.
  intros Hch Hc j x Hj. apply lookup_app_Some in Hj.
  destruct Hj as [Hj|[Hj1 Hj2]]; [auto|].
  apply list_lookup_singleton_Some in Hj2. destruct Hj2 as [Hj2 <-].
  replace j with (length chunks) by lia. exact Hc.
Qed.

Lemma fixed_loop_numbered (fuel : nat) :
  forall start chunks,
    (forall j x, chunks !! j = Some x -> numbered doc page_nums j x) ->
    match fixed_loop fuel self txt doc page_nums start (length chunks) chunks with
    | Some out => forall j x, out !! j = Some x -> numbered doc page_nums j x
    | None => True
    end.
Proof.
  induction fuel as [|fuel IH]; intros start chunks Hch; simpl; [exact I|].
  destruct (start <? len txt); [|exact Hch].
  destruct (nonempty (strip (slice txt start (start + chunk_size self))));
    simpl; [|exact Hch].
  match goal with
  | |- context [fixed_loop fuel self txt doc page_nums ?st (S (length chunks)) ?l] =>
      specialize (IH st l)
  end.
  rewrite length_app in IH. simpl in IH.
  replace (length chunks + 1)%nat with (S (length chunks)) in IH by lia.
  apply IH. apply numbered_snoc; [exact Hch|]. repeat split.
Qed.

Lemma semantic_loop_numbered (paragraphs : list str) :
  forall chunks cur,
    (forall j x, chunks !! j = Some x -> numbered doc page_nums j x) ->
    (forall j x,
       (semantic_loop self doc page_nums paragraphs chunks cur (length chunks)).1.1
         !! j = Some x -> numbered doc page_nums j x) /\
    (semantic_loop self doc page_nums paragraphs chunks cur (length chunks)).2
    = length (semantic_loop self doc page_nums paragraphs chunks cur
                (length chunks)).1.1.
Proof.
  induction paragraphs as [|para0 rest IH]; intros chunks cur Hch.
  - simpl. auto.
  - simpl. destruct (nonempty (strip para0)); simpl; [|apply IH; exact Hch].
    destruct (nonempty cur && (len cur + len (strip para0) >? chunk_size self)).
    + match goal with
      | |- context [semantic_loop self doc page_nums rest ?l ?c (S (length chunks))] =>
          specialize (IH l c)
      end.
      rewrite length_app in IH. simpl in IH.
      replace (length chunks + 1)%nat with (S (length chunks)) in IH by lia.
      apply IH. apply numbered_snoc; [exact Hch|]. repeat split.
    + apply IH. exact Hch.
Qed.

Lemma semantic_chunking_numbered :
  forall j x, _semantic_chunking self txt doc page_nums !! j = Some x ->
              numbered doc page_nums j x.
Proof.
  unfold _semantic_chunking.
  pose proof (semantic_loop_numbered (re_split_paragraphs txt) [] []) as H.
  simpl in H.
  destruct (semantic_loop self doc page_nums (re_split_paragraphs txt) [] [] O)
    as [[chunks cur] i]. simpl in H.
  destruct H as [Hch Hi]; [intros j x Hj; rewrite lookup_nil in Hj; discriminate|].
  destruct (nonempty (strip cur)); [|exact Hch].
  apply numbered_snoc; [exact Hch|]. subst i. repeat split.
Qed.

Lemma recursive_chunking_numbered :
  forall j x, _recursive_chunking self txt doc page_nums !! j = Some x ->
              numbered doc page_nums j x.
Proof.
  intros j x Hj. unfold _recursive_chunking in Hj.
  rewrite list_lookup_imap in Hj.
  destruct (_recursive_split self txt separators 0 !! j); [|discriminate].
  simpl in Hj. inversion Hj. repeat split.
Qed.

End Numbering.

(** X9. Whatever the strategy, the chunks that [chunk_text] returns are
    numbered from zero without a gap: chunk [i] has [chunk_index = i],
    [chunk_id = f"{doc_id}_chunk_{i}"], the given [doc_id], and the page
    [page_nums[i]] when [page_nums] has that place and none otherwise; so
    the chunk ids of one call are pairwise different. *)
Theorem chunks_are_numbered (self : TextChunker) (txt : str) (doc : string)
    (page_nums : option (list Z)) (fuel : nat) (chunks : list ChunkMetadata) :
  chunk_text fuel self txt doc page_nums = Some (Ok chunks) ->
  (forall i c, chunks !! i = Some c -> numbered doc page_nums i c) /\
  NoDup (map chunk_id chunks).
Proof.
  intros Hrun.
  assert (Hnum : forall i c, chunks !! i = Some c -> numbered doc page_nums i c).
  { unfold chunk_text in Hrun.
    destruct (String.eqb (strategy self) FIXED).
    - unfold _fixed_size_chunking in Hrun.
      pose proof (fixed_loop_numbered self txt doc page_nums fuel 0 []) as H.
      simpl in H.
      destruct (fixed_loop fuel self txt doc page_nums 0 0 []) as [out|];
        [|discriminate].
      simpl in Hrun. inversion Hrun. subst. apply H.
      intros j x Hj. rewrite lookup_nil in Hj. discriminate.
    - destruct (String.eqb (strategy self) RECURSIVE).
      + inversion Hrun. apply recursive_chunking_numbered.
      + destruct (String.eqb (strategy self) SEMANTIC); [|discriminate].
        inversion Hrun. apply semantic_chunking_numbered. }
  split; [exact Hnum|].
  apply NoDup_alt. intros i j id Hi Hj.
  rewrite list_lookup_fmap in Hi, Hj.
  destruct (chunks !! i) as [ci|] eqn:Hci; [|discriminate].
  destruct (chunks !! j) as [cj|] eqn:Hcj; [|discriminate].
  simpl in Hi, Hj. inversion Hi. inversion Hj.
  destruct (Hnum i ci Hci) as (_ & Hidi & _).
  destruct (Hnum j cj Hcj) as (_ & Hidj & _).
  apply (chunk_id_of_inj doc). congruence.
Qed.

Lemma chunks_are_numbered_witness :
  ((forall i c,
      _semantic_chunking (__init__ (Some SEMANTIC) (Some 10) None)
        (chars "Para one." ++ [nl; nl] ++ chars "Para two.") "doc" (Some [7])
        !! i = Some c ->
      numbered "doc" (Some [7]) i c) /\
   NoDup (map chunk_id
            (_semantic_chunking (__init__ (Some SEMANTIC) (Some 10) None)
               (chars "Para one." ++ [nl; nl] ++ chars "Para two.") "doc"
               (Some [7])))) /\
  map (fun c => (c.(chunk_index), c.(chunk_id), c.(page_num), c.(text)))
    (_semantic_chunking (__init__ (Some SEMANTIC) (Some 10) None)
       (chars "Para one." ++ [nl; nl] ++ chars "Para two.") "doc" (Some [7]))
  = [(0%nat, "doc_chunk_0"%string, Some 7, chars "Para one.");
     (1%nat, "doc_chunk_1"%string, None, chars "Para two.")].
Proof.
  split; [|vm_compute; reflexivity].
  apply (chunks_are_numbered (__init__ (Some SEMANTIC) (Some 10) None)
           (chars "Para one." ++ [nl; nl] ++ chars "Para two.") "doc"
           (Some [7]) 0).
  reflexivity.
Defined.

(** ** Algebra of [strip] *)

Lemma lstrip_idem (s : str) : lstrip (lstrip s) = lstrip s.
Proof.
  induction s as [|c s IH]; [reflexivity|]. cbn [lstrip].
  destruct (isspace c) eqn:Hc; [exact IH|]. cbn [lstrip]. rewrite Hc.
  reflexivity.
Qed.

Lemma lstrip_app (a b : str) :
  lstrip (a ++ b) = if nonempty (lstrip a) then lstrip a ++ b else lstrip b.
Proof.
  induction a as [|c a IH]; [reflexivity|]. cbn [app lstrip].
  destruct (isspace c); [exact IH|]. reflexivity.
Qed.

Lemma rstrip_app (a b : str) :
  rstrip (a ++ b) = if nonempty (rstrip b) then a ++ rstrip b else rstrip a.
Proof.
  unfold rstrip. rewrite rev_app_distr, lstrip_app.
  destruct (lstrip (rev b)) as [|c r] eqn:E; [reflexivity|].
  assert (Hne : nonempty (rev (c :: r)) = true).
  { apply nonempty_true. intros E2.
    apply (f_equal (@length ascii)) in E2. rewrite length_rev in E2.
    discriminate. }
  rewrite Hne. change (nonempty (c :: r)) with true. cbv iota.
  rewrite rev_app_distr, rev_involutive. reflexivity.
Qed.

Lemma rstrip_idem (s : str) : rstrip (rstrip s) = rstrip s.
Proof.
  unfold rstrip. rewrite rev_involutive, lstrip_idem. reflexivity.
Qed.

Lemma content_rstrip (s : str) : content (rstrip s) = content s.
Proof.
  unfold rstrip. rewrite content_rev, content_lstrip, content_rev.
  apply rev_involutive.
Qed.

Lemma lstrip_nonempty_content (s : str) : lstrip s <> [] <-> content s <> [].
Proof.
  rewrite <- (content_lstrip s). split.
  - intros Hne. destruct (lstrip s) as [|c rest] eqn:E; [congruence|].
    apply lstrip_head in E. unfold content.
    rewrite filter_cons_True by exact E. discriminate.
  - intros Hc E. rewrite E in Hc. apply Hc. reflexivity.
Qed.

Lemma rstrip_nonempty_content (s : str) : rstrip s <> [] <-> content s <> [].
Proof.
  unfold rstrip. split.
  - intros H. assert (H' : lstrip (rev s) <> []).
    { intros E. rewrite E in H. apply H. reflexivity. }
    apply lstrip_nonempty_content in H'. rewrite content_rev in H'.
    intros E. rewrite E in H'. apply H'. reflexivity.
  - intros H E. apply (f_equal (@rev ascii)) in E. rewrite rev_involutive in E.
    simpl in E.
    assert (H' : content (rev s) <> []).
    { rewrite content_rev. intros E'. apply (f_equal (@rev ascii)) in E'.
      rewrite rev_involutive in E'. simpl in E'. contradiction. }
    apply lstrip_nonempty_content in H'. contradiction.
Qed.

Lemma lstrip_decompose (s : str) :
  exists w, s = w ++ lstrip s /\ content w = [].
Proof.
  induction s as [|c s (w & Hw & Hc)]; [exists []; split; reflexivity|].
  cbn [lstrip]. destruct (isspace c) eqn:E.
  - exists (c :: w). split; [simpl; congruence|].
    unfold content. rewrite filter_cons_False by congruence. exact Hc.
  - exists []. split; reflexivity.
Qed.

Lemma strip_trimmed (s : str) : trimmed (strip s).
Proof.
  unfold trimmed, strip. split; [apply lstrip_idem|].
  destruct (lstrip_decompose (rstrip s)) as (w & Hw & Hc).
  destruct (lstrip (rstrip s)) as [|c r] eqn:E; [reflexivity|].
  pose proof (rstrip_idem s) as Hid. rewrite Hw in Hid at 1.
  rewrite rstrip_app in Hid.
  assert (Hne : rstrip (c :: r) <> []).
  { apply rstrip_nonempty_content. pose proof (lstrip_head _ _ _ E) as Hc'.
    unfold content. rewrite filter_cons_True by exact Hc'. discriminate. }
  apply nonempty_true in Hne. rewrite Hne in Hid.
  rewrite Hw in Hid. apply app_inv_head in Hid. exact Hid.
Qed.

Lemma strip_of_trimmed (s : str) : trimmed s -> strip s = s.
Proof. intros [Hl Hr]. unfold strip. rewrite Hr. exact Hl. Qed.

Lemma trimmed_app (a b : str) :
  trimmed a -> a <> [] -> trimmed b -> b <> [] ->
  forall mid, trimmed (a ++ mid ++ b).
Proof.
  intros [Hla Hra] Ha [Hlb Hrb] Hb mid. split.
  - rewrite lstrip_app, Hla. apply nonempty_true in Ha. rewrite Ha.
    reflexivity.
  - rewrite app_assoc, rstrip_app, Hrb. apply nonempty_true in Hb.
    rewrite Hb. reflexivity.
Qed.

Lemma strip_break_of_trimmed (body : str) :
  trimmed body -> strip (body ++ [nl; nl]) = body.
Proof.
  intros Hb. unfold strip. rewrite rstrip_app.
  change (nonempty (rstrip [nl; nl])) with false. cbv iota.
  apply strip_of_trimmed. exact Hb.
Qed.

(** ** Content and size of the semantic chunks *)

Lemma content_nl_cons (s : str) : content (nl :: s) = content s.
Proof. unfold content. apply filter_cons_False. discriminate. Qed.

Lemma re_split_go_content (s : str) :
  forall inrun acc,
    (inrun = true -> acc = []) ->
    content (concat (re_split_go inrun acc s)) = content (rev acc) ++ content s.
Proof.
  induction s as [|c s IH]; intros inrun acc Hrun.
  - simpl. rewrite !app_nil_r. reflexivity.
  - cbn [re_split_go].
    destruct (inrun && Ascii.eqb c nl) eqn:E1.
    + apply andb_true_iff in E1. destruct E1 as [-> E1].
      apply Ascii.eqb_eq in E1. subst c. rewrite (Hrun eq_refl).
      rewrite IH by reflexivity. simpl rev. rewrite content_nl_cons.
      reflexivity.
    + destruct (startswith [nl; nl] (c :: s)) eqn:E2.
      * destruct (startswith_app _ _ E2) as [rest Hrest].
        simpl in Hrest. injection Hrest as Hc _. subst c.
        cbn [concat]. rewrite content_app, IH by reflexivity.
        simpl rev. rewrite content_nl_cons. reflexivity.
      * rewrite IH by discriminate. simpl rev.
        rewrite content_app, <- app_assoc. f_equal.
        change (c :: s) with ([c] ++ s). rewrite content_app. reflexivity.
Qed.

Lemma re_split_paragraphs_content (s : str) :
  content (concat (re_split_paragraphs s)) = content s.
Proof.
  unfold re_split_paragraphs. rewrite re_split_go_content by discriminate.
  reflexivity.
Qed.

Section SemanticContent.

Variables (self : TextChunker) (doc : string) (page_nums : option (list Z)).

Lemma semantic_loop_content (paragraphs : list str) :
  forall chunks cur i,
    content (concat (map text
               (semantic_loop self doc page_nums paragraphs chunks cur i).1.1))
    ++ content (semantic_loop self doc page_nums paragraphs chunks cur i).1.2
    = content (concat (map text chunks)) ++ content cur
      ++ content (concat paragraphs).
Proof.
  induction paragraphs as [|para0 rest IH]; intros chunks cur i.
  - simpl. rewrite app_nil_r. reflexivity.
  - cbn [semantic_loop concat]. rewrite content_app.
    destruct (nonempty (strip para0)) eqn:Hp; simpl negb; cbv iota.
    + assert (Hbuf : forall pre,
                content (pre ++ strip para0 ++ [nl; nl])
                = content pre ++ content para0).
      { intros pre. rewrite !content_app, content_strip.
        change (content [nl; nl]) with (@nil ascii). rewrite app_nil_r.
        reflexivity. }
      assert (Hbuf0 : content (strip para0 ++ [nl; nl]) = content para0)
        by exact (Hbuf []).
      destruct (nonempty cur && (len cur + len (strip para0) >? chunk_size self)).
      * rewrite IH. rewrite map_app, concat_app, content_app.
        cbn [map concat semantic_chunk text].
        rewrite app_nil_r, content_strip, Hbuf0, <- !app_assoc.
        reflexivity.
      * rewrite IH, Hbuf, <- !app_assoc. reflexivity.
    + apply nonempty_false in Hp. rewrite IH.
      rewrite <- (content_strip para0), Hp. reflexivity.
Qed.

End SemanticContent.

Lemma semantic_chunking_content (self : TextChunker) (txt : str) (doc : string)
    (page_nums : option (list Z)) :
  content (concat (map text (_semantic_chunking self txt doc page_nums)))
  = content txt.
Proof.
  unfold _semantic_chunking.
  pose proof (semantic_loop_content self doc page_nums
                (re_split_paragraphs txt) [] [] O) as H.
  rewrite re_split_paragraphs_content in H. simpl in H.
  destruct (semantic_loop self doc page_nums (re_split_paragraphs txt) [] [] O)
    as [[chunks cur] i]. simpl in H.
  destruct (nonempty (strip cur)) eqn:Hne.
  - rewrite map_app, concat_app, content_app. simpl.
    rewrite app_nil_r, content_strip. exact H.
  - apply nonempty_false in Hne. rewrite <- H.
    rewrite <- (content_strip cur), Hne, app_nil_r. reflexivity.
Qed.

(** X10. The semantic strategy keeps the text up to white space: the
    characters of the chunks that are not white space are exactly those of
    the input, in the same order.  Nothing is dropped and nothing is
    added. *)
Theorem semantic_keeps_content (self : TextChunker) (txt : str) (doc : string)
    (page_nums : option (list Z)) :
  content (concat (map text (_semantic_chunking self txt doc page_nums)))
  = content txt.
Proof. apply semantic_chunking_content. Qed.

Section SemanticPolicy.

Variables (self : TextChunker) (txt : str) (doc : string)
  (page_nums : option (list Z)).

Lemma buffer_ok_chunk (i : nat) (cur : str) :
  buffer_ok self txt cur -> cur <> [] ->
  semantic_chunk_ok self txt (semantic_chunk doc page_nums i cur).
Proof.
  intros [->|(body & -> & Htr & Hne & Hpol)] Hcur; [congruence|].
  unfold semantic_chunk_ok, within_policy. cbn [semantic_chunk text char_count].
  rewrite (strip_break_of_trimmed body Htr).
  repeat split; try assumption; try apply Htr.
  unfold len. rewrite length_app. simpl. lia.
Qed.

Lemma semantic_loop_policy (paragraphs : list str) :
  forall chunks cur i,
    incl paragraphs (re_split_paragraphs txt) ->
    Forall (semantic_chunk_ok self txt) chunks ->
    buffer_ok self txt cur ->
    Forall (semantic_chunk_ok self txt)
      (semantic_loop self doc page_nums paragraphs chunks cur i).1.1 /\
    buffer_ok self txt (semantic_loop self doc page_nums paragraphs chunks cur i).1.2.
Proof.
  induction paragraphs as [|para0 rest IH]; intros chunks cur i Hin Hch Hcur.
  - simpl. auto.
  - assert (Hrest : incl rest (re_split_paragraphs txt)).
    { intros x Hx. apply Hin. right. exact Hx. }
    assert (Hp0 : In (strip para0) (map strip (re_split_paragraphs txt))).
    { apply in_map. apply Hin. left. reflexivity. }
    cbn [semantic_loop].
    destruct (nonempty (strip para0)) eqn:Hp; simpl negb; cbv iota;
      [|apply IH; assumption].
    apply nonempty_true in Hp.
    assert (Hfresh : buffer_ok self txt (strip para0 ++ [nl; nl])).
    { right. exists (strip para0). repeat split; auto; apply strip_trimmed. }
    destruct (nonempty cur) eqn:Hne; simpl andb.
    + apply nonempty_true in Hne.
      destruct (len cur + len (strip para0) >? chunk_size self) eqn:Hgt.
      * apply IH; [assumption| |assumption].
        apply Forall_app. split; [exact Hch|].
        constructor; [|constructor]. apply buffer_ok_chunk; assumption.
      * apply IH; [assumption|assumption|].
        destruct Hcur as [->|(body & -> & Htr & Hb & _)]; [congruence|].
        right. exists (body ++ [nl; nl] ++ strip para0).
        split; [rewrite <- !app_assoc; reflexivity|].
        split; [apply trimmed_app; auto; apply strip_trimmed|].
        split; [destruct body; [congruence|discriminate]|].
        left. rewrite Z.gtb_ltb in Hgt. apply Z.ltb_ge in Hgt.
        unfold len in *. rewrite !length_app in *. simpl in *. lia.
    + apply nonempty_false in Hne. subst cur.
      apply IH; assumption.
Qed.

End SemanticPolicy.

(** X11. Size policy of the semantic strategy.  Every chunk is a trimmed,
    non-empty text; it is longer than [chunk_size] only when it is one whole
    (stripped) paragraph of the input, so paragraphs are never cut and never
    merged past the limit; and its [char_count] is the length of its text
    plus exactly two, the paragraph break that followed it in the buffer. *)
Theorem semantic_size_policy (self : TextChunker) (txt : str) (doc : string)
    (page_nums : option (list Z)) :
  Forall (semantic_chunk_ok self txt) (_semantic_chunking self txt doc page_nums).
Proof.
  unfold _semantic_chunking.
  pose proof (semantic_loop_policy self txt doc page_nums
                (re_split_paragraphs txt) [] [] O
                (incl_refl _) (List.Forall_nil _) (or_introl eq_refl)) as H.
  destruct (semantic_loop self doc page_nums (re_split_paragraphs txt) [] [] O)
    as [[chunks cur] i]. simpl in H. destruct H as [Hch Hcur].
  destruct (nonempty (strip cur)) eqn:Hne; [|exact Hch].
  apply Forall_app. split; [exact Hch|].
  constructor; [|constructor]. apply buffer_ok_chunk; [exact Hcur|].
  intros ->. discriminate.
Qed.

(** ** The fixed strategy: where it stops, overlap and coverage *)

Lemma slice_nonneg {A : Type} (l : list A) (a b : Z) :
  0 <= a -> 0 <= b ->
  slice l a b = take (Z.to_nat (b - a)) (drop (Z.to_nat a) l).
Proof.
  intros Ha Hb. unfold slice, clamp_index.
  pose proof (len_nonneg l) as Hl.
  destruct (Z.ltb_spec a 0); [lia|]. destruct (Z.ltb_spec b 0); [lia|].
  destruct (Z.le_gt_cases (len l) a) as [Hge|Hlt].
  - rewrite (Z.min_r a) by lia.
    rewrite (drop_ge l (Z.to_nat (len l))) by (unfold len; lia).
    rewrite (drop_ge l (Z.to_nat a)) by (unfold len in Hge; lia).
    rewrite !take_nil. reflexivity.
  - rewrite (Z.min_l a) by lia.
    destruct (Z.le_gt_cases b (len l)) as [Hb1|Hb1].
    + rewrite (Z.min_l b) by lia. reflexivity.
    + rewrite (Z.min_r b) by lia. rewrite !take_ge; [reflexivity| |];
        rewrite length_drop; unfold len in *; lia.
Qed.

Section FixedWindows.

Variables (self : TextChunker) (txt : str) (doc : string)
  (page_nums : option (list Z)).

Lemma fixed_loop_stops (fuel : nat) :
  forall (i : nat) (chunks out : list ChunkMetadata),
    length chunks = i ->
    fixed_loop fuel self txt doc page_nums (Z.of_nat i * stride self) i chunks
      = Some out ->
    len txt <= len out * stride self \/
    nonempty (strip (window self txt (length out))) = false.
Proof.
  induction fuel as [|fuel IH]; intros i chunks out Hlen Hrun;
    [discriminate|].
  cbn [fixed_loop] in Hrun.
  destruct (Z.ltb_spec (Z.of_nat i * stride self) (len txt)) as [Hlt|Hge].
  - fold (window self txt i) in Hrun.
    destruct (nonempty (strip (window self txt i))) eqn:Hblank;
      cbn [negb] in Hrun.
    + replace (Z.of_nat i * stride self + chunk_size self - chunk_overlap self)
        with (Z.of_nat (S i) * stride self) in Hrun by (unfold stride; lia).
      refine (IH (S i) _ out _ Hrun).
      rewrite length_app. simpl. lia.
    + injection Hrun as <-. right. rewrite Hlen. exact Hblank.
  - injection Hrun as <-. left. unfold len. rewrite Hlen. exact Hge.
Qed.

Hypothesis overlap_lt_size : self.(chunk_overlap) < self.(chunk_size).

Lemma fixed_windows (fuel : nat) :
  (length txt < fuel)%nat ->
  exists chunks,
    _fixed_size_chunking fuel self txt doc page_nums = Some chunks /\
    (forall j c, chunks !! j = Some c ->
       is_window self txt j c /\ live_window self txt j) /\
    (len txt <= len chunks * stride self \/
     nonempty (strip (window self txt (length chunks))) = false).
Proof.
  intros Hfuel.
  assert (Hs : 0 < stride self) by (unfold stride; lia).
  destruct (fixed_loop_layout self txt doc page_nums Hs fuel O [])
    as (out & Hrun & Hgood & _ & _).
  - unfold len. lia.
  - lia.
  - reflexivity.
  - pose proof (len_nonneg txt). lia.
  - intros j c Hj. rewrite lookup_nil in Hj. discriminate.
  - exists out. split; [exact Hrun|]. split.
    + intros j c Hj. pose proof (Hgood j c Hj) as Hw. split; [exact Hw|].
      destruct Hw as (_ & Htext & Hstart). split; [exact Hstart|].
      pose proof (fixed_loop_nonblank self txt doc page_nums fuel 0 O []
                    (List.Forall_nil _)) as Hnb.
      change (Z.of_nat 0 * stride self) with 0 in Hrun.
      rewrite Hrun in Hnb. rewrite List.Forall_forall in Hnb.
      apply nonempty_true. rewrite <- Htext. apply Hnb.
      apply list_elem_of_lookup_2 in Hj.
      apply list_elem_of_In. exact Hj.
    + apply (fixed_loop_stops fuel O [] out eq_refl). exact Hrun.
Qed.

End FixedWindows.

(** X12. Where the fixed strategy stops.  With [chunk_overlap < chunk_size]
    the chunks are exactly the windows before the first one that is blank
    or starts past the end of the text: there is a chunk [j] if and only if
    every window up to [j] starts inside the text and is not blank.  What
    follows a blank window is not chunked. *)
Theorem fixed_stops_at_blank_window (self : TextChunker) (txt : str) (doc : string)
    (page_nums : option (list Z)) (fuel : nat) :
  self.(chunk_overlap) < self.(chunk_size) ->
  (length txt < fuel)%nat ->
  exists chunks,
    _fixed_size_chunking fuel self txt doc page_nums = Some chunks /\
    forall j, (j < length chunks)%nat <->
              (forall k, (k <= j)%nat -> live_window self txt k).
Proof.
  intros Hov Hfuel.
  destruct (fixed_windows self txt doc page_nums Hov fuel Hfuel)
    as (chunks & Hrun & Hwin & Hstop).
  exists chunks. split; [exact Hrun|]. intros j. split.
  - intros Hj k Hk.
    destruct (lookup_lt_is_Some_2 chunks k ltac:(lia)) as [c Hc].
    apply (Hwin k c Hc).
  - intros Hall.
    destruct (Nat.lt_ge_cases j (length chunks)) as [Hlt|Hge]; [exact Hlt|].
    destruct (Hall (length chunks) Hge) as [Hstart Hlive].
    destruct Hstop as [Hend|Hblank].
    + unfold len in *. lia.
    + rewrite Hblank in Hlive. discriminate.
Qed.

Lemma fixed_stops_at_blank_window_witness :
  exists chunks,
    _fixed_size_chunking 12 (__init__ (Some FIXED) (Some 4) (Some 2))
      (chars "abcd    efg") "doc" None = Some chunks /\
    forall j, (j < length chunks)%nat <->
              (forall k, (k <= j)%nat ->
                 live_window (__init__ (Some FIXED) (Some 4) (Some 2))
                   (chars "abcd    efg") k).
Proof.
  apply (fixed_stops_at_blank_window (__init__ (Some FIXED) (Some 4) (Some 2))
           (chars "abcd    efg") "doc" None 12); [simpl; lia | simpl; lia].
Defined.

Section FixedOverlap.

Variables (self : TextChunker) (txt : str).
Hypothesis overlap_range : 0 <= self.(chunk_overlap) < self.(chunk_size).

Let s := Z.to_nat (stride self).
Let o := Z.to_nat self.(chunk_overlap).

Lemma window_take_drop (i : nat) :
  window self txt i = take (s + o) (drop (i * s) txt).
Proof.
  unfold window, s, o, stride in *.
  rewrite slice_nonneg by nia. f_equal.
  - lia.
  - f_equal. rewrite Z2Nat.inj_mul by lia. rewrite Nat2Z.id. reflexivity.
Qed.

Lemma window_length (i : nat) : len (window self txt i) <= self.(chunk_size).
Proof.
  rewrite window_take_drop. unfold len. rewrite length_take.
  unfold s, o, stride. lia.
Qed.

Lemma window_overlap (i : nat) :
  drop s (window self txt i) = take o (window self txt (S i)).
Proof.
  rewrite !window_take_drop.
  rewrite <- (take_drop_commute (drop (i * s) txt) o s).
  rewrite drop_drop, take_take.
  replace (o `min` (s + o))%nat with o by lia.
  replace (i * s + s)%nat with (S i * s)%nat by lia. reflexivity.
Qed.

Lemma stitch_snoc (texts : list str) (w : str) :
  texts <> [] ->
  stitch self.(chunk_overlap) (texts ++ [w])
  = stitch self.(chunk_overlap) texts ++ drop o w.
Proof.
  destruct texts as [|t rest]; [congruence|]. intros _.
  cbn [stitch app]. rewrite map_app, concat_app. simpl.
  rewrite app_nil_r, app_assoc. reflexivity.
Qed.

Lemma stitch_windows (m : nat) :
  stitch self.(chunk_overlap) (map (window self txt) (seq 0 (S m)))
  = take (m * s + (s + o)) txt.
Proof.
  induction m as [|m IH].
  - cbn [seq map stitch concat]. rewrite app_nil_r, window_take_drop.
    reflexivity.
  - rewrite (seq_S (S m)), map_app. cbn [map].
    rewrite stitch_snoc by discriminate. rewrite IH. cbn [Nat.add].
    rewrite window_take_drop.
    replace (s + o)%nat with (o + s)%nat at 2 by lia.
    rewrite <- (take_drop_commute (drop (S m * s) txt) s o).
    rewrite drop_drop.
    replace (S m * s + o)%nat with (m * s + (s + o))%nat by lia.
    rewrite take_take_drop. f_equal. lia.
Qed.

Lemma texts_are_windows (chunks : list ChunkMetadata) :
  (forall j c, chunks !! j = Some c -> is_window self txt j c) ->
  map text chunks = map (window self txt) (seq 0 (length chunks)).
Proof.
  induction chunks as [|x l IH] using rev_ind; intros Hwin; [reflexivity|].
  rewrite length_app, Nat.add_1_r, seq_S, !map_app. cbn [map Nat.add]. f_equal.
  - apply IH. intros j c Hj. apply Hwin. apply lookup_app_l_Some. exact Hj.
  - f_equal. apply (Hwin (length l) x). apply list_lookup_middle. reflexivity.
Qed.

End FixedOverlap.

(** X13. Overlap of the fixed strategy.  With
    [0 <= chunk_overlap < chunk_size] every chunk has between one and
    [chunk_size] characters, and two successive chunks share exactly the
    overlap: what is left of a chunk after [chunk_size - chunk_overlap]
    characters is the first [chunk_overlap] characters of the next one. *)
Theorem fixed_chunks_overlap (self : TextChunker) (txt : str) (doc : string)
    (page_nums : option (list Z)) (fuel : nat) :
  0 <= self.(chunk_overlap) < self.(chunk_size) ->
  (length txt < fuel)%nat ->
  exists chunks,
    _fixed_size_chunking fuel self txt doc page_nums = Some chunks /\
    Forall (fun c => 0 < len c.(text) <= self.(chunk_size)) chunks /\
    forall i a b,
      chunks !! i = Some a -> chunks !! S i = Some b ->
      drop (Z.to_nat (stride self)) a.(text)
      = take (Z.to_nat self.(chunk_overlap)) b.(text).
Proof.
  intros Hov Hfuel.
  destruct (fixed_windows self txt doc page_nums (proj2 Hov) fuel Hfuel)
    as (chunks & Hrun & Hwin & _).
  exists chunks. split; [exact Hrun|]. split.
  - apply List.Forall_forall. intros c Hc. apply list_elem_of_In in Hc.
    apply list_elem_of_lookup_1 in Hc. destruct Hc as [j Hj].
    destruct (Hwin j c Hj) as [(_ & Htext & _) [_ Hlive]].
    rewrite Htext. split; [|apply window_length; exact Hov].
    destruct (window self txt j) as [|ch rest] eqn:E; [discriminate|].
    unfold len. simpl. lia.
  - intros i a b Ha Hb.
    destruct (Hwin i a Ha) as [(_ & -> & _) _].
    destruct (Hwin (S i) b Hb) as [(_ & -> & _) _].
    apply window_overlap. exact Hov.
Qed.

Lemma fixed_chunks_overlap_witness :
  exists chunks,
    _fixed_size_chunking 11 (__init__ (Some FIXED) (Some 4) (Some 1))
      (chars "abcdefghij") "doc" None = Some chunks /\
    Forall (fun c => 0 < len c.(text) <= 4) chunks /\
    forall i a b,
      chunks !! i = Some a -> chunks !! S i = Some b ->
      drop 3 a.(text) = take 1 b.(text).
Proof.
  apply (fixed_chunks_overlap (__init__ (Some FIXED) (Some 4) (Some 1))
           (chars "abcdefghij") "doc" None 11); [simpl; lia | simpl; lia].
Defined.

(** X14. Coverage of the fixed strategy.  With
    [0 <= chunk_overlap < chunk_size], putting the chunks together again
    without the repeated overlaps gives a prefix of the text, and the whole
    text when no window that starts inside it is blank. *)
Theorem fixed_chunks_cover (self : TextChunker) (txt : str) (doc : string)
    (page_nums : option (list Z)) (fuel : nat) :
  0 <= self.(chunk_overlap) < self.(chunk_size) ->
  (length txt < fuel)%nat ->
  exists chunks,
    _fixed_size_chunking fuel self txt doc page_nums = Some chunks /\
    (exists k, stitch self.(chunk_overlap) (map text chunks) = take k txt) /\
    ((forall i, Z.of_nat i * stride self < len txt ->
                nonempty (strip (window self txt i)) = true) ->
     stitch self.(chunk_overlap) (map text chunks) = txt).
Proof.
  intros Hov Hfuel.
  destruct (fixed_windows self txt doc page_nums (proj2 Hov) fuel Hfuel)
    as (chunks & Hrun & Hwin & Hstop).
  exists chunks. split; [exact Hrun|].
  assert (Htexts : map text chunks
                   = map (window self txt) (seq 0 (length chunks))).
  { apply texts_are_windows. intros j c Hj. apply (Hwin j c Hj). }
  rewrite Htexts.
  destruct (length chunks) as [|m] eqn:Hn.
  - split; [exists O; rewrite take_0; reflexivity|].
    intros Hall. cbn [seq map stitch].
    destruct Hstop as [Hend|Hblank].
    + destruct txt; [reflexivity|]. unfold len in Hend. rewrite Hn in Hend.
      simpl in Hend. lia.
    + destruct txt as [|ch rest]; [reflexivity|].
      rewrite Hall in Hblank; [discriminate|]. unfold len. simpl. lia.
  - rewrite (stitch_windows self txt Hov m). split; [eexists; reflexivity|].
    intros Hall. apply take_ge.
    destruct Hstop as [Hend|Hblank].
    + unfold len, stride in *. rewrite Hn in Hend. nia.
    + destruct (Z.lt_ge_cases (Z.of_nat (S m) * stride self) (len txt))
        as [Hlt|Hge].
      * rewrite (Hall _ Hlt) in Hblank. discriminate.
      * unfold len, stride in *. nia.
Qed.

Lemma fixed_chunks_cover_witness :
  exists chunks,
    _fixed_size_chunking 11 (__init__ (Some FIXED) (Some 4) (Some 1))
      (chars "abcdefghij") "doc" None = Some chunks /\
    (exists k, stitch 1 (map text chunks) = take k (chars "abcdefghij")) /\
    ((forall i, Z.of_nat i * 3 < 10 ->
        nonempty (strip (window (__init__ (Some FIXED) (Some 4) (Some 1))
                           (chars "abcdefghij") i)) = true) ->
     stitch 1 (map text chunks) = chars "abcdefghij").
Proof.
  apply (fixed_chunks_cover (__init__ (Some FIXED) (Some 4) (Some 1))
           (chars "abcdefghij") "doc" None 11); [simpl; lia | simpl; lia].
Defined.

(** ** Blank and short texts *)

Lemma content_take_blank (s : str) (n : nat) :
  content s = [] -> content (take n s) = [].
Proof.
  revert n. induction s as [|c s IH]; intros [|n] H; try reflexivity.
  unfold content in *. cbn [take]. destruct (decide (isspace c = false)) as [Hc|Hc].
  - rewrite filter_cons_True in H by exact Hc. discriminate.
  - rewrite filter_cons_False in * by exact Hc. apply IH. exact H.
Qed.

Lemma content_drop_blank (s : str) (n : nat) :
  content s = [] -> content (drop n s) = [].
Proof.
  revert n. induction s as [|c s IH]; intros [|n] H; try reflexivity;
    [exact H|].
  unfold content in *. cbn [drop]. destruct (decide (isspace c = false)) as [Hc|Hc].
  - rewrite filter_cons_True in H by exact Hc. discriminate.
  - rewrite filter_cons_False in H by exact Hc. apply IH. exact H.
Qed.

Lemma strip_blank (s : str) : content s = [] -> strip s = [].
Proof.
  intros H. destruct (strip s) eqn:E; [reflexivity|].
  exfalso. assert (Hne : strip s <> []) by (rewrite E; discriminate).
  apply strip_nonempty_content in Hne. contradiction.
Qed.

Lemma strip_app_break (s : str) : strip (s ++ [nl; nl]) = strip s.
Proof.
  unfold strip. rewrite rstrip_app.
  change (nonempty (rstrip [nl; nl])) with false. reflexivity.
Qed.

Lemma split_loop_fits (chunk_size : Z) (sep : str) (recur : str -> list str)
    (splits : list str) :
  sep <> [] ->
  forall chunks cur,
    len cur + len (concat (map (fun piece => piece ++ sep) splits)) <= chunk_size ->
    split_loop chunk_size sep recur splits chunks cur
    = (chunks, cur ++ concat (map (fun piece => piece ++ sep) splits)).
Proof.
  intros Hsep. apply nonempty_true in Hsep.
  induction splits as [|piece rest IH]; intros chunks cur Hfit.
  - simpl. rewrite app_nil_r. reflexivity.
  - cbn [split_loop map concat] in *. rewrite Hsep.
    rewrite len_app in Hfit.
    pose proof (len_nonneg (concat (map (fun piece => piece ++ sep) rest))).
    destruct (Z.leb_spec (len cur + len (piece ++ sep)) chunk_size) as [_|Hgt];
      [|lia].
    rewrite IH by (rewrite len_app; lia).
    rewrite <- app_assoc. reflexivity.
Qed.

(** X15. Texts without content.  The semantic strategy returns no chunk
    exactly when the text holds no character other than white space; on
    such a text the fixed strategy returns no chunk either, at its first
    iteration. *)
Theorem blank_text_no_chunks (self : TextChunker) (txt : str) (doc : string)
    (page_nums : option (list Z)) :
  (_semantic_chunking self txt doc page_nums = [] <-> content txt = []) /\
  (content txt = [] ->
   forall fuel, _fixed_size_chunking (S fuel) self txt doc page_nums = Some []).
Proof.
  split; [split|].
  - intros H. rewrite <- (semantic_chunking_content self txt doc page_nums), H.
    reflexivity.
  - intros H.
    pose proof (semantic_chunking_content self txt doc page_nums) as Hc.
    pose proof (proj1 (fixed_and_semantic_nonblank self txt doc page_nums O))
      as Hnb.
    destruct (_semantic_chunking self txt doc page_nums) as [|c rest];
      [reflexivity|].
    exfalso. apply List.Forall_inv in Hnb. apply strip_nonempty_content in Hnb.
    apply Hnb. cbn [map concat] in Hc. rewrite content_app, H in Hc.
    apply app_eq_nil in Hc. apply Hc.
  - intros H fuel. unfold _fixed_size_chunking. cbn [fixed_loop].
    destruct (0 <? len txt); [|reflexivity].
    rewrite strip_blank; [reflexivity|].
    unfold slice. apply content_take_blank, content_drop_blank. exact H.
Qed.

(** X16. Short texts under the recursive strategy.  A text with
    [len(text) + 2 <= chunk_size], the two being the paragraph separator
    that is appended before the comparison, is returned as one chunk, its
    stripped self, and as no chunk when it is blank. *)
Theorem recursive_short_text (self : TextChunker) (txt : str) (doc : string)
    (page_nums : option (list Z)) :
  len txt + 2 <= self.(chunk_size) ->
  map text (_recursive_chunking self txt doc page_nums)
  = if nonempty (strip txt) then [strip txt] else [].
Proof.
  intros Hfit. rewrite recursive_chunking_text.
  unfold _recursive_split. cbn [drop separators recursive_split_from nonempty].
  rewrite split_loop_fits.
  - cbn [app]. rewrite split_concat by discriminate.
    rewrite strip_app_break. reflexivity.
  - discriminate.
  - rewrite split_concat by discriminate. rewrite len_app.
    change (len [nl; nl]) with 2. change (len (@nil ascii)) with 0. lia.
Qed.

Lemma recursive_short_text_witness :
  map text (_recursive_chunking (__init__ (Some RECURSIVE) (Some 20) None)
              (chars " hello world ") "doc" None)
  = if nonempty (strip (chars " hello world "))
    then [strip (chars " hello world ")] else [].
Proof.
  apply (recursive_short_text (__init__ (Some RECURSIVE) (Some 20) None)
           (chars " hello world ") "doc" None).
  vm_compute. discriminate.
Defined.

(** * Properties of the PDF parser *)

Lemma StronglySorted_snoc {A : Type} (R : A -> A -> Prop) (l : list A) (y : A) :
  StronglySorted R l -> Forall (fun x => R x y) l -> StronglySorted R (l ++ [y]).
Proof.
  induction 1 as [|x l Hl IH Hx]; intros Hy; simpl.
  - repeat constructor.
  - apply List.Forall_cons_iff in Hy. destruct Hy as [Hxy Hy].
    constructor; [apply IH; exact Hy|].
    apply Forall_app. split; [exact Hx|]. constructor; [exact Hxy|constructor].
Qed.

Lemma page_kept (t : str) :
  nonempty t && nonempty (strip t) = true <-> strip t <> [].
Proof.
  rewrite andb_true_iff, !nonempty_true. split; [tauto|].
  intros H. split; [|exact H]. intros ->. apply H. reflexivity.
Qed.

Section PageLoop.

Variable all : PdfParser.Reader.

Lemma page_loop_reads (pages : PdfParser.Reader) :
  forall done texts numbers,
    all = done ++ pages ->
    pages_read all done texts numbers ->
    pages_read all all
      (PdfParser.page_loop pages (length done) texts numbers).1
      (PdfParser.page_loop pages (length done) texts numbers).2.
Proof.
  induction pages as [|page rest IH]; intros done texts numbers Hall Hinv.
  - rewrite app_nil_r in Hall. subst done. exact Hinv.
  - assert (Hall' : all = (done ++ [page]) ++ rest)
      by (rewrite <- app_assoc; exact Hall).
    assert (Hlen : length (done ++ [page]) = S (length done))
      by (rewrite length_app; simpl; lia).
    assert (Hpage : all !! length done = Some page)
      by (rewrite Hall; apply list_lookup_middle; reflexivity).
    assert (Hlast : forall n, n <= len (done ++ [page]) ->
                      n <= len done \/ n = Z.of_nat (length done) + 1)
      by (intros n; unfold len; rewrite Hlen; lia).
    assert (Hidx : Z.to_nat (Z.of_nat (length done) + 1 - 1) = length done)
      by lia.
    destruct Hinv as (Hsorted & Hmem & Htexts).
    assert (Hskip : (forall t, page = Ok t -> strip t = []) ->
                    pages_read all (done ++ [page]) texts numbers).
    { intros Hblank. split; [exact Hsorted|]. split; [|exact Htexts].
      intros n. rewrite Hmem. split.
      - intros [Hn Hle]. split; [exact Hn|]. unfold len in *. lia.
      - intros [Hn Hle]. split; [exact Hn|].
        destruct (Hlast n Hle) as [Hd | ->]; [exact Hd|]. exfalso.
        destruct Hn as (_ & t & Ht & Hne). rewrite Hidx, Hpage in Ht.
        injection Ht as ->. apply Hne. apply Hblank. reflexivity. }
    cbn [PdfParser.page_loop]. rewrite <- Hlen.
    destruct page as [t|e]; [|apply (IH _ _ _ Hall'), Hskip; discriminate].
    destruct (nonempty t && nonempty (strip t)) eqn:Hkeep.
    + apply page_kept in Hkeep. apply (IH _ _ _ Hall').
      assert (Hhas : has_text all (Z.of_nat (length done) + 1)).
      { split; [lia|]. exists t. rewrite Hidx. split; assumption. }
      split; [|split].
      * apply StronglySorted_snoc; [exact Hsorted|].
        apply List.Forall_forall. intros n Hn. apply Hmem in Hn.
        unfold len in Hn. lia.
      * intros n. rewrite in_app_iff, Hmem. simpl. split.
        -- intros [[Hn Hle] | [<- | []]].
           ++ split; [exact Hn|]. unfold len in *. lia.
           ++ split; [exact Hhas|]. unfold len. lia.
        -- intros [Hn Hle]. destruct (Hlast n Hle) as [Hd | ->]; auto.
      * rewrite map_app, <- Htexts. cbn [map]. unfold page_text.
        rewrite Hidx, Hpage. reflexivity.
    + apply (IH _ _ _ Hall'), Hskip. intros t' Ht'. injection Ht' as <-.
      destruct (strip t) eqn:E; [reflexivity|].
      assert (Hne : strip t <> []) by (rewrite E; discriminate).
      apply page_kept in Hne. congruence.
Qed.

End PageLoop.

(** X17. Pages of a parsed PDF.  When [parse_pdf] returns, the page
    numbers of the metadata are strictly increasing, they are exactly the
    pages (counted from one) whose extraction succeeded with a text that is
    not blank, there is at least one, their count is
    [text_extracted_pages], and the text is the texts of those pages
    joined by blank lines.  It raises [PDFParseError] exactly when no page
    has such a text. *)
Theorem parse_pdf_pages (pages : PdfParser.Reader) :
  match PdfParser.parse_pdf (Some pages) with
  | PdfParser.Parsed full_text md =>
      StronglySorted Z.lt md.(PdfParser.page_numbers) /\
      (forall n, In n md.(PdfParser.page_numbers) <-> has_text pages n) /\
      md.(PdfParser.page_numbers) <> [] /\
      md.(PdfParser.text_extracted_pages) = len md.(PdfParser.page_numbers) /\
      md.(PdfParser.num_pages) = len pages /\
      full_text
      = PdfParser.join [nl; nl] (map (page_text pages) md.(PdfParser.page_numbers))
  | PdfParser.PDFParseError => forall n, ~ has_text pages n
  end.
Proof.
  unfold PdfParser.parse_pdf.
  pose proof (page_loop_reads pages pages [] [] [] eq_refl) as H.
  simpl length in H.
  destruct (PdfParser.page_loop pages 0 [] []) as [texts numbers].
  simpl in H. destruct H as (Hsorted & Hmem & Htexts).
  { split; [constructor|]. split; [|reflexivity].
    intros n. simpl. split; [tauto|]. intros [[Hn _] Hle].
    unfold len in Hle. simpl in Hle. lia. }
  assert (Hin : forall n, In n numbers <-> has_text pages n).
  { intros n. rewrite Hmem. split; [tauto|]. intros Hn. split; [exact Hn|].
    destruct Hn as (H1 & t & Ht & _). apply lookup_lt_Some in Ht.
    unfold len. lia. }
  destruct (nonempty texts) eqn:Hne; cbn [negb].
  - split; [exact Hsorted|]. split; [exact Hin|]. cbn.
    split; [|split; [|split; [reflexivity|]]].
    + intros ->. subst texts. discriminate.
    + subst texts. unfold len. rewrite length_map. reflexivity.
    + subst texts. reflexivity.
  - intros n Hn. apply Hin in Hn. apply nonempty_false in Hne.
    subst texts. destruct numbers; [contradiction|discriminate].
Qed.

(** * Properties of the document service *)

Lemma newer_total (x y : DocumentService.DocumentMetadata) :
  DocumentService.newer x y = false -> DocumentService.newer y x = true.
Proof. unfold DocumentService.newer. lia. Qed.

Lemma newer_trans (x y z : DocumentService.DocumentMetadata) :
  DocumentService.newer x y = true -> DocumentService.newer y z = true ->
  DocumentService.newer x z = true.
Proof. unfold DocumentService.newer. lia. Qed.

Lemma list_loop_members (self : DocumentService.DocumentService)
    (session : string) (files : list string) :
  forall documents m,
    In m (DocumentService.list_loop self files session documents) <->
    In m documents \/ exists f, In f files /\ owned_by self session f m.
Proof.
  induction files as [|f rest IH]; intros documents m.
  - simpl. split; [auto|]. intros [H|(f & [] & _)]. exact H.
  - cbn [DocumentService.list_loop].
    assert (Hskip : (forall d, ~ owned_by self session f d) ->
              (In m documents \/ (exists f0, In f0 rest /\ owned_by self session f0 m))
              <-> (In m documents \/
                   (exists f0, In f0 (f :: rest) /\ owned_by self session f0 m))).
    { intros Hno. split.
      - intros [H|(f0 & Hf0 & Hown)]; [auto|]. right. exists f0. simpl. auto.
      - intros [H|(f0 & [<- | Hf0] & Hown)]; [auto| |].
        + exfalso. apply (Hno m Hown).
        + right. exists f0. auto. }
    destruct (DocumentService.metadata_dir self !! f) as [[data|]|] eqn:Hf.
    + destruct (String.eqb_spec (DocumentService.session_id data) session) as [Hs|Hs].
      * rewrite IH, in_app_iff. simpl. split.
        -- intros [[H | [<- | []]] | (f0 & Hf0 & Hown)].
           ++ auto.
           ++ right. exists f. split; [auto|]. split; assumption.
           ++ right. exists f0. auto.
        -- intros [H | (f0 & [<- | Hf0] & Hown)].
           ++ auto.
           ++ destruct Hown as [Hd _]. rewrite Hf in Hd. injection Hd as <-.
              auto.
           ++ right. exists f0. auto.
      * rewrite IH. apply Hskip. intros d [Hd Hsd]. rewrite Hf in Hd.
        injection Hd as <-. contradiction.
    + rewrite IH. apply Hskip. intros d [Hd _]. rewrite Hf in Hd. discriminate.
    + rewrite IH. apply Hskip. intros d [Hd _]. rewrite Hf in Hd. discriminate.
Qed.

(** X18. Listing the documents of a session.  Whatever the order in which
    the directory is listed, [list_documents_by_session] returns the
    documents newest first; a document is returned exactly when one of the
    listed metadata files holds it and names the session, so unreadable
    files and the documents of other sessions are left out; and
    [get_document_count_by_session] is the length of that list. *)
Theorem list_documents_newest_first (self : DocumentService.DocumentService)
    (files : list string) (session : string) :
  StronglySorted not_older
    (DocumentService.list_documents_by_session self files session) /\
  (forall m,
     In m (DocumentService.list_documents_by_session self files session) <->
     exists f, In f files /\ owned_by self session f m) /\
  DocumentService.get_document_count_by_session self files session
  = len (DocumentService.list_documents_by_session self files session).
Proof.
  unfold DocumentService.list_documents_by_session. split; [|split].
  - eapply StronglySorted_weaken;
      [|apply (sort_by_sorted DocumentService.newer newer_total newer_trans)].
    intros a b Hab. unfold not_older, DocumentService.newer in *. lia.
  - intros m.
    assert (Hperm := sort_by_perm DocumentService.newer
                       (DocumentService.list_loop self files session [])).
    split.
    + intros Hin. apply (Permutation_in _ Hperm) in Hin.
      apply list_loop_members in Hin. destruct Hin as [[]|H]. exact H.
    + intros H. apply (Permutation_in _ (Permutation_sym Hperm)).
      apply list_loop_members. right. exact H.
  - reflexivity.
Qed.

(** ** Deleting a document *)

Lemma lookup_entry_ext (a b : VectorStoreService) (doc : string) :
  a.(_cache) !! doc = b.(_cache) !! doc ->
  a.(disk) !! doc = b.(disk) !! doc ->
  lookup_entry a doc = lookup_entry b doc.
Proof.
  intros Hc Hd. unfold lookup_entry, _load_document. rewrite Hc, Hd.
  destruct (_cache b !! doc); [reflexivity|].
  destruct (disk b !! doc) as [[e|]|]; reflexivity.
Qed.

Lemma vector_delete_gone (vs : VectorStoreService) (doc : string) :
  document_exists (VectorStore.delete_document vs doc false).1 doc = false.
Proof.
  unfold document_exists, VectorStore.delete_document.
  destruct (disk vs !! doc) eqn:Hd; simpl; rewrite lookup_delete_eq.
  - rewrite lookup_delete_eq. apply bool_decide_eq_false.
    intros [x Hx]. discriminate.
  - rewrite Hd. apply bool_decide_eq_false. intros [x Hx]. discriminate.
Qed.

Lemma document_delete_owned (self : DocumentService.DocumentService)
    (doc session : string) (m : DocumentService.DocumentMetadata)
    (fs : DocumentService.unlinks) :
  owned_by self session doc m ->
  DocumentService.delete_document self doc session fs
  = if bool_decide (doc ∈ DocumentService.documents_dir self)
       && DocumentService.pdf_unlink_fails fs
    then ({| DocumentService.documents_dir :=
               DocumentService.documents_dir self;
             DocumentService.metadata_dir :=
               DocumentService.metadata_dir self;
             DocumentService.vector_service :=
               (VectorStore.delete_document
                  (DocumentService.vector_service self) doc
                  (DocumentService.pkl_unlink_fails fs)).1 |}, false)
    else if DocumentService.json_unlink_fails fs
    then ({| DocumentService.documents_dir :=
               DocumentService.documents_dir self ∖ {[doc]};
             DocumentService.metadata_dir :=
               DocumentService.metadata_dir self;
             DocumentService.vector_service :=
               (VectorStore.delete_document
                  (DocumentService.vector_service self) doc
                  (DocumentService.pkl_unlink_fails fs)).1 |}, false)
    else ({| DocumentService.documents_dir :=
               DocumentService.documents_dir self ∖ {[doc]};
             DocumentService.metadata_dir :=
               delete doc (DocumentService.metadata_dir self);
             DocumentService.vector_service :=
               (VectorStore.delete_document
                  (DocumentService.vector_service self) doc
                  (DocumentService.pkl_unlink_fails fs)).1 |}, true).
Proof.
  intros [Hd Hs].
  unfold DocumentService.delete_document, DocumentService.get_document_metadata.
  rewrite Hd, Hs, String.eqb_refl. reflexivity.
Qed.

Lemma document_delete_refused (self : DocumentService.DocumentService)
    (doc session : string) (fs : DocumentService.unlinks) :
  (forall m, ~ owned_by self session doc m) ->
  DocumentService.delete_document self doc session fs = (self, false).
Proof.
  intros Hno.
  unfold DocumentService.delete_document, DocumentService.get_document_metadata.
  destruct (DocumentService.metadata_dir self !! doc) as [[data|]|] eqn:Hd;
    try reflexivity.
  destruct (String.eqb_spec (DocumentService.session_id data) session)
    as [Hs|Hs]; [|reflexivity].
  exfalso. apply (Hno data). split; assumption.
Qed.

Lemma owned_by_dec (self : DocumentService.DocumentService)
    (doc session : string) :
  (exists m, owned_by self session doc m) \/
  (forall m, ~ owned_by self session doc m).
Proof.
  unfold owned_by.
  destruct (DocumentService.metadata_dir self !! doc) as [[data|]|] eqn:Hd.
  - destruct (String.eqb_spec (DocumentService.session_id data) session)
      as [Hs|Hs].
    + left. exists data. split; [reflexivity|exact Hs].
    + right. intros m [Hm Hsm]. injection Hm as <-. contradiction.
  - right. intros m [Hm _]. discriminate.
  - right. intros m [Hm _]. discriminate.
Qed.

Lemma same_document_refl (self : DocumentService.DocumentService)
    (other : string) :
  same_document self self other.
Proof. repeat split; auto. Qed.

Lemma plain_service_sample : plain_service sample_service.
Proof.
  split; [apply plain_files_init|]. split.
  - intros doc Hdoc. cbn in Hdoc. apply elem_of_empty in Hdoc. destruct Hdoc.
  - intros doc [f Hf]. cbn in Hf. rewrite lookup_empty in Hf. discriminate.
Qed.

Lemma plain_service_sample_1 : plain_service sample_service_1.
Proof.
  split; [|split].
  - apply plain_files_store; [reflexivity|apply plain_files_init].
  - intros doc Hdoc. cbn in Hdoc. apply elem_of_singleton in Hdoc.
    subst doc. reflexivity.
  - intros doc [f Hf]. cbn in Hf. apply lookup_singleton_Some in Hf.
    destruct Hf as [<- _]. reflexivity.
Qed.

(** *** Plain names in the service *)

Lemma plain_service_within (self : DocumentService.DocumentService)
    (docs' : gset string) (metas' : gmap string DocumentService.json_file)
    (vs' : VectorStoreService) (doc : string) :
  plain doc = true ->
  plain_service self ->
  plain_files vs' ->
  (forall d, d ∈ docs' -> d ∈ DocumentService.documents_dir self \/ d = doc) ->
  (forall d, is_Some (metas' !! d) ->
             is_Some (DocumentService.metadata_dir self !! d) \/ d = doc) ->
  plain_service {| DocumentService.documents_dir := docs';
                   DocumentService.metadata_dir := metas';
                   DocumentService.vector_service := vs' |}.
Proof.
  intros Hdoc (Hvs & Hdocs & Hmetas) Hvs' Hd Hm. split; [exact Hvs'|]. split.
  - intros d Hin. cbn in Hin. destruct (Hd d Hin) as [H | ->]; auto.
  - intros d Hin. cbn in Hin. destruct (Hm d Hin) as [H | ->]; auto.
Qed.

Lemma plain_service_delete (self : DocumentService.DocumentService)
    (doc session : string) (fs : DocumentService.unlinks) :
  plain doc = true ->
  plain_service self ->
  plain_service (DocumentService.delete_document self doc session fs).1.
Proof.
  intros Hdoc Hself. pose proof Hself as (Hvs & _ & _).
  unfold DocumentService.delete_document.
  destruct (DocumentService.get_document_metadata self doc) as [data|];
    [|exact Hself].
  destruct (negb (String.eqb (DocumentService.session_id data) session));
    [exact Hself|].
  assert (Hminus : forall d,
            d ∈ DocumentService.documents_dir self ∖ {[doc]} ->
            d ∈ DocumentService.documents_dir self \/ d = doc).
  { intros d Hd. apply elem_of_difference in Hd. left. apply Hd. }
  destruct (bool_decide (doc ∈ DocumentService.documents_dir self)
            && DocumentService.pdf_unlink_fails fs);
    [|destruct (DocumentService.json_unlink_fails fs)]; cbn [fst];
    apply (plain_service_within self _ _ _ doc Hdoc Hself);
    try (apply plain_files_delete; exact Hvs); cbn; auto.
  intros d [f Hf]. left. exists f.
  destruct (decide (d = doc)) as [-> | Hne].
  - rewrite lookup_delete_eq in Hf. discriminate.
  - rewrite lookup_delete_ne in Hf by congruence. exact Hf.
Qed.

Lemma plain_service_upload (fuel : nat)
    (self self' : DocumentService.DocumentService)
    (size : Z) (reader : option PdfParser.Reader) (name session : string)
    (provider : option string) (uuid4 : string)
    (embed_documents : list str -> option (list Vector))
    (encode : PdfParser.Metadata -> Dict)
    (pdf_fault fault json_fault : write_fault) (now : Z)
    (o : DocumentService.outcome) :
  plain uuid4 = true ->
  plain_service self ->
  DocumentService.upload_document fuel self size reader name session provider
    uuid4 embed_documents encode pdf_fault fault json_fault now
  = Some (self', o) ->
  plain_service self'.
Proof.
  intros Hdoc Hself. pose proof Hself as (Hvs & _ & _).
  unfold DocumentService.upload_document.
  assert (Hadd : forall d,
            d ∈ ({[uuid4]} ∪ DocumentService.documents_dir self : gset string) ->
            d ∈ DocumentService.documents_dir self \/ d = uuid4).
  { intros d Hd. apply elem_of_union in Hd. destruct Hd as [Hd|Hd]; [|auto].
    apply elem_of_singleton in Hd. auto. }
  assert (Hins : forall (f : DocumentService.json_file) d,
            is_Some (<[uuid4 := f]> (DocumentService.metadata_dir self) !! d) ->
            is_Some (DocumentService.metadata_dir self !! d) \/ d = uuid4).
  { intros f d Hd. destruct (decide (d = uuid4)) as [-> | Hne]; [auto|].
    rewrite lookup_insert_ne in Hd by congruence. auto. }
  destruct (size >? _); [intros H; injection H as <- _; exact Hself|].
  destruct (negb (PdfParser.validate_pdf reader));
    [intros H; injection H as <- _; exact Hself|].
  destruct (PdfParser.parse_pdf reader) as [full_text md|];
    [|intros H; injection H as <- _; exact Hself].
  destruct pdf_fault; [|intros H; injection H as <- _; exact Hself|].
  2:{ intros H. injection H as <- _.
      apply (plain_service_within self _ _ _ uuid4 Hdoc Hself); auto. }
  destruct (chunk_document fuel full_text uuid4 None None None
              (Some (PdfParser.page_numbers md))) as [[chunks|e]|];
    [| |discriminate].
  2:{ intros H. injection H as <- _.
      apply (plain_service_within self _ _ _ uuid4 Hdoc Hself); auto. }
  destruct (embed_documents (map text chunks)) as [embeddings|].
  2:{ intros H. injection H as <- _.
      apply (plain_service_within self _ _ _ uuid4 Hdoc Hself); auto. }
  cbn [DocumentService.vector_service DocumentService.documents_dir
       DocumentService.metadata_dir].
  pose proof (plain_files_store (DocumentService.vector_service self) uuid4
                chunks embeddings (Some (encode md)) fault Hdoc Hvs) as Hst.
  destruct (store_document (DocumentService.vector_service self) uuid4
              chunks embeddings (Some (encode md)) fault) as [vs' [[]|e]];
    cbn [fst snd] in *.
  2:{ intros H. injection H as <- _.
      apply (plain_service_within self _ _ _ uuid4 Hdoc Hself); auto. }
  destruct json_fault; cbn [DocumentService._save_metadata
    DocumentService.doc_id DocumentService.documents_dir
    DocumentService.metadata_dir DocumentService.vector_service];
    intros H; injection H as <- _;
    apply (plain_service_within self _ _ _ uuid4 Hdoc Hself); auto;
    apply Hins.
Qed.

(** X19. Deleting a document checks the owner.  A document whose metadata
    file is missing, unreadable or names another session is left as it
    is, with its PDF and its vectors, and [False] is returned.  For the
    owner the vector store removes the document first, then the PDF goes,
    then the metadata: [True] is returned exactly when neither the
    removal of an existing PDF nor that of the metadata file raised, and
    is returned also when the vector file could not be removed.  A
    removal that raises ends the call with [False] and with what went
    before still removed; the metadata is then still there, and a second
    call of the owner whose removals succeed returns [True].  After
    [True] the metadata and the PDF are gone and every further call
    returns [False].  The other documents are as they were.  Identifiers
    are plain, see above. *)
Theorem document_delete_checks_owner (self : DocumentService.DocumentService)
    (doc session : string) (fs : DocumentService.unlinks) :
  plain doc = true ->
  plain_service self ->
  (deleted self doc session fs = true <->
   (exists m, owned_by self session doc m) /\
   (doc ∈ self.(DocumentService.documents_dir) ->
    fs.(DocumentService.pdf_unlink_fails) = false) /\
   fs.(DocumentService.json_unlink_fails) = false) /\
  ((forall m, ~ owned_by self session doc m) ->
   after_delete self doc session fs = self) /\
  (forall m, owned_by self session doc m ->
     (after_delete self doc session fs).(DocumentService.vector_service)
     = (VectorStore.delete_document self.(DocumentService.vector_service) doc
          fs.(DocumentService.pkl_unlink_fails)).1 /\
     (doc ∈ (after_delete self doc session fs).(DocumentService.documents_dir)
      <-> doc ∈ self.(DocumentService.documents_dir) /\
          fs.(DocumentService.pdf_unlink_fails) = true) /\
     DocumentService.get_document_metadata (after_delete self doc session fs) doc
     = (if deleted self doc session fs then None else Some m) /\
     (fs.(DocumentService.pkl_unlink_fails) = false ->
      document_exists
        (after_delete self doc session fs).(DocumentService.vector_service) doc
      = false) /\
     (deleted self doc session fs = true ->
      forall s fs',
        DocumentService.delete_document (after_delete self doc session fs)
          doc s fs'
        = (after_delete self doc session fs, false)) /\
     (deleted self doc session fs = false ->
      deleted (after_delete self doc session fs) doc session
        DocumentService.all_removed = true)) /\
  (forall other, plain other = true -> other <> doc ->
     same_document self (after_delete self doc session fs) other) /\
  plain_service (after_delete self doc session fs).
Proof.
  intros Hplain Hservice.
  cut ((deleted self doc session fs = true <->
        (exists m, owned_by self session doc m) /\
        (doc ∈ self.(DocumentService.documents_dir) ->
         fs.(DocumentService.pdf_unlink_fails) = false) /\
        fs.(DocumentService.json_unlink_fails) = false) /\
       ((forall m, ~ owned_by self session doc m) ->
        after_delete self doc session fs = self) /\
       (forall m, owned_by self session doc m ->
          (after_delete self doc session fs).(DocumentService.vector_service)
          = (VectorStore.delete_document self.(DocumentService.vector_service)
               doc fs.(DocumentService.pkl_unlink_fails)).1 /\
          (doc ∈ (after_delete self doc session fs).(DocumentService.documents_dir)
           <-> doc ∈ self.(DocumentService.documents_dir) /\
               fs.(DocumentService.pdf_unlink_fails) = true) /\
          DocumentService.get_document_metadata
            (after_delete self doc session fs) doc
          = (if deleted self doc session fs then None else Some m) /\
          (fs.(DocumentService.pkl_unlink_fails) = false ->
           document_exists
             (after_delete self doc session fs).(DocumentService.vector_service)
             doc
           = false) /\
          (deleted self doc session fs = true ->
           forall s fs',
             DocumentService.delete_document (after_delete self doc session fs)
               doc s fs'
             = (after_delete self doc session fs, false)) /\
          (deleted self doc session fs = false ->
           deleted (after_delete self doc session fs) doc session
             DocumentService.all_removed = true)) /\
       (forall other, plain other = true -> other <> doc ->
          same_document self (after_delete self doc session fs) other)).
  { intros (A & B & C & D). repeat (split; [assumption|]).
    apply plain_service_delete; assumption. }
  clear Hplain Hservice. unfold deleted, after_delete.
  destruct (owned_by_dec self doc session) as [[m Hm]|Hno].
  2:{ rewrite (document_delete_refused self doc session fs Hno). cbn [fst snd].
      split; [split; [discriminate|]|].
      { intros [[m Hm] _]. exfalso. apply (Hno m Hm). }
      split; [reflexivity|]. split.
      - intros m Hm. exfalso. apply (Hno m Hm).
      - intros other _ _. apply same_document_refl. }
  rewrite (document_delete_owned self doc session m fs Hm).
  assert (Hframe : forall docs' metas' other,
            other <> doc ->
            metas' !! other = DocumentService.metadata_dir self !! other ->
            (other ∈ docs' <-> other ∈ DocumentService.documents_dir self) ->
            same_document self
              {| DocumentService.documents_dir := docs';
                 DocumentService.metadata_dir := metas';
                 DocumentService.vector_service :=
                   (VectorStore.delete_document
                      (DocumentService.vector_service self) doc
                      (DocumentService.pkl_unlink_fails fs)).1 |} other).
  { intros docs' metas' other Hne Hmetas Hdocs.
    split; [exact Hmetas|]. split; [exact Hdocs|]. cbn.
    apply delete_document_frame. exact Hne. }
  assert (Hminus : forall other, other <> doc ->
            other ∈ DocumentService.documents_dir self ∖ {[doc]}
            <-> other ∈ DocumentService.documents_dir self).
  { intros other Hne. rewrite elem_of_difference, elem_of_singleton. tauto. }
  assert (Hgone : doc ∉ DocumentService.documents_dir self ∖ {[doc]}).
  { rewrite elem_of_difference, elem_of_singleton. tauto. }
  pose proof Hm as [Hmeta Hsession].
  destruct fs as [pkl pdf json]. cbn [DocumentService.pkl_unlink_fails
    DocumentService.pdf_unlink_fails DocumentService.json_unlink_fails] in *.
  destruct (decide (doc ∈ DocumentService.documents_dir self)) as [Hin|Hout].
  - rewrite (bool_decide_eq_true_2 _ Hin). cbn [andb].
    destruct pdf.
    + (* the PDF stays *)
      cbn [fst snd]. split.
      { split; [discriminate|]. intros (_ & H & _). specialize (H Hin).
        discriminate. }
      split; [intros Hno; exfalso; apply (Hno m Hm)|]. split.
      * intros m' Hm'. assert (m' = m) as -> by (destruct Hm'; congruence).
        cbn. split; [reflexivity|]. split; [tauto|]. split.
        { unfold DocumentService.get_document_metadata. cbn. rewrite Hmeta.
          reflexivity. }
        split; [intros ->; apply vector_delete_gone|].
        split; [discriminate|]. intros _.
        erewrite document_delete_owned; [|split; [exact Hmeta|exact Hsession]].
        cbn. rewrite andb_false_r. reflexivity.
      * intros other _ Hne. apply Hframe; [exact Hne|reflexivity|reflexivity].
    + destruct json.
      * (* the PDF goes, the metadata stays *)
        cbn [fst snd]. split.
        { split; [discriminate|]. intros (_ & _ & H). discriminate. }
        split; [intros Hno; exfalso; apply (Hno m Hm)|]. split.
        -- intros m' Hm'. assert (m' = m) as -> by (destruct Hm'; congruence).
           cbn. split; [reflexivity|]. split.
           { split; [intros H; contradiction|intros [_ H]; discriminate]. }
           split.
           { unfold DocumentService.get_document_metadata. cbn. rewrite Hmeta.
             reflexivity. }
           split; [intros ->; apply vector_delete_gone|].
           split; [discriminate|]. intros _.
           erewrite document_delete_owned;
             [|split; [exact Hmeta|exact Hsession]].
           cbn. rewrite andb_false_r. reflexivity.
        -- intros other _ Hne. apply Hframe; [exact Hne|reflexivity|].
           apply Hminus. exact Hne.
      * (* all three are gone *)
        cbn [fst snd]. split.
        { split; [|reflexivity]. intros _. split; [exists m; exact Hm|].
          split; reflexivity. }
        split; [intros Hno; exfalso; apply (Hno m Hm)|]. split.
        -- intros m' Hm'. assert (m' = m) as -> by (destruct Hm'; congruence).
           cbn. split; [reflexivity|]. split.
           { split; [intros H; contradiction|intros [_ H]; discriminate]. }
           split.
           { unfold DocumentService.get_document_metadata. cbn.
             rewrite lookup_delete_eq. reflexivity. }
           split; [intros ->; apply vector_delete_gone|].
           split; [|discriminate]. intros _ s fs'.
           apply document_delete_refused. intros m' [Hm'' _]. cbn in Hm''.
           rewrite lookup_delete_eq in Hm''. discriminate.
        -- intros other _ Hne. apply Hframe; [exact Hne| |].
           ++ apply lookup_delete_ne. congruence.
           ++ apply Hminus. exact Hne.
  - rewrite (bool_decide_eq_false_2 _ Hout). cbn [andb].
    destruct json.
    + cbn [fst snd]. split.
      { split; [discriminate|]. intros (_ & _ & H). discriminate. }
      split; [intros Hno; exfalso; apply (Hno m Hm)|]. split.
      * intros m' Hm'. assert (m' = m) as -> by (destruct Hm'; congruence).
        cbn. split; [reflexivity|]. split.
        { split; [intros H; contradiction|intros [H _]; contradiction]. }
        split.
        { unfold DocumentService.get_document_metadata. cbn. rewrite Hmeta.
          reflexivity. }
        split; [intros ->; apply vector_delete_gone|].
        split; [discriminate|]. intros _.
        erewrite document_delete_owned; [|split; [exact Hmeta|exact Hsession]].
        cbn. rewrite andb_false_r. reflexivity.
      * intros other _ Hne. apply Hframe; [exact Hne|reflexivity|].
        apply Hminus. exact Hne.
    + cbn [fst snd]. split.
      { split; [|reflexivity]. intros _. split; [exists m; exact Hm|].
        split; [intros H; contradiction|reflexivity]. }
      split; [intros Hno; exfalso; apply (Hno m Hm)|]. split.
      * intros m' Hm'. assert (m' = m) as -> by (destruct Hm'; congruence).
        cbn. split; [reflexivity|]. split.
        { split; [intros H; contradiction|intros [H _]; contradiction]. }
        split.
        { unfold DocumentService.get_document_metadata. cbn.
          rewrite lookup_delete_eq. reflexivity. }
        split; [intros ->; apply vector_delete_gone|].
        split; [|discriminate]. intros _ s fs'.
        apply document_delete_refused. intros m' [Hm'' _]. cbn in Hm''.
        rewrite lookup_delete_eq in Hm''. discriminate.
      * intros other _ Hne. apply Hframe; [exact Hne| |].
        -- apply lookup_delete_ne. congruence.
        -- apply Hminus. exact Hne.
Qed.

Lemma document_delete_checks_owner_witness :
  (deleted sample_service_1 "doc-1" "s1" sample_unlinks = true <->
   (exists m, owned_by sample_service_1 "s1" "doc-1" m) /\
   ("doc-1"%string ∈ sample_service_1.(DocumentService.documents_dir) ->
    sample_unlinks.(DocumentService.pdf_unlink_fails) = false) /\
   sample_unlinks.(DocumentService.json_unlink_fails) = false) /\
  ((forall m, ~ owned_by sample_service_1 "s1" "doc-1" m) ->
   after_delete sample_service_1 "doc-1" "s1" sample_unlinks = sample_service_1) /\
  (forall m, owned_by sample_service_1 "s1" "doc-1" m ->
     (after_delete sample_service_1 "doc-1" "s1" sample_unlinks).(DocumentService.vector_service)
     = (VectorStore.delete_document sample_service_1.(DocumentService.vector_service) "doc-1"
          sample_unlinks.(DocumentService.pkl_unlink_fails)).1 /\
     ("doc-1"%string ∈ (after_delete sample_service_1 "doc-1" "s1" sample_unlinks).(DocumentService.documents_dir)
      <-> "doc-1"%string ∈ sample_service_1.(DocumentService.documents_dir) /\
          sample_unlinks.(DocumentService.pdf_unlink_fails) = true) /\
     DocumentService.get_document_metadata (after_delete sample_service_1 "doc-1" "s1" sample_unlinks) "doc-1"
     = (if deleted sample_service_1 "doc-1" "s1" sample_unlinks then None else Some m) /\
     (sample_unlinks.(DocumentService.pkl_unlink_fails) = false ->
      document_exists
        (after_delete sample_service_1 "doc-1" "s1" sample_unlinks).(DocumentService.vector_service) "doc-1"
      = false) /\
     (deleted sample_service_1 "doc-1" "s1" sample_unlinks = true ->
      forall s fs',
        DocumentService.delete_document (after_delete sample_service_1 "doc-1" "s1" sample_unlinks)
          "doc-1" s fs'
        = (after_delete sample_service_1 "doc-1" "s1" sample_unlinks, false)) /\
     (deleted sample_service_1 "doc-1" "s1" sample_unlinks = false ->
      deleted (after_delete sample_service_1 "doc-1" "s1" sample_unlinks) "doc-1" "s1"
        DocumentService.all_removed = true)) /\
  (forall other, plain other = true -> other <> "doc-1"%string ->
     same_document sample_service_1 (after_delete sample_service_1 "doc-1" "s1" sample_unlinks) other) /\
  plain_service (after_delete sample_service_1 "doc-1" "s1" sample_unlinks).
Proof.
  apply (document_delete_checks_owner sample_service_1 "doc-1" "s1"
           sample_unlinks).
  - reflexivity.
  - exact plain_service_sample_1.
Defined.

(** ** Uploading a document *)

Lemma store_document_stored (vs : VectorStoreService) (doc : string)
    (chunks : list ChunkMetadata) (embeddings : list Vector)
    (md : option Dict) (fault : write_fault) :
  (store_document vs doc chunks embeddings md fault).2 = Ok tt ->
  exists index,
    (store_document vs doc chunks embeddings md fault).1
    = {| _cache := <[doc := (index, chunks, Some (or_dict md))]> vs.(_cache);
         disk := <[doc := Pickled (index, chunks, md)]> vs.(disk) |}.
Proof.
  unfold store_document.
  destruct (len chunks =? len embeddings); simpl; [|discriminate].
  destruct (np_array_shape1 embeddings) as [[dimension rows]|e];
    [|discriminate].
  destruct fault; simpl; try discriminate. intros _. eexists. reflexivity.
Qed.

(** X20. Upload and delete are inverse.  When [upload_document] returns,
    the metadata that it returns can be read back under the identifier it
    drew, names the session and counts the chunks that the vector store
    holds for the document, and the PDF is stored.  If nothing carried
    that identifier before, deleting the document for the same session
    gives back the service as it was before the upload. *)
Theorem upload_then_delete (fuel : nat) (self self' : DocumentService.DocumentService)
    (size : Z) (reader : option PdfParser.Reader) (name session : string)
    (provider : option string) (uuid4 : string)
    (embed_documents : list str -> option (list Vector))
    (encode : PdfParser.Metadata -> Dict)
    (pdf_fault fault json_fault : write_fault) (now : Z)
    (m : DocumentService.DocumentMetadata) :
  DocumentService.upload_document fuel self size reader name session provider
    uuid4 embed_documents encode pdf_fault fault json_fault now
  = Some (self', DocumentService.Returns m) ->
  DocumentService.get_document_metadata self' uuid4 = Some m /\
  m.(DocumentService.doc_id) = uuid4 /\
  m.(DocumentService.session_id) = session /\
  uuid4 ∈ self'.(DocumentService.documents_dir) /\
  (get_document_info self'.(DocumentService.vector_service) uuid4).2
  = Some {| info_doc_id := uuid4;
            info_chunk_count := m.(DocumentService.chunk_count);
            info_metadata := Some (encode m.(DocumentService.metadata)) |} /\
  (unused self uuid4 ->
   DocumentService.delete_document self' uuid4 session
     DocumentService.all_removed = (self, true)).
Proof.
  unfold DocumentService.upload_document.
  destruct (size >? _); [discriminate|].
  destruct (PdfParser.validate_pdf reader); cbn [negb]; [|discriminate].
  destruct (PdfParser.parse_pdf reader) as [full_text md|]; [|discriminate].
  destruct pdf_fault; try discriminate.
  destruct (chunk_document fuel full_text uuid4 None None None
              (Some (PdfParser.page_numbers md))) as [[chunks|e]|];
    try discriminate.
  destruct (embed_documents (map text chunks)) as [embeddings|];
    [|discriminate].
  cbn [DocumentService.vector_service DocumentService.documents_dir
       DocumentService.metadata_dir].
  destruct (store_document (DocumentService.vector_service self) uuid4
              chunks embeddings (Some (encode md)) fault).2
    as [[]|e] eqn:Hst; [|discriminate].
  destruct (store_document_stored _ _ _ _ _ _ Hst) as [index Hstored].
  rewrite Hstored.
  destruct json_fault; cbn [DocumentService._save_metadata]; try discriminate.
  intros H. injection H as <- <-.
  cbn [DocumentService.doc_id DocumentService.session_id
       DocumentService.chunk_count DocumentService.metadata
       DocumentService.vector_service DocumentService.documents_dir
       DocumentService.metadata_dir].
  split; [|split; [reflexivity|split; [reflexivity|split; [|split]]]].
  - unfold DocumentService.get_document_metadata. cbn.
    rewrite lookup_insert_eq. reflexivity.
  - apply elem_of_union. left. apply elem_of_singleton. reflexivity.
  - unfold get_document_info, _load_document. cbn.
    rewrite lookup_insert_eq. reflexivity.
  - intros (Hpdf & Hmeta & Hcache & Hdisk).
    erewrite document_delete_owned;
      [|split; [cbn; apply lookup_insert_eq|reflexivity]].
    cbn [DocumentService.all_removed DocumentService.pdf_unlink_fails
         DocumentService.json_unlink_fails DocumentService.pkl_unlink_fails].
    rewrite andb_false_r.
    f_equal. destruct self as [docs metas [cache files]]. cbn in *.
    f_equal.
    + apply set_eq. intros x.
      rewrite elem_of_difference, elem_of_union, elem_of_singleton.
      split; [tauto|]. intros Hx. split; [tauto|]. intros ->. contradiction.
    + apply delete_insert_id. exact Hmeta.
    + unfold VectorStore.delete_document. cbn. rewrite lookup_insert_eq. cbn.
      f_equal; apply delete_insert_id; assumption.
Qed.

Lemma upload_then_delete_witness :
  exists self' m,
    DocumentService.upload_document 0 sample_service 12 sample_reader
      "a.pdf" "s1" None "doc-1" sample_embed sample_encode
      NoFault NoFault NoFault 7
    = Some (self', DocumentService.Returns m) /\
    DocumentService.get_document_metadata self' "doc-1" = Some m /\
    m.(DocumentService.doc_id) = "doc-1"%string /\
    m.(DocumentService.session_id) = "s1"%string /\
    "doc-1"%string ∈ self'.(DocumentService.documents_dir) /\
    (get_document_info self'.(DocumentService.vector_service) "doc-1").2
    = Some {| info_doc_id := "doc-1";
              info_chunk_count := m.(DocumentService.chunk_count);
              info_metadata := Some (sample_encode m.(DocumentService.metadata)) |} /\
    (unused sample_service "doc-1" ->
     DocumentService.delete_document self' "doc-1" "s1"
       DocumentService.all_removed = (sample_service, true)).
Proof.
  eexists _, _. split; [vm_compute; reflexivity|].
  apply (upload_then_delete 0 sample_service _ 12 sample_reader
           "a.pdf" "s1" None "doc-1" sample_embed sample_encode
           NoFault NoFault NoFault 7).
  vm_compute. reflexivity.
Defined.

Lemma store_document_other (vs : VectorStoreService) (doc : string)
    (chunks : list ChunkMetadata) (embeddings : list Vector)
    (md : option Dict) (fault : write_fault) (other : string) :
  other <> doc ->
  lookup_entry (store_document vs doc chunks embeddings md fault).1 other
  = lookup_entry vs other /\
  document_exists (store_document vs doc chunks embeddings md fault).1 other
  = document_exists vs other.
Proof.
  intros Hne.
  assert (Hc : _cache (store_document vs doc chunks embeddings md fault).1
               !! other = _cache vs !! other).
  { unfold store_document.
    destruct (len chunks =? len embeddings); simpl; try reflexivity.
    destruct (np_array_shape1 embeddings) as [[dimension rows]|e];
      try reflexivity.
    destruct fault; simpl; rewrite ?lookup_insert_ne by congruence;
      reflexivity. }
  assert (Hd : disk (store_document vs doc chunks embeddings md fault).1
               !! other = disk vs !! other).
  { unfold store_document.
    destruct (len chunks =? len embeddings); simpl; try reflexivity.
    destruct (np_array_shape1 embeddings) as [[dimension rows]|e];
      try reflexivity.
    destruct fault; simpl; rewrite ?lookup_insert_ne by congruence;
      reflexivity. }
  split; [apply lookup_entry_ext; assumption|].
  unfold document_exists. rewrite Hc, Hd. reflexivity.
Qed.

(** What is left of an upload that raised after the PDF was made. *)
Lemma upload_raised_late (self : DocumentService.DocumentService)
    (uuid4 : string) (size : Z) (reader : option PdfParser.Reader)
    (pdf_fault json_fault : write_fault)
    (HnT : ~ turned_away size reader pdf_fault)
    (vs' : VectorStoreService) (metas' : gmap string DocumentService.json_file) :
  (forall other, other <> uuid4 ->
     lookup_entry vs' other
     = lookup_entry (DocumentService.vector_service self) other /\
     document_exists vs' other
     = document_exists (DocumentService.vector_service self) other) ->
  (forall other, other <> uuid4 ->
     metas' !! other = DocumentService.metadata_dir self !! other) ->
  (metas' !! uuid4 = DocumentService.metadata_dir self !! uuid4 \/
   json_fault = DumpFails /\
   metas' !! uuid4 = Some DocumentService.Unreadable) ->
  (forall other, plain other = true -> other <> uuid4 ->
     same_document self
       {| DocumentService.documents_dir :=
            {[uuid4]} ∪ DocumentService.documents_dir self;
          DocumentService.metadata_dir := metas';
          DocumentService.vector_service := vs' |} other) /\
  (turned_away size reader pdf_fault ->
   {| DocumentService.documents_dir :=
        {[uuid4]} ∪ DocumentService.documents_dir self;
      DocumentService.metadata_dir := metas';
      DocumentService.vector_service := vs' |} = self) /\
  (~ turned_away size reader pdf_fault ->
   uuid4 ∈ ({[uuid4]} ∪ DocumentService.documents_dir self : gset string) /\
   (metas' !! uuid4 = DocumentService.metadata_dir self !! uuid4 \/
    json_fault = DumpFails /\
    metas' !! uuid4 = Some DocumentService.Unreadable) /\
   (DocumentService.metadata_dir self !! uuid4 = None ->
    DocumentService.get_document_metadata
      {| DocumentService.documents_dir :=
           {[uuid4]} ∪ DocumentService.documents_dir self;
         DocumentService.metadata_dir := metas';
         DocumentService.vector_service := vs' |} uuid4 = None /\
    forall s fs,
      DocumentService.delete_document
        {| DocumentService.documents_dir :=
             {[uuid4]} ∪ DocumentService.documents_dir self;
           DocumentService.metadata_dir := metas';
           DocumentService.vector_service := vs' |} uuid4 s fs
      = ({| DocumentService.documents_dir :=
              {[uuid4]} ∪ DocumentService.documents_dir self;
            DocumentService.metadata_dir := metas';
            DocumentService.vector_service := vs' |}, false))).
Proof.
  intros Hvs Hmetas Hown. split; [|split].
  - intros other _ Hne. split; [apply Hmetas; exact Hne|]. split.
    + cbn. rewrite elem_of_union, elem_of_singleton. tauto.
    + apply Hvs. exact Hne.
  - intros HT. contradiction.
  - intros _. split.
    + apply elem_of_union. left. apply elem_of_singleton. reflexivity.
    + split; [exact Hown|]. intros Hnone.
      assert (Hget : DocumentService.get_document_metadata
                       {| DocumentService.documents_dir :=
                            {[uuid4]} ∪ DocumentService.documents_dir self;
                          DocumentService.metadata_dir := metas';
                          DocumentService.vector_service := vs' |} uuid4
                     = None).
      { unfold DocumentService.get_document_metadata. cbn.
        destruct Hown as [-> | [_ ->]]; [rewrite Hnone|]; reflexivity. }
      split; [exact Hget|]. intros s fs. apply document_delete_refused.
      intros m [Hm _]. unfold DocumentService.get_document_metadata in Hget.
      rewrite Hm in Hget. discriminate.
Qed.

(** X21. A failed upload.  A file that is too large, is not a valid PDF
    or has no text, or whose PDF cannot be opened for writing, is turned
    away with nothing written.  Past that point the PDF has been created
    and stays, whatever raises: the write of the PDF, the chunker, the
    embedding service, the vector store or the write of the metadata.
    The metadata file of the document is then as it was before, or, when
    the dump of the metadata raised, a file that cannot be read; for an
    identifier that had no metadata, [get_document_metadata] returns
    [None] and [delete_document] returns [False] for every session and
    removes nothing.  The other documents are as they were.  Identifiers
    are plain, see above. *)
Theorem upload_failure_keeps_pdf (fuel : nat)
    (self self' : DocumentService.DocumentService)
    (size : Z) (reader : option PdfParser.Reader) (name session : string)
    (provider : option string) (uuid4 : string)
    (embed_documents : list str -> option (list Vector))
    (encode : PdfParser.Metadata -> Dict)
    (pdf_fault fault json_fault : write_fault) (now : Z)
    (r : DocumentService.raised) :
  plain uuid4 = true ->
  plain_service self ->
  DocumentService.upload_document fuel self size reader name session provider
    uuid4 embed_documents encode pdf_fault fault json_fault now
  = Some (self', DocumentService.Raises r) ->
  (forall other, plain other = true -> other <> uuid4 ->
     same_document self self' other) /\
  (turned_away size reader pdf_fault -> self' = self) /\
  (~ turned_away size reader pdf_fault ->
   uuid4 ∈ self'.(DocumentService.documents_dir) /\
   (self'.(DocumentService.metadata_dir) !! uuid4
    = self.(DocumentService.metadata_dir) !! uuid4 \/
    json_fault = DumpFails /\
    self'.(DocumentService.metadata_dir) !! uuid4
    = Some DocumentService.Unreadable) /\
   (self.(DocumentService.metadata_dir) !! uuid4 = None ->
    DocumentService.get_document_metadata self' uuid4 = None /\
    forall s fs,
      DocumentService.delete_document self' uuid4 s fs = (self', false))) /\
  plain_service self'.
Proof.
  intros Hplain Hservice Hrun.
  cut ((forall other, plain other = true -> other <> uuid4 ->
          same_document self self' other) /\
       (turned_away size reader pdf_fault -> self' = self) /\
       (~ turned_away size reader pdf_fault ->
        uuid4 ∈ self'.(DocumentService.documents_dir) /\
        (self'.(DocumentService.metadata_dir) !! uuid4
         = self.(DocumentService.metadata_dir) !! uuid4 \/
         json_fault = DumpFails /\
         self'.(DocumentService.metadata_dir) !! uuid4
         = Some DocumentService.Unreadable) /\
        (self.(DocumentService.metadata_dir) !! uuid4 = None ->
         DocumentService.get_document_metadata self' uuid4 = None /\
         forall s fs,
           DocumentService.delete_document self' uuid4 s fs = (self', false)))).
  { intros (A & B & C). repeat (split; [assumption|]).
    eapply plain_service_upload; eassumption. }
  clear Hplain Hservice. revert Hrun.
  unfold DocumentService.upload_document.
  assert (Hearly : forall Q : Prop,
            turned_away size reader pdf_fault ->
            (forall other, plain other = true -> other <> uuid4 ->
               same_document self self other) /\
            (turned_away size reader pdf_fault -> self = self) /\
            (~ turned_away size reader pdf_fault -> Q)).
  { intros Q HP. split; [intros; apply same_document_refl|].
    split; [reflexivity|]. intros HnP. contradiction. }
  destruct (Z.gtb_spec size (DocumentService.MAX_FILE_SIZE_MB * 1024 * 1024))
    as [Hbig|Hsmall].
  { intros H. injection H as <- <-. apply Hearly. left. lia. }
  destruct (PdfParser.validate_pdf reader) eqn:Hvalid; cbn [negb].
  2:{ intros H. injection H as <- <-. apply Hearly. right. left. exact Hvalid. }
  destruct (PdfParser.parse_pdf reader) as [full_text md|] eqn:Hparse.
  2:{ intros H. injection H as <- <-. apply Hearly.
      right. right. left. exact Hparse. }
  assert (HnT : pdf_fault <> OpenFails ->
                ~ turned_away size reader pdf_fault).
  { unfold turned_away. rewrite Hvalid, Hparse.
    intros Hopen [H|[H|[H|H]]]; [lia|discriminate|discriminate|contradiction]. }
  pose proof (fun Hopen =>
                upload_raised_late self uuid4 size reader pdf_fault json_fault
                  (HnT Hopen)) as Hlate.
  pose proof (fun other (Hne : other <> uuid4) =>
                conj (eq_refl (lookup_entry (DocumentService.vector_service self) other))
                     (eq_refl (document_exists (DocumentService.vector_service self) other)))
    as Hsame.
  destruct pdf_fault.
  2:{ intros H. injection H as <- <-. apply Hearly.
      right. right. right. reflexivity. }
  all: specialize (Hlate ltac:(discriminate)).
  - (* the PDF is written *)
    destruct (chunk_document fuel full_text uuid4 None None None
                (Some (PdfParser.page_numbers md))) as [[chunks|e]|];
      [| |discriminate].
    2:{ intros H. injection H as <- <-. apply Hlate; auto. }
    destruct (embed_documents (map text chunks)) as [embeddings|].
    2:{ intros H. injection H as <- <-. apply Hlate; auto. }
    cbn [DocumentService.vector_service DocumentService.documents_dir
         DocumentService.metadata_dir].
    pose proof (fun other Hne =>
                  store_document_other (DocumentService.vector_service self)
                    uuid4 chunks embeddings (Some (encode md)) fault other Hne)
      as Hvs.
    destruct (store_document (DocumentService.vector_service self) uuid4
                chunks embeddings (Some (encode md)) fault) as [vs' [[]|e]].
    2:{ cbn. intros H. injection H as <- <-. apply Hlate; auto. }
    cbn [fst snd].
    destruct json_fault; cbn [DocumentService._save_metadata
      DocumentService.doc_id DocumentService.documents_dir
      DocumentService.metadata_dir DocumentService.vector_service];
      [discriminate| |].
    + intros H. injection H as <- <-. apply Hlate; auto.
    + intros H. injection H as <- <-. apply Hlate; auto.
      * intros other Hne. apply lookup_insert_ne. congruence.
      * right. split; [reflexivity|]. apply lookup_insert_eq.
  - (* the write of the PDF raises after the file was made *)
    intros H. injection H as <- <-. apply Hlate; auto.
Qed.

Lemma upload_failure_keeps_pdf_witness :
  exists self',
    DocumentService.upload_document 0 sample_service 12 sample_reader
      "a.pdf" "s1" None "doc-1" sample_embed sample_encode
      NoFault NoFault DumpFails 7
    = Some (self', DocumentService.Raises (DocumentService.Raised OSError)) /\
    (forall other, plain other = true -> other <> "doc-1"%string ->
       same_document sample_service self' other) /\
    (turned_away 12 sample_reader NoFault -> self' = sample_service) /\
    (~ turned_away 12 sample_reader NoFault ->
     "doc-1"%string ∈ self'.(DocumentService.documents_dir) /\
     (self'.(DocumentService.metadata_dir) !! "doc-1"%string
      = sample_service.(DocumentService.metadata_dir) !! "doc-1"%string \/
      DumpFails = DumpFails /\
      self'.(DocumentService.metadata_dir) !! "doc-1"%string
      = Some DocumentService.Unreadable) /\
     (sample_service.(DocumentService.metadata_dir) !! "doc-1"%string = None ->
      DocumentService.get_document_metadata self' "doc-1" = None /\
      forall s fs,
        DocumentService.delete_document self' "doc-1" s fs = (self', false))) /\
    plain_service self'.
Proof.
  eexists. split; [vm_compute; reflexivity|].
  apply (upload_failure_keeps_pdf 0 sample_service _ 12 sample_reader
           "a.pdf" "s1" None "doc-1" sample_embed sample_encode
           NoFault NoFault DumpFails 7 (DocumentService.Raised OSError)).
  - reflexivity.
  - exact plain_service_sample.
  - vm_compute. reflexivity.
Defined.

(** X22. When an upload succeeds.  [upload_document] returns exactly when
    the file is not larger than [MAX_FILE_SIZE_MB], the PDF is valid and
    has a text, the PDF is written, the chunker returns chunks, the
    embedding service answers with one vector for each chunk, the vectors
    are a non-empty list of rows of one length, and neither the write of
    the vector store nor that of the metadata fails.  A text that gives
    no chunk is therefore never uploaded.  The call does not end only
    when the chunker, which it reaches once the PDF is written, does
    not. *)
Theorem upload_succeeds_iff (fuel : nat) (self : DocumentService.DocumentService)
    (size : Z) (reader : option PdfParser.Reader) (name session : string)
    (provider : option string) (uuid4 : string)
    (embed_documents : list str -> option (list Vector))
    (encode : PdfParser.Metadata -> Dict)
    (pdf_fault fault json_fault : write_fault) (now : Z) :
  ((exists self' m,
      DocumentService.upload_document fuel self size reader name session
        provider uuid4 embed_documents encode pdf_fault fault json_fault now
      = Some (self', DocumentService.Returns m)) <->
   size <= DocumentService.MAX_FILE_SIZE_MB * 1024 * 1024 /\
   PdfParser.validate_pdf reader = true /\
   exists full_text md chunks embeddings,
     PdfParser.parse_pdf reader = PdfParser.Parsed full_text md /\
     pdf_fault = NoFault /\
     chunk_document fuel full_text uuid4 None None None
       (Some md.(PdfParser.page_numbers)) = Some (Ok chunks) /\
     embed_documents (map text chunks) = Some embeddings /\
     len chunks = len embeddings /\
     rectangular embeddings /\
     chunks <> [] /\
     fault = NoFault /\
     json_fault = NoFault) /\
  (DocumentService.upload_document fuel self size reader name session
     provider uuid4 embed_documents encode pdf_fault fault json_fault now
   = None <->
   size <= DocumentService.MAX_FILE_SIZE_MB * 1024 * 1024 /\
   PdfParser.validate_pdf reader = true /\
   pdf_fault = NoFault /\
   exists full_text md,
     PdfParser.parse_pdf reader = PdfParser.Parsed full_text md /\
     chunk_document fuel full_text uuid4 None None None
       (Some md.(PdfParser.page_numbers)) = None).
Proof.
  unfold DocumentService.upload_document.
  destruct (Z.gtb_spec size (DocumentService.MAX_FILE_SIZE_MB * 1024 * 1024))
    as [Hbig|Hsmall].
  { split; (split; [first [intros (s & m & H) | intros H]; discriminate|]);
      intros [H _]; lia. }
  destruct (PdfParser.validate_pdf reader) eqn:Hvalid; cbn [negb].
  2:{ split; (split; [first [intros (s & m & H) | intros H]; discriminate|]);
        intros (_ & H & _); discriminate. }
  destruct (PdfParser.parse_pdf reader) as [full_text md|] eqn:Hparse.
  2:{ split; (split; [first [intros (s & m & H) | intros H]; discriminate|]).
      - intros (_ & _ & t & md & c & e & H & _). discriminate.
      - intros (_ & _ & _ & t & md & H & _). discriminate. }
  destruct pdf_fault.
  2:{ split; (split; [first [intros (s & m & H) | intros H]; discriminate|]).
      - intros (_ & _ & t & md' & c & e & _ & H & _). discriminate.
      - intros (_ & _ & H & _). discriminate. }
  2:{ split; (split; [first [intros (s & m & H) | intros H]; discriminate|]).
      - intros (_ & _ & t & md' & c & e & _ & H & _). discriminate.
      - intros (_ & _ & H & _). discriminate. }
  destruct (chunk_document fuel full_text uuid4 None None None
              (Some (PdfParser.page_numbers md))) as [[chunks|e]|] eqn:Hchunk.
  3:{ split.
      - split; [intros (s & m & H); discriminate|].
        intros (_ & _ & t & md' & c & e & H & _ & Hc & _).
        injection H as <- <-. rewrite Hchunk in Hc. discriminate.
      - split; [|reflexivity]. intros _.
        split; [exact Hsmall|]. split; [reflexivity|]. split; [reflexivity|].
        exists full_text, md. split; [reflexivity|exact Hchunk]. }
  2:{ split.
      - split; [intros (s & m & H); discriminate|].
        intros (_ & _ & t & md' & c & e' & H & _ & Hc & _).
        injection H as <- <-. rewrite Hchunk in Hc. discriminate.
      - split; [discriminate|].
        intros (_ & _ & _ & t & md' & H & Hc).
        injection H as <- <-. rewrite Hchunk in Hc. discriminate. }
  assert (Hends : forall res : DocumentService.DocumentService * DocumentService.outcome,
            Some res = None <->
            size <= DocumentService.MAX_FILE_SIZE_MB * 1024 * 1024 /\
            true = true /\ NoFault = NoFault /\
            exists full_text0 md0,
              PdfParser.Parsed full_text md = PdfParser.Parsed full_text0 md0 /\
              chunk_document fuel full_text0 uuid4 None None None
                (Some (PdfParser.page_numbers md0)) = None).
  { intros res. split; [discriminate|].
    intros (_ & _ & _ & t & md' & H & Hc).
    injection H as <- <-. rewrite Hchunk in Hc. discriminate. }
  destruct (embed_documents (map text chunks)) as [embeddings|] eqn:Hembed.
  2:{ split; [|apply Hends].
      split; [intros (s & m & H); discriminate|].
      intros (_ & _ & t & md' & c & e & H & _ & Hc & He & _).
      injection H as <- <-. rewrite Hchunk in Hc. injection Hc as <-.
      rewrite Hembed in He. discriminate. }
  cbn [DocumentService.vector_service DocumentService.documents_dir
       DocumentService.metadata_dir].
  pose proof (store_document_ok_iff (DocumentService.vector_service self) uuid4
                chunks embeddings (Some (encode md)) fault) as Hiff.
  destruct (store_document (DocumentService.vector_service self) uuid4
              chunks embeddings (Some (encode md)) fault).2
    as [[]|e] eqn:Hst.
  2:{ split; [|apply Hends].
      split; [intros (s & m & H); discriminate|].
      intros (_ & _ & t & md' & c & e' & H & _ & Hc & He & Hl & Hrect & _ & Hf & _).
      injection H as <- <-. rewrite Hchunk in Hc. injection Hc as <-.
      rewrite Hembed in He. injection He as <-.
      assert (Hok : Raise e = Ok tt :> result unit) by (apply Hiff; auto).
      discriminate. }
  destruct (proj1 Hiff eq_refl) as (Hf & Hl & Hrect).
  destruct json_fault; cbn [DocumentService._save_metadata].
  - split; [|apply Hends]. split; [|eauto]. intros _.
    split; [exact Hsmall|]. split; [reflexivity|].
    exists full_text, md, chunks, embeddings. repeat split; auto.
    intros Hnil. rewrite Hnil in Hl. destruct Hrect as (v & Hv & _).
    destruct embeddings; [discriminate|]. unfold len in Hl. simpl in Hl. lia.
  - split; [|apply Hends].
    split; [intros (s & m & H); discriminate|].
    intros (_ & _ & t & md' & c & e' & _ & _ & _ & _ & _ & _ & _ & _ & H).
    discriminate.
  - split; [|apply Hends].
    split; [intros (s & m & H); discriminate|].
    intros (_ & _ & t & md' & c & e' & _ & _ & _ & _ & _ & _ & _ & _ & H).
    discriminate.
Qed.
